(** * Verification of the G25 Photos chunked archive pipeline

    Shallow embedding of the producer (tools/lib/chunker.ts, the on-disk
    chunker found in tools/crypto-file.ts, tools/main.ts) and of the consumer
    (src/lib/crypto.ts AlbumStore, src/lib/worker/album-worker.ts,
    src/routes/+layout.svelte). *)

From Stdlib Require Import ZArith NArith Lia Ascii Sorting.Sorted.
From stdpp Require Import base list strings pretty gmap.
Open Scope N_scope.

(** ** Shared data model (tools/lib/scanner.ts, types.ts) *)

Inductive AssetType := Photo | Live | Video.

(** JS object / Record<string, V> used as an ordered dictionary:
    assigning an existing key replaces the value in place, a new key is
    appended at the end. *)
Fixpoint rec_set {V} (k : string) (v : V) (r : list (string * V))
  : list (string * V) :=
  match r with
  | [] => [(k, v)]
  | (k', v') :: r' =>
      if String.eqb k k' then (k, v) :: r' else (k', v') :: rec_set k v r'
  end.

(** [ChunkInfo] of both chunkers. *)
Record ChunkInfo := mkChunkInfo {
  chunkId : N;
  thumbnailsFile : string;
  originalsFile : string;
  videosFile : option string;
  startIndex : N;
  endIndex : N
}.

(** ** The planning loop shared by both [createChunks]

    Both versions of [createChunks] run the same loop: push the entry into
    the open chunk, add its counted bytes to [currentAssetSize], and seal the
    chunk when [currentAssetSize >= MAX_CHUNK_SIZE] or the entry is the last
    one ([i === entries.length - 1], i.e. no entry follows).  Sealing emits
    the chunk id, [chunkStartIndex] and the chunk's entries; then
    [chunkId++], [chunkStartIndex = <last entry>.id + 1],
    [currentAssetSize = 0] and the open chunk is emptied.  The versions
    differ only in which bytes an entry counts ([weight]) and in how the
    archives are built from the sealed entries (see [Mem.createChunks] and
    [Disk.createChunks]). *)
Section Planner.
Context {E : Type} (eid : E -> N) (weight : E -> N) (MAX_CHUNK_SIZE : N).

Record Sealed := mkSealed {
  sealed_chunkId : N;
  sealed_start : N;
  sealed_entries : list E
}.

Fixpoint plan_loop (es : list E) (chunkId chunkStartIndex currentAssetSize : N)
    (chunkEntries : list E) : list Sealed :=
  match es with
  | [] => []
  | entry :: rest =>
      let chunkEntries' := chunkEntries ++ [entry] in
      let currentAssetSize' := currentAssetSize + weight entry in
      let isLast := match rest with [] => true | _ :: _ => false end in
      let chunkFull := MAX_CHUNK_SIZE <=? currentAssetSize' in
      if chunkFull || isLast then
        mkSealed chunkId chunkStartIndex chunkEntries'
          :: plan_loop rest (chunkId + 1) (eid entry + 1) 0 []
      else plan_loop rest chunkId chunkStartIndex currentAssetSize' chunkEntries'
  end.

Definition plan (entries : list E) : list Sealed := plan_loop entries 0 0 0 [].

(** [endIndex]: id of the last entry of the sealed chunk
    ([entry.id] in chunker.ts, [chunkEntries[chunkEntries.length - 1].id]
    in the on-disk version; both are the entry just pushed). *)
Definition sealed_end (s : Sealed) : N :=
  match last (sealed_entries s) with Some e => eid e | None => 0 end.

(** Sum of the counted bytes of a list of entries. *)
Definition tally (es : list E) : N := foldr (fun e acc => weight e + acc) 0 es.
End Planner.

(** ** tools/lib/chunker.ts: in-memory entries *)
Module Mem.
Section Mem.
(** [Uint8Array] payloads; only [byteLength] is observed by the planner. *)
Context {Bytes : Type} (byteLength : Bytes -> N)
  (encodeMeta : list (string * (string * AssetType)) -> Bytes).

Record ChunkEntry := mkEntry {
  id : N;
  type : AssetType;
  date : string;
  thumbnail : Bytes;
  asset : option Bytes;
  video : option Bytes
}.

(** const MAX_CHUNK_SIZE = 2 * 1024 * 1024 * 1024 *)
Definition MAX_CHUNK_SIZE : N := 2 * 1024 * 1024 * 1024.

(** [if (entry.asset) currentAssetSize += entry.asset.byteLength]; the
    video bytes are not added. *)
Definition weight (e : ChunkEntry) : N :=
  match asset e with Some a => byteLength a | None => 0 end.

(** One [writeEncryptedArchive(files, join(outputDir, file), ...)]: the
    archive of [files] is written (tar, gzip, encrypt) to [file]. *)
Record Write := mkWrite { w_file : string; w_files : list (string * Bytes) }.

Definition Records : Type :=
  (list (string * Bytes) * list (string * Bytes) * list (string * Bytes)
   * list (string * (string * AssetType)))%type.

(** Body of the [for] loop before the seal test: the four records
    [thumbFiles], [assetFiles], [videoFiles], [metaEntries]. *)
Definition add_entry (r : Records) (entry : ChunkEntry) : Records :=
  let '(thumbFiles, assetFiles, videoFiles, metaEntries) := r in
  let thumbFiles := rec_set ("thumb" +:+ pretty (id entry) +:+ ".avif")
                      (thumbnail entry) thumbFiles in
  let assetFiles := match asset entry with
                    | Some a => rec_set ("asset" +:+ pretty (id entry) +:+ ".avif") a assetFiles
                    | None => assetFiles end in
  let videoFiles := match video entry with
                    | Some v => rec_set ("video" +:+ pretty (id entry) +:+ ".mp4") v videoFiles
                    | None => videoFiles end in
  let metaEntries := rec_set (pretty (id entry)) (date entry, type entry) metaEntries in
  (thumbFiles, assetFiles, videoFiles, metaEntries).

(** The [if (chunkFull || isLast)] block: the records accumulated since the
    previous seal are exactly those of the sealed entries, in order. *)
Definition seal (s : Sealed) : ChunkInfo * list Write :=
  let '(thumbFiles, assetFiles, videoFiles, metaEntries) :=
    fold_left add_entry (sealed_entries s) ([], [], [], []) in
  let thumbFiles := rec_set "meta.json" (encodeMeta metaEntries) thumbFiles in
  let cid := sealed_chunkId s in
  let thumbnailsFile := "chunks/thumbs-" +:+ pretty cid +:+ ".enc" in
  let originalsFile := "chunks/originals-" +:+ pretty cid +:+ ".enc" in
  let videosFile := if 0 <? N.of_nat (length videoFiles)
                    then Some ("chunks/videos-" +:+ pretty cid +:+ ".enc")
                    else None in
  let writes :=
    [mkWrite thumbnailsFile thumbFiles; mkWrite originalsFile assetFiles]
    ++ match videosFile with Some f => [mkWrite f videoFiles] | None => [] end in
  (mkChunkInfo cid thumbnailsFile originalsFile videosFile (sealed_start s)
     (sealed_end id s), writes).

(** [createChunks(entries, outputDir, key)]: the returned [chunks] and the
    archive writes, in order. *)
Definition createChunks_with (max : N) (entries : list ChunkEntry)
  : list ChunkInfo * list Write :=
  let r := map seal (plan id weight max entries) in
  (map fst r, concat (map snd r)).

Definition createChunks := createChunks_with MAX_CHUNK_SIZE.
End Mem.
End Mem.

(** ** The on-disk chunker (tools/lib/chunker.ts as appended to
    tools/crypto-file.ts, the version whose [ChunkEntry] tools/main.ts builds) *)
Module Disk.
Section Disk.
(** The file system: [Bun.file(p).size] and [Bun.file(p).bytes()]. *)
Context {Bytes : Type} (fileSize : string -> N) (fileBytes : string -> Bytes)
  (encodeMeta : list (string * (string * AssetType)) -> Bytes).

Record ChunkEntry := mkEntry {
  id : N;
  type : AssetType;
  date : string;
  thumbnailPath : string;
  assetPath : option string;
  videoPath : option string
}.

(** const MAX_CHUNK_SIZE = 500 * 1024 * 1024 *)
Definition MAX_CHUNK_SIZE : N := 500 * 1024 * 1024.

(** JS truthiness of a [string | null]: [null] and [''] are falsy. *)
Definition truthy (p : option string) : option string :=
  match p with Some s => if String.eqb s "" then None else Some s | None => None end.

(** [if (entry.assetPath) currentAssetSize += Bun.file(entry.assetPath).size;
     if (entry.videoPath) currentAssetSize += Bun.file(entry.videoPath).size;] *)
Definition weight (e : ChunkEntry) : N :=
  match truthy (assetPath e) with Some p => fileSize p | None => 0 end
  + match truthy (videoPath e) with Some p => fileSize p | None => 0 end.

Record Write := mkWrite { w_file : string; w_files : list (string * Bytes) }.

Definition Records : Type :=
  (list (string * Bytes) * list (string * Bytes) * list (string * Bytes)
   * list (string * (string * AssetType)))%type.

(** Body of [for (const e of chunkEntries)] at seal time. *)
Definition add_entry (r : Records) (e : ChunkEntry) : Records :=
  let '(thumbFiles, assetFiles, videoFiles, metaEntries) := r in
  let thumbFiles := rec_set ("thumb" +:+ pretty (id e) +:+ ".avif")
                      (fileBytes (thumbnailPath e)) thumbFiles in
  let assetFiles := match truthy (assetPath e) with
                    | Some p => rec_set ("asset" +:+ pretty (id e) +:+ ".avif") (fileBytes p) assetFiles
                    | None => assetFiles end in
  let videoFiles := match truthy (videoPath e) with
                    | Some p => rec_set ("video" +:+ pretty (id e) +:+ ".mp4") (fileBytes p) videoFiles
                    | None => videoFiles end in
  let metaEntries := rec_set (pretty (id e)) (date e, type e) metaEntries in
  (thumbFiles, assetFiles, videoFiles, metaEntries).

Definition seal (s : Sealed) : ChunkInfo * list Write :=
  let '(thumbFiles, assetFiles, videoFiles, metaEntries) :=
    fold_left add_entry (sealed_entries s) ([], [], [], []) in
  let thumbFiles := rec_set "meta.json" (encodeMeta metaEntries) thumbFiles in
  let cid := sealed_chunkId s in
  let thumbnailsFile := "thumbs-" +:+ pretty cid +:+ ".enc" in
  let originalsFile := "originals-" +:+ pretty cid +:+ ".enc" in
  let videosFile := if 0 <? N.of_nat (length videoFiles)
                    then Some ("videos-" +:+ pretty cid +:+ ".enc")
                    else None in
  let writes :=
    [mkWrite thumbnailsFile thumbFiles; mkWrite originalsFile assetFiles]
    ++ match videosFile with Some f => [mkWrite f videoFiles] | None => [] end in
  (mkChunkInfo cid thumbnailsFile originalsFile videosFile (sealed_start s)
     (sealed_end id s), writes).

Definition createChunks_with (max : N) (entries : list ChunkEntry)
  : list ChunkInfo * list Write :=
  let r := map seal (plan id weight max entries) in
  (map fst r, concat (map snd r)).

Definition createChunks := createChunks_with MAX_CHUNK_SIZE.
End Disk.
End Disk.

(** Chunk id ranges of a [createChunks] result. *)
Definition ranges (cs : list ChunkInfo) : list (N * N) :=
  map (fun c => (startIndex c, endIndex c)) cs.

Definition MB : N := 1024 * 1024.

(** Ids of a list of entries are [k, k+1, ...]. *)
Fixpoint consecutive {E} (eid : E -> N) (k : N) (es : list E) : Prop :=
  match es with
  | [] => True
  | e :: rest => eid e = k /\ consecutive eid (k + 1) rest
  end.

(** Ids of a list of entries are strictly increasing and at least [k]. *)
Fixpoint incr_from {E} (eid : E -> N) (k : N) (es : list E) : Prop :=
  match es with
  | [] => True
  | e :: rest => k <= eid e /\ incr_from eid (eid e + 1) rest
  end.

(** Name under which [createChunks] stores an entry's thumbnail. *)
Definition thumb_key (e : Disk.ChunkEntry) : string :=
  "thumb" +:+ pretty (Disk.id e) +:+ ".avif".

(** Id of the last entry ([0] for no entry). *)
Definition last_id {E} (eid : E -> N) (es : list E) : N :=
  match last es with Some e => eid e | None => 0 end.

(** [rs] is a list of inclusive ranges that partitions [lo..hi]: the first
    range starts at [lo], each range is non-empty, each next range starts
    right after the previous one ends, and the last one ends at [hi]. *)
Fixpoint covers (lo hi : N) (rs : list (N * N)) : Prop :=
  match rs with
  | [] => False
  | (s, e) :: rest =>
      s = lo /\ s <= e /\
      match rest with [] => e = hi | _ :: _ => covers (e + 1) hi rest end
  end.

(** ** src/lib/worker/album-worker.ts: [parseTar]

    Bytes are [N] values in [0, 255]; [String.fromCharCode(b)] is the
    8-bit character [ascii_of_N b]. *)
Module Tar.


















End Tar.

(** ** src/lib/worker/album-worker.ts: [extractId] and [mimeType] *)
Module Worker.

Definition is_digit (c : Ascii.ascii) : bool :=
  (48 <=? Ascii.nat_of_ascii c)%nat && (Ascii.nat_of_ascii c <=? 57)%nat.

(** [\w]: [A-Za-z0-9_]. *)
Definition is_word (c : Ascii.ascii) : bool :=
  let n := Ascii.nat_of_ascii c in
  is_digit c || (65 <=? n)%nat && (n <=? 90)%nat || (97 <=? n)%nat && (n <=? 122)%nat
  || (n =? 95)%nat.

(** Backtracking matcher of the regular expression engine.  A greedy
    [cls*] having already taken [taken]: try one more character first,
    fall back to the continuation [k] on what is taken so far. *)
Fixpoint star_greedy {A} (cls : Ascii.ascii -> bool) (taken s : string)
    (k : string -> string -> option A) : option A :=
  match s with
  | String c r =>
      if cls c then
        match star_greedy cls (taken +:+ String c EmptyString) r k with
        | Some x => Some x
        | None => k taken s
        end
      else k taken s
  | EmptyString => k taken s
  end.

(** Greedy [cls+]. *)
Definition plus_greedy {A} (cls : Ascii.ascii -> bool) (s : string)
    (k : string -> string -> option A) : option A :=
  match s with
  | String c r => if cls c then star_greedy cls (String c EmptyString) r k else None
  | EmptyString => None
  end.

(** [/(\d+)\.\w+$/] anchored at the current position; the result is the
    capture group 1. *)
Definition match_at (s : string) : option string :=
  plus_greedy is_digit s (fun d rest =>
    match rest with
    | String "."%char r =>
        plus_greedy is_word r (fun _ r' =>
          match r' with EmptyString => Some d | String _ _ => None end)
    | _ => None
    end).

(** [String.prototype.match] without the [g] flag: the leftmost position
    where the expression matches. *)
Fixpoint exec (s : string) : option string :=
  match match_at s with
  | Some d => Some d
  | None => match s with EmptyString => None | String _ r => exec r end
  end.

(** [parseInt(d, 10)] on a string of decimal digits.  The Number is the
    exact value below 2^53, the range of asset ids. *)
Fixpoint parse_dec (acc : N) (s : string) : N :=
  match s with
  | EmptyString => acc
  | String c r => parse_dec (acc * 10 + N.of_nat (Ascii.nat_of_ascii c - 48)) r
  end.

(** [extractId]: [match ? parseInt(match[1], 10) : -1]. *)
Definition extractId (filename : string) : Z :=
  match exec filename with
  | Some d => Z.of_N (parse_dec 0 d)
  | None => (-1)%Z
  end.

(** [String.prototype.endsWith]. *)
Definition endsWith (s suffix : string) : bool :=
  (String.length suffix <=? String.length s)%nat
  && String.eqb (String.substring (String.length s - String.length suffix)
                   (String.length suffix) s) suffix.

Definition mimeType (filename : string) : string :=
  if endsWith filename ".avif" then "image/avif"
  else if endsWith filename ".mp4" then "video/mp4"
  else "application/octet-stream".

(** Every character of a string satisfies [f]. *)
Fixpoint str_forallb (f : Ascii.ascii -> bool) (s : string) : bool :=
  match s with
  | EmptyString => true
  | String c r => f c && str_forallb f r
  end.

End Worker.

(** ** tools/main.ts: resume check (steps 2 and 4) *)
Module Resume.

(** [interface ProgressFile]. *)
Record ProgressFile := mkProgress { sources : list string; completed : list N }.

(** [JSON.stringify(a) === JSON.stringify(b)] on string arrays: the
    encoding is injective, so this is list equality. *)
Definition sources_match (a b : list string) : bool := bool_decide (a = b).

(** The outcome of the start-up code: the completed-id set, the progress
    record in memory, the files left in [cacheDir], and whether the cache
    directory was removed. *)
Record Start := mkStart {
  completedSet : list N;
  progress : ProgressFile;
  cache : list string;
  cacheWiped : bool
}.

(** [progress] is [await loadProgress(progressPath)] ([null] when the file is
    missing or not JSON), [currentSources] is [scanned.map(sourceKey)],
    [cacheFiles] the files present in [cacheDir]. *)
Definition start (progress : option ProgressFile) (currentSources : list string)
    (cacheFiles : list string) : Start :=
  match progress with
  | Some p =>
      if sources_match (sources p) currentSources
      then mkStart (completed p) p cacheFiles false
      else (* rm(cacheDir); mkdir(cacheDir) *)
        mkStart [] (mkProgress currentSources []) [] true
  | None => mkStart [] (mkProgress currentSources []) cacheFiles false
  end.

(** [toConvert]: the ids [0 .. scanned.length - 1] not in [completedSet]. *)
Definition toConvert (scannedCount : nat) (completedSet : list N) : list N :=
  filter (fun i => i ∉ completedSet) (map N.of_nat (seq 0 scannedCount)).

End Resume.

(** ** tools/main.ts: step 5, chunk entries from the conversion cache *)
Module Main.

(** [interface ScannedAsset] (tools/lib/scanner.ts); [date] is kept as its
    [toISOString()]. *)
Record ScannedAsset := mkScanned {
  s_type : AssetType;
  s_date : string;
  s_imagePath : option string;
  s_videoPath : option string
}.

(** tools/lib/converter.ts *)
Definition thumbCacheName (id : N) : string := pretty id +:+ ".thumb.avif".
Definition assetCacheName (id : N) : string := pretty id +:+ ".asset.avif".
Definition videoCacheName (id : N) : string := pretty id +:+ ".video.mp4".

Section Step5.
(** [join] of node:path and the cache directory. *)
Context (join : string -> string -> string) (cacheDir : string).

(** One iteration of [for (let i = 0; i < scanned.length; i++)]. *)
Definition entry_of (i : N) (asset : ScannedAsset) : Disk.ChunkEntry :=
  let hasAsset := match s_type asset with Photo | Live => true | Video => false end in
  let hasVideo := match s_type asset with Video | Live => true | Photo => false end in
  Disk.mkEntry i (s_type asset) (s_date asset) (join cacheDir (thumbCacheName i))
    (if hasAsset then Some (join cacheDir (assetCacheName i)) else None)
    (if hasVideo then Some (join cacheDir (videoCacheName i)) else None).

(** The loop from index [i]: [if (!completedSet.has(i)) continue;]. *)
Fixpoint build_entries_from (i : N) (scanned : list ScannedAsset) (completedSet : list N)
  : list Disk.ChunkEntry :=
  match scanned with
  | [] => []
  | asset :: rest =>
      if bool_decide (i ∈ completedSet)
      then entry_of i asset :: build_entries_from (i + 1) rest completedSet
      else build_entries_from (i + 1) rest completedSet
  end.

Definition build_entries (scanned : list ScannedAsset) (completedSet : list N)
  : list Disk.ChunkEntry := build_entries_from 0 scanned completedSet.

(** [dates.push(asset.date)] in the same loop; a date is kept as its
    [toISOString()]. *)
Fixpoint build_dates_from (i : N) (scanned : list ScannedAsset) (completedSet : list N)
  : list string :=
  match scanned with
  | [] => []
  | asset :: rest =>
      if bool_decide (i ∈ completedSet)
      then s_date asset :: build_dates_from (i + 1) rest completedSet
      else build_dates_from (i + 1) rest completedSet
  end.

Definition build_dates (scanned : list ScannedAsset) (completedSet : list N) : list string :=
  build_dates_from 0 scanned completedSet.
End Step5.

End Main.

(** ** tools/main.ts: [mapParallel]

    [concurrency] workers share [next]; the test [next < items.length] and
    [const i = next++] run without an await between them, so a claim is
    one step, and so is [results[i] = await fn(items[i], i)] settling
    ([Out] is [R | Error]: a rejection is caught and stored).  Workers
    interleave in any order. *)
Module Par.
Local Open Scope nat_scope.

Inductive WState := WLoop | WAwait (i : nat) | WDone.

Record PState {Out : Type} := mkP {
  next : nat;
  results : list (option Out);    (* [new Array(items.length)]: holes are [None] *)
  workers : list WState;
  calls : list nat                (* [fn(items[i], i)] calls, in order *)
}.
Arguments PState : clear implicits.
Arguments mkP {Out}.

Section MapParallel.
Context {Out : Type} (len : nat).

(** [Array.from({ length: concurrency }, () => worker())] *)
Definition init (count : nat) : PState Out :=
  mkP 0 (replicate len None) (replicate count WLoop) [].

Inductive pstep : PState Out -> PState Out -> Prop :=
  | PClaim w st :
      workers st !! w = Some WLoop -> next st < len ->
      pstep st (mkP (S (next st)) (results st) (<[w := WAwait (next st)]> (workers st))
                  (calls st ++ [next st]))
  | PExit w st :
      workers st !! w = Some WLoop -> len <= next st ->
      pstep st (mkP (next st) (results st) (<[w := WDone]> (workers st)) (calls st))
  | PSettle w i (o : Out) st :
      workers st !! w = Some (WAwait i) ->
      pstep st (mkP (next st) (<[i := Some o]> (results st)) (<[w := WLoop]> (workers st))
                  (calls st)).

Inductive preach (count : nat) : PState Out -> Prop :=
  | PInit : preach count (init count)
  | PStep st st' : preach count st -> pstep st st' -> preach count st'.

(** [await Promise.all(...)] resolves: every worker has returned. *)
Definition all_done (st : PState Out) : Prop := Forall (fun w => w = WDone) (workers st).
End MapParallel.

End Par.

(** ** tools/main.ts: command line and [concurrency] *)
Module Cli.

(** [parseInt(v, 10)]: skip leading white space, an optional sign, then
    the longest run of decimal digits; no digit gives [NaN] ([None]).
    Strings are their UTF-8 bytes.  White space is what [TrimString]
    removes: the ASCII one ([Ascii.is_space]: TAB, LF, VT, FF, CR, space)
    and the code points U+00A0, U+1680, U+2000-U+200A, U+2028, U+2029,
    U+202F, U+205F, U+3000 and U+FEFF.  The Number is the exact integer
    (no rounding above 2^53); [-0] is [0]. *)
Definition byte (c : ascii) : N := N_of_ascii c.

(** The three-byte UTF-8 encodings of the white space above. *)
Definition space3 (b0 b1 b2 : N) : bool :=
  (b0 =? 225) && (b1 =? 154) && (b2 =? 128)                          (* U+1680 *)
  || (b0 =? 226) && (b1 =? 128) &&
       ((128 <=? b2) && (b2 <=? 138) || (b2 =? 168) || (b2 =? 169) || (b2 =? 175))
                                          (* U+2000-U+200A, U+2028, U+2029, U+202F *)
  || (b0 =? 226) && (b1 =? 129) && (b2 =? 159)                       (* U+205F *)
  || (b0 =? 227) && (b1 =? 128) && (b2 =? 128)                       (* U+3000 *)
  || (b0 =? 239) && (b1 =? 187) && (b2 =? 191).                      (* U+FEFF *)

Fixpoint trim_start (s : string) : string :=
  match s with
  | String c r =>
      if Ascii.is_space c then trim_start r
      else if byte c <? 194 then s           (* no multi-byte white space starts here *)
      else match r with
           | String c1 r1 =>
               if (byte c =? 194) && (byte c1 =? 160) then trim_start r1     (* U+00A0 *)
               else match r1 with
                    | String c2 r2 =>
                        if space3 (byte c) (byte c1) (byte c2) then trim_start r2 else s
                    | EmptyString => s
                    end
           | EmptyString => s
           end
  | EmptyString => EmptyString
  end.

Fixpoint digit_prefix (s : string) : string :=
  match s with
  | String c r => if Worker.is_digit c then String c (digit_prefix r) else EmptyString
  | EmptyString => EmptyString
  end.

Definition parseInt10 (v : string) : option Z :=
  let '(sign, body) :=
    match trim_start v with
    | String "-"%char r => ((-1)%Z, r)
    | String "+"%char r => (1%Z, r)
    | s => (1%Z, s)
    end in
  match digit_prefix body with
  | EmptyString => None
  | ds => Some (sign * Z.of_N (Worker.parse_dec 0 ds))%Z
  end.

Record Cli := mkCli {
  sourceDir : option string;
  outputPath : string;
  password : option string;
  albumName : option string;
  jobs : option (option Z)     (* [undefined] | Number, [None] inside is [NaN] *)
}.

Definition cli0 : Cli := mkCli None "./output" None None None.

(** [!sourceDir]: undefined and [""] are falsy. *)
Definition truthy (o : option string) : bool :=
  match o with Some s => bool_decide (s <> "") | None => false end.

(** The [else if (!sourceDir) ... else outputPath = args[i]] branches. *)
Definition positional (a : string) (c : Cli) : Cli :=
  if truthy (sourceDir c) then mkCli (sourceDir c) a (password c) (albumName c) (jobs c)
  else mkCli (Some a) (outputPath c) (password c) (albumName c) (jobs c).

(** The [for] loop over [args]; a flag takes [args[++i]] only when
    [args[i + 1]] is truthy (present and non-empty). *)
Fixpoint parse_args (args : list string) (c : Cli) : Cli :=
  match args with
  | [] => c
  | a :: rest =>
      match rest with
      | v :: rest' =>
          if bool_decide (v <> "") then
            if bool_decide (a = "--password") then
              parse_args rest' (mkCli (sourceDir c) (outputPath c) (Some v) (albumName c) (jobs c))
            else if bool_decide (a = "--album") then
              parse_args rest' (mkCli (sourceDir c) (outputPath c) (password c) (Some v) (jobs c))
            else if bool_decide (a = "--jobs" \/ a = "-j") then
              parse_args rest' (mkCli (sourceDir c) (outputPath c) (password c) (albumName c)
                                  (Some (parseInt10 v)))
            else parse_args rest (positional a c)
          else parse_args rest (positional a c)
      | [] => parse_args rest (positional a c)
      end
  end.

(** [if (!sourceDir || !password || !albumName)]: usage and exit 1. *)
Definition usage_error (c : Cli) : bool :=
  negb (truthy (sourceDir c)) || negb (truthy (password c)) || negb (truthy (albumName c)).

(** [const concurrency = jobs ?? availableParallelism()] *)
Definition concurrency (c : Cli) (avail : nat) : option Z :=
  match jobs c with Some j => j | None => Some (Z.of_nat avail) end.

(** [Array.from({ length: concurrency }, ...)]: ToLength sends [NaN] and
    numbers [<= 0] to [0]; a length above 2^32 - 1 throws [RangeError]
    ([None]). *)
Definition worker_count (n : option Z) : option nat :=
  match n with
  | None => Some 0%nat
  | Some z => if (z <=? 4294967295)%Z then Some (Z.to_nat z) else None
  end.

End Cli.

(** ** tools/main.ts: [flushProgress] and the conversion callback

    [progress.completed.push(id); flushProgress()] (lines 223-225) with
    the mutex of lines 185-205.  [saveProgress] runs [JSON.stringify]
    before its first await, so a write carries the list as it was when
    the write began ([inflight]); [progressWriting] is true exactly while
    a write is in flight.  [file] is what the progress file holds, [None]
    after a failed [writeFile] (the file may be truncated). *)
Module Flush.

Record FState := mkF {
  completed : list N;
  file : option (list N);
  inflight : option (list N);
  dirty : bool
}.

(** The synchronous part of [flushProgress()]. *)
Definition flush (st : FState) : FState :=
  match inflight st with
  | Some _ => mkF (completed st) (file st) (inflight st) true
  | None => mkF (completed st) (file st) (Some (completed st)) (dirty st)
  end.

(** A conversion finished: [progress!.completed.push(id); flushProgress();] *)
Definition complete (id : N) (st : FState) : FState :=
  flush (mkF (completed st ++ [id]) (file st) (inflight st) (dirty st)).

(** The awaited write finished: [while (progressDirty)] either starts the
    next write with the current list, or leaves the loop ([finally]). *)
Definition write_done (st : FState) : option FState :=
  match inflight st with
  | Some s =>
      if dirty st then Some (mkF (completed st) (Some s) (Some (completed st)) false)
      else Some (mkF (completed st) (Some s) None false)
  | None => None
  end.

(** The awaited write rejected: [finally] clears [progressWriting], the
    rejection escapes the fire-and-forget call; [progressDirty] is kept. *)
Definition write_failed (st : FState) : option FState :=
  match inflight st with
  | Some _ => Some (mkF (completed st) None None (dirty st))
  | None => None
  end.

Inductive fstep (may_fail : bool) : FState -> FState -> Prop :=
  | FComplete id st : fstep may_fail st (complete id st)
  | FDone st st' : write_done st = Some st' -> fstep may_fail st st'
  | FFail st st' : may_fail = true -> write_failed st = Some st' -> fstep may_fail st st'.

(** Start of step 4: the progress file holds [progress] (written at step 2
    or read back from it). *)
Definition fstart (c0 : list N) : FState := mkF c0 (Some c0) None false.

Inductive freach (may_fail : bool) (c0 : list N) : FState -> Prop :=
  | FInit : freach may_fail c0 (fstart c0)
  | FStep st st' : freach may_fail c0 st -> fstep may_fail st st' -> freach may_fail c0 st'.

(** No more conversions: let up to [n] pending writes finish. *)
Fixpoint drain (n : nat) (st : FState) : FState :=
  match n with
  | O => st
  | S n' => match write_done st with Some st' => drain n' st' | None => st end
  end.

End Flush.

(** ** src/lib/crypto.ts: the hex encoding of [sha256Hex]

    [Array.from(new Uint8Array(hash)).map((b) => b.toString(16)
    .padStart(2, '0')).join('')]; the digest itself is not modelled. *)
Module Hex.

(** A digit of [Number.prototype.toString(16)]: lower case. *)
Definition hex_digit (d : N) : Ascii.ascii :=
  match d with
  | 0 => "0" | 1 => "1" | 2 => "2" | 3 => "3" | 4 => "4" | 5 => "5" | 6 => "6"
  | 7 => "7" | 8 => "8" | 9 => "9" | 10 => "a" | 11 => "b" | 12 => "c"
  | 13 => "d" | 14 => "e" | _ => "f"
  end%char%N.

Fixpoint to_hex_go (fuel : nat) (n : N) (acc : string) : string :=
  match fuel with
  | O => acc
  | S f => if (n =? 0)%N then acc else to_hex_go f (n / 16) (String (hex_digit (n mod 16)) acc)
  end.

(** [n.toString(16)] for a non-negative integer. *)
Definition toString16 (n : N) : string :=
  if (n =? 0)%N then "0" else to_hex_go (N.size_nat n) n "".

(** [s.padStart(len, fill)] with a one-character [fill]. *)
Definition padStart (s : string) (len : nat) (fill : Ascii.ascii) : string :=
  if (len <=? String.length s)%nat then s
  else String.append (String.string_of_list_ascii (List.repeat fill (len - String.length s))) s.

Definition byte_hex (b : N) : string := padStart (toString16 b) 2 "0"%char.

(** [.map(...).join('')] *)
Fixpoint hex_join (bytes : list N) : string :=
  match bytes with
  | [] => ""
  | b :: bs => byte_hex b +:+ hex_join bs
  end.

Definition is_lower_hex (c : Ascii.ascii) : bool :=
  Worker.is_digit c ||
  (97 <=? Ascii.nat_of_ascii c)%nat && (Ascii.nat_of_ascii c <=? 102)%nat.

End Hex.

(** ** src/lib/worker/album-worker.ts: the store loop of [handleFetchChunk]

    The members [parseTar] returns, as a [Map] from name to bytes: when
    [files.get('meta.json')] is set it is deleted, then every member whose
    [extractId] is [>= 0] is put in the object store under that id with
    the type [mimeType(filename)], and its id is pushed on [ids]. *)
Module Fetch.

Definition drop_meta {B} (files : list (string * B)) : list (string * B) :=
  if existsb (fun kv => String.eqb (fst kv) "meta.json") files
  then filter (fun kv => fst kv <> "meta.json") files
  else files.

(** [store.put(blob, id)] calls, in order: (id, blob type). *)
Definition store_puts {B} (files : list (string * B)) : list (Z * string) :=
  flat_map (fun kv =>
    let id := Worker.extractId (fst kv) in
    if (0 <=? id)%Z then [(id, Worker.mimeType (fst kv))] else []) files.

(** The [ids] of the [chunk-ready] reply. *)
Definition reported_ids {B} (files : list (string * B)) : list Z :=
  map fst (store_puts (drop_meta files)).

End Fetch.

(** ** The month key of [generateManifest] and the [key] and [label] of
    src/lib/crypto.ts [buildGroups] *)
Module Groups.

(** [String.prototype.split] on a one-character separator. *)
Fixpoint split_on (sep : Ascii.ascii) (s : string) : list string :=
  match s with
  | EmptyString => [EmptyString]
  | String c r =>
      if Ascii.eqb c sep then EmptyString :: split_on sep r
      else match split_on sep r with
           | w :: ws => String c w :: ws
           | [] => [String c EmptyString]
           end
  end.

(** [`${n}`] / [String(n)] of an integral Number; [None] is [NaN]. *)
Definition num_str (n : option Z) : string :=
  match n with Some z => pretty z | None => "NaN" end.

(** [parseInt(x, 10)] of a destructured array element; a missing one is
    [undefined], which [parseInt] reads as ["undefined"]. *)
Definition parseInt_opt (x : option string) : option Z :=
  Cli.parseInt10 (match x with Some s => s | None => "undefined" end).

(** converter.ts, [generateManifest]:
    [const month = String(date.getMonth() + 1).padStart(2, '0');
     const monthKey = `${year}-${month}-01`;] with [year = date.getFullYear()]. *)
Definition monthKey_of (year month0 : Z) : string :=
  pretty year +:+ "-" +:+ Hex.padStart (pretty (month0 + 1)%Z) 2 "0"%char +:+ "-01".

Definition MONTH_NAMES : list string :=
  ["Січень"; "Лютий"; "Березень"; "Квітень"; "Травень"; "Червень";
   "Липень"; "Серпень"; "Вересень"; "Жовтень"; "Листопад"; "Грудень"].

(** [MONTH_NAMES[monthIdx]] in a template: out of range or [NaN] gives
    ["undefined"]. *)
Definition month_name (monthIdx : option Z) : string :=
  match monthIdx with
  | Some i => if (0 <=? i)%Z && (i <? 12)%Z then nth (Z.to_nat i) MONTH_NAMES "undefined"
              else "undefined"
  | None => "undefined"
  end.

(** crypto.ts, [buildGroups]:
    [const [yearStr, monthStr] = month.date.split('-');
     const yearNum = parseInt(yearStr, 10);
     const monthIdx = parseInt(monthStr, 10) - 1;
     const key = `${yearNum}-${String(monthIdx).padStart(2, '0')}`;
     const label = `${MONTH_NAMES[monthIdx]} ${yearNum}`;] *)
Definition group_key_label (date : string) : string * string :=
  let parts := split_on "-"%char date in
  let yearNum := parseInt_opt (nth_error parts 0) in
  let monthIdx := option_map (fun z => (z - 1)%Z) (parseInt_opt (nth_error parts 1)) in
  (num_str yearNum +:+ "-" +:+ Hex.padStart (num_str monthIdx) 2 "0"%char,
   month_name monthIdx +:+ " " +:+ num_str yearNum).

End Groups.

(** ** tools/lib/converter.ts (manifest part): [generateManifest]; and the
    [dates] that step 5 of tools/main.ts collects for it *)
Module Manifest.

Record MonthGroup := mkMonth {
  mg_date : string;
  startId : N;
  count : N
}.

Record Manifest := mkManifest {
  totalAssets : N;
  chunks : list ChunkInfo;
  months : list MonthGroup
}.

Section Gen.
(** [`${date.getFullYear()}-${month}-01`] of the date (local time); the
    date is given by its [toISOString()]. *)
Context (monthKey : string -> string).

(** [if (currentGroup) months.push(currentGroup)] *)
Definition push_current (months : list MonthGroup) (currentGroup : option MonthGroup)
  : list MonthGroup :=
  match currentGroup with Some g => months ++ [g] | None => months end.

(** The [for (let id = 0; id < dates.length; id++)] loop and the final
    push; [None] is the throw of [currentGroup!.count++] on [null]. *)
Fixpoint months_loop (id : N) (dates : list string) (currentMonthKey : string)
    (currentGroup : option MonthGroup) (months : list MonthGroup)
  : option (list MonthGroup) :=
  match dates with
  | [] => Some (push_current months currentGroup)
  | date :: rest =>
      let key := monthKey date in
      if negb (String.eqb key currentMonthKey) then
        months_loop (id + 1) rest key (Some (mkMonth key id 1))
          (push_current months currentGroup)
      else
        match currentGroup with
        | Some g => months_loop (id + 1) rest currentMonthKey
                      (Some (mkMonth (mg_date g) (startId g) (count g + 1))) months
        | None => None
        end
  end.

Definition generateManifest (dates : list string) (cs : list ChunkInfo) : option Manifest :=
  match months_loop 0 dates "" None [] with
  | Some ms => Some (mkManifest (N.of_nat (length dates)) cs ms)
  | None => None
  end.
End Gen.

(** An [Asset] of src/lib/crypto.ts [buildGroups]. *)
Record GAsset := mkGAsset { ga_id : N; ga_date : string; ga_type : AssetType }.

(** [buildGroups]: months newest first, each with the assets
    [month.startId + i] for [i < month.count].  The [key] and [label]
    strings of a group are modelled by [Groups.group_key_label]. *)
Definition buildGroups (m : Manifest) : list (list GAsset) :=
  map (fun month =>
         map (fun i => mkGAsset (startId month + N.of_nat i) (mg_date month) Photo)
           (seq 0 (N.to_nat (count month))))
    (rev (months m)).

(** The month key of every asset, in id order, read off the groups. *)
Definition keys_of (ms : list MonthGroup) : list string :=
  concat (map (fun g => repeat (mg_date g) (N.to_nat (count g))) ms).

(** Groups are non-empty and start where the previous one ended. *)
Fixpoint starts_from (k : N) (ms : list MonthGroup) : Prop :=
  match ms with
  | [] => True
  | g :: rest => startId g = k /\ 0 < count g /\ starts_from (k + count g) rest
  end.

(** Adjacent groups have different months. *)
Fixpoint adj_distinct (ms : list MonthGroup) : Prop :=
  match ms with
  | g1 :: ((g2 :: _) as rest) => mg_date g1 <> mg_date g2 /\ adj_distinct rest
  | _ => True
  end.

(** Asset ids listed by the groups, in display order. *)
Definition listed_ids (groups : list (list GAsset)) : list N :=
  concat (map (map ga_id) groups).

End Manifest.

(** ** src/lib/crypto.ts: [saveRecentAlbum] and [getRecentAlbums]

    The [localStorage] item ['recent-albums'] is absent ([None]), text that
    [JSON.parse] rejects, or text that parses to a JSON value.  Only the
    shape the two helpers look at is kept: an array of elements, each a
    string or some other JSON value, or a value that is not an array
    (object, number, string, boolean, [null]). *)
Module Recent.

Inductive Elem := EStr (s : string) | ENonStr.

#[global] Instance Elem_eq_dec : EqDecision Elem.
Proof. solve_decision. Defined.

Inductive JVal := JArray (l : list Elem) | JNonArray.

Inductive Item := Malformed | Json (v : JVal).

(** [JSON.parse(localStorage.getItem(key) ?? '[]')]; [None] is a throw. *)
Definition parse_item (item : option Item) : option JVal :=
  match item with
  | None => Some (JArray [])
  | Some Malformed => None
  | Some (Json v) => Some v
  end.

(** [saveRecentAlbum(albumName)]: the new item, or [None] when
    [list.filter] throws (a parsed value that is not an array has no
    [filter]); the parse error alone is caught and leaves [list = []]. *)
Definition saveRecentAlbum (albumName : string) (item : option Item)
  : option (option Item) :=
  let list := match parse_item item with Some v => v | None => JArray [] end in
  match list with
  | JArray l =>
      Some (Some (Json (JArray (take 10 (EStr albumName :: filter (fun n => n <> EStr albumName) l)))))
  | JNonArray => None
  end.

(** [getRecentAlbums()]: the parsed value, [[]] on a parse error. *)
Definition getRecentAlbums (item : option Item) : JVal :=
  match parse_item item with Some v => v | None => JArray [] end.

End Recent.

(** ** src/lib/crypto.ts: [AlbumStore] *)
Module Album.

Inductive ChunkKind := Thumbnails | Originals | Videos.

#[global] Instance ChunkKind_eq_dec : EqDecision ChunkKind.
Proof. solve_decision. Defined.

Definition kind_name (k : ChunkKind) : string :=
  match k with
  | Thumbnails => "thumbnails"
  | Originals => "originals"
  | Videos => "videos"
  end.

(** [`${kind}-${chunkId}`] *)
Definition chunk_key (k : ChunkKind) (cid : N) : string :=
  kind_name k +:+ "-" +:+ pretty cid.

(** A [fetch-<kind>] message posted to the worker. *)
Record FetchMsg := mkMsg { fm_kind : ChunkKind; fm_chunkId : N; fm_url : string }.

Definition msg_key (m : FetchMsg) : string := chunk_key (fm_kind m) (fm_chunkId m).

(** ** [validateCache] and [clearCache] *)

(** What the page asks of the browser, in program order: a
    [localStorage.setItem], a [closeDb] of the album's cached connection,
    an [indexedDB.deleteDatabase] request (served by IndexedDB later, in
    request order) and a [fetch-<kind>] message posted to the worker. *)
Inductive Effect :=
  | SetItem (key value : string)
  | CloseDb (albumName : string)
  | DeleteDatabase (name : string)
  | PostFetch (m : FetchMsg).

(** [localStorage] and the effects issued so far. *)
Record Browser := mkBrowser {
  localStorage : gmap string string;
  effects : list Effect
}.

Definition db_name (albumName : string) : string := "album-" +:+ albumName.

Definition setItem (key value : string) (b : Browser) : Browser :=
  mkBrowser (<[key := value]> (localStorage b)) (effects b ++ [SetItem key value]).

(** [static clearCache(albumName)]: [closeDb] then
    [indexedDB.deleteDatabase(`album-${albumName}`)]. *)
Definition clearCache (albumName : string) (b : Browser) : Browser :=
  mkBrowser (localStorage b)
    (effects b ++ [CloseDb albumName; DeleteDatabase (db_name albumName)]).

Definition validateCache (albumName newHash : string) (b : Browser) : Browser :=
  let hashKey := "manifest-hash:" +:+ albumName in
  let storedHash := localStorage b !! hashKey in
  let b := setItem hashKey newHash b in
  match storedHash with
  | Some h => if String.eqb h newHash then b else clearCache albumName b
  | None => b
  end.

(** ** Album open: worker replies, [init] and [handleLogin] *)

(** How the album-open handshake ends. *)
Inductive OpenEvent :=
  | DeriveKeyThrows (message : string)   (* handleInit catch *)
  | FetchThrows (message : string)       (* fetch(url) rejects *)
  | HttpNotOk (status : N)               (* !res.ok *)
  | DecryptThrows (message : string)     (* AES-GCM tag mismatch *)
  | ParseThrows (message : string)       (* JSON.parse *)
  | ManifestOk                           (* manifest-decrypted *)
  | TimeoutFires                         (* INIT_TIMEOUT_MS elapsed *)
  | WorkerOnError (message : string).    (* worker.onerror, ev.message *)

(** What [init] leaves: [resolve(result)] and [this.error]. *)
Definition init_result (ev : OpenEvent) : bool * option string :=
  match ev with
  | DeriveKeyThrows m | FetchThrows m | DecryptThrows m | ParseThrows m =>
      (false, Some m)                    (* manifest-error: msg.error *)
  | HttpNotOk status => (false, Some ("HTTP " +:+ pretty status))
  | ManifestOk => (true, None)
  | TimeoutFires => (false, Some "Connection timeout")
  | WorkerOnError m => (false, Some (if String.eqb m "" then "Worker error" else m))
  end.

(** [handleLogin]: [loginError] after [store.init] resolves. *)
Definition login_error (ev : OpenEvent) : option string :=
  let '(success, error) := init_result ev in
  if success then None
  else Some (match error with Some e => e | None => "Wrong password or album not found" end).

(** ** Chunk state machine *)
Section Store.
Context {Blob : Type}.

Record St := mkSt {
  manifest : option (list ChunkInfo);
  worker : bool;
  baseUrl : string;
  pendingChunks : gmap string (list N);   (* waiters by caller number *)
  loadedChunks : gset string;
  outbox : list FetchMsg;                 (* posted, not yet answered *)
  idb : ChunkKind -> N -> option Blob
}.

Definition set_pending (st : St) (p : gmap string (list N)) : St :=
  mkSt (manifest st) (worker st) (baseUrl st) p (loadedChunks st) (outbox st) (idb st).

Definition file_of (kind : ChunkKind) (chunk : ChunkInfo) : option string :=
  match kind with
  | Thumbnails => Some (thumbnailsFile chunk)
  | Originals => Some (originalsFile chunk)
  | Videos => videosFile chunk
  end.

Definition requestChunk (kind : ChunkKind) (cid : N) (st : St) : St :=
  match manifest st with
  | None => st
  | Some chunks =>
    if negb (worker st) then st else
    match chunks !! N.to_nat cid with
    | None => st
    | Some chunk =>
      let key := chunk_key kind cid in
      if bool_decide (key ∈ loadedChunks st) || bool_decide (is_Some (pendingChunks st !! key))
      then st
      else match Disk.truthy (file_of kind chunk) with
           | None => st                  (* if (!file) return; *)
           | Some file =>
             mkSt (manifest st) (worker st) (baseUrl st)
               (<[key := []]> (pendingChunks st)) (loadedChunks st)
               (outbox st ++ [mkMsg kind cid (baseUrl st +:+ file)]) (idb st)
           end
    end
  end.

Definition findChunkForId (id : N) (st : St) : option ChunkInfo :=
  match manifest st with
  | None => None
  | Some chunks => find (fun c => (startIndex c <=? id) && (id <=? endIndex c)) chunks
  end.

(** [waitForChunk]: [true] when the caller is left waiting (its resolver
    pushed on the pending list), [false] when the promise resolves at once. *)
Definition waitForChunk (key : string) (caller : N) (st : St) : bool * St :=
  if bool_decide (key ∈ loadedChunks st) then (false, st)
  else match pendingChunks st !! key with
       | Some ws => (true, set_pending st (<[key := ws ++ [caller]]> (pendingChunks st)))
       | None => (false, st)
       end.

Inductive GetStep :=
  | GReturn (r : option Blob)   (* the promise settles with r *)
  | GReread                     (* resolved: [await db.get(kind, id)] next *)
  | GWait.                      (* waiting for chunk-ready / chunk-error *)

(** [getAssetBlob(kind, id)] from the value [existing] read by
    [await db.get(kind, id)] through the synchronous part that follows. *)
Definition getAssetBlob (kind : ChunkKind) (id caller : N) (existing : option Blob)
    (st : St) : GetStep * St :=
  match existing with
  | Some b => (GReturn (Some b), st)
  | None =>
    match findChunkForId id st with
    | None => (GReturn None, st)
    | Some chunk =>
      let st1 := requestChunk kind (chunkId chunk) st in
      let '(w, st2) := waitForChunk (chunk_key kind (chunkId chunk)) caller st1 in
      (if w then GWait else GReread, st2)
    end
  end.

(** The end of [getAssetBlob] after [GReread]: [(blob as Blob) ?? null]. *)
Definition reread (kind : ChunkKind) (id : N) (st : St) : option Blob := idb st kind id.

Fixpoint remove_msg (m : FetchMsg) (l : list FetchMsg) : list FetchMsg :=
  match l with
  | [] => []
  | m' :: l' => if bool_decide (msg_key m' = msg_key m) then l' else m' :: remove_msg m l'
  end.

Definition put_all (kind : ChunkKind) (writes : list (N * Blob))
    (db : ChunkKind -> N -> option Blob) : ChunkKind -> N -> option Blob :=
  fold_left (fun db '(i, b) => fun k j =>
               if (bool_decide (k = kind) && (j =? i)) then Some b else db k j) writes db.

(** The worker answers message [m] ([handleFetchChunk]): [writes] are the
    blobs it committed to the kind's object store (all files of the chunk on
    success; on failure none, or all of them when only the [meta.json]
    transaction failed); then [handleChunkMessage]
    marks the chunk loaded (success only), resolves every waiter and drops
    the pending entry.  Returns the callers woken. *)
Definition handle_reply (m : FetchMsg) (ok : bool) (writes : list (N * Blob)) (st : St)
  : list N * St :=
  let key := msg_key m in
  let woken := match pendingChunks st !! key with Some ws => ws | None => [] end in
  (woken,
   mkSt (manifest st) (worker st) (baseUrl st) (delete key (pendingChunks st))
     (if ok then {[key]} ∪ loadedChunks st else loadedChunks st)
     (remove_msg m (outbox st)) (put_all (fm_kind m) writes (idb st))).

(** Steps of a session.  [init] starts a fresh worker with empty chunk
    maps; [step_clear] is [clearCache] from [validateCache]. *)
Inductive step : St -> St -> Prop :=
  | step_get kind id caller existing st :
      step st (snd (getAssetBlob kind id caller existing st))
  | step_reply m ok writes st :
      In m (outbox st) -> step st (snd (handle_reply m ok writes st))
  | step_init chunks url st :
      step st (mkSt (Some chunks) true url ∅ ∅ [] (idb st))
  | step_clear st :
      step st (mkSt (manifest st) (worker st) (baseUrl st) (pendingChunks st)
                 (loadedChunks st) (outbox st) (fun _ _ => None)).

(** States reachable from a freshly opened album. *)
Inductive reachable : St -> Prop :=
  | reach_init chunks url db : reachable (mkSt (Some chunks) true url ∅ ∅ [] db)
  | reach_step st st' : reachable st -> step st st' -> reachable st'.

(** Run callers [0, 1, ...] through [getAssetBlob] one after another, each
    on a cache miss. *)
Fixpoint run_gets (kind : ChunkKind) (ids : list N) (caller : N) (st : St)
  : list GetStep * St :=
  match ids with
  | [] => ([], st)
  | id :: rest =>
      let '(g, st1) := getAssetBlob kind id caller None st in
      let '(gs, st2) := run_gets kind rest (caller + 1) st1 in
      (g :: gs, st2)
  end.

(** Bookkeeping of the outstanding fetches: one posted message per chunk
    key, a pending entry exactly for the keys with a posted message, each
    message for a chunk of the manifest that has a file of its kind, and no
    pending key already loaded. *)
Definition store_inv (st : St) : Prop :=
  NoDup (map msg_key (outbox st)) /\
  (forall key, is_Some (pendingChunks st !! key) <->
               exists m, In m (outbox st) /\ msg_key m = key) /\
  (forall m, In m (outbox st) ->
     exists chunks c f, manifest st = Some chunks /\
       chunks !! N.to_nat (fm_chunkId m) = Some c /\
       Disk.truthy (file_of (fm_kind m) c) = Some f) /\
  (forall key, is_Some (pendingChunks st !! key) -> key ∉ loadedChunks st).

(** ** An [AlbumStore] with its browser: the album name, the chunk state
    and the effects issued. *)
Record Sess := mkSess {
  sst : St;
  album : string;
  browser : Browser
}.

(** [new AlbumStore()]: no manifest, no worker, empty maps. *)
Definition fresh_sess (ls : gmap string string) (db : ChunkKind -> N -> option Blob) : Sess :=
  mkSess (mkSt None false "" ∅ ∅ [] db) "" (mkBrowser ls []).

(** The messages a step appended to the outbox are posted. *)
Definition post_new (st st' : St) (b : Browser) : Browser :=
  mkBrowser (localStorage b) (effects b ++ map PostFetch (drop (length (outbox st)) (outbox st'))).

(** The [manifest-decrypted] branch of [init]'s [onmessage]:
    [this.manifest = msg.manifest; ... this.validateCache(msg.manifestHash)]. *)
Definition manifest_decrypted (chunks : list ChunkInfo) (hash : string) (s : Sess) : Sess :=
  let st := sst s in
  mkSess (mkSt (Some chunks) (worker st) (baseUrl st) (pendingChunks st) (loadedChunks st)
            (outbox st) (idb st))
    (album s) (validateCache (album s) hash (browser s)).

(** The tasks of the page, in any interleaving.  [init(albumName, ...)]
    terminates the old worker, clears both chunk maps, sets [albumName] and
    [baseUrl] and starts a new worker; it leaves [this.manifest] as it was.
    [sess_stop] is a timeout, [onerror], [manifest-error] or [destroy()]:
    the worker is dropped.  [manifest-decrypted] is handled by the live
    worker's [onmessage]. *)
Inductive sess_step : Sess -> Sess -> Prop :=
  | sess_get kind id caller existing s :
      sess_step s (mkSess (snd (getAssetBlob kind id caller existing (sst s))) (album s)
                     (post_new (sst s) (snd (getAssetBlob kind id caller existing (sst s)))
                        (browser s)))
  | sess_reply m ok writes s :
      In m (outbox (sst s)) ->
      sess_step s (mkSess (snd (handle_reply m ok writes (sst s))) (album s) (browser s))
  | sess_init name url s :
      sess_step s (mkSess (mkSt (manifest (sst s)) true url ∅ ∅ [] (idb (sst s))) name
                     (browser s))
  | sess_stop s :
      sess_step s (mkSess (mkSt (manifest (sst s)) false (baseUrl (sst s))
                             (pendingChunks (sst s)) (loadedChunks (sst s)) (outbox (sst s))
                             (idb (sst s))) (album s) (browser s))
  | sess_manifest chunks hash s :
      worker (sst s) = true -> sess_step s (manifest_decrypted chunks hash s).

Inductive sess_star : Sess -> Sess -> Prop :=
  | sess_refl s : sess_star s s
  | sess_more s s' s'' : sess_step s s' -> sess_star s' s'' -> sess_star s s''.
End Store.

End Album.

(** A browser that recorded manifest hash "aa" for album "trip". *)
Definition cached_browser : Album.Browser :=
  Album.mkBrowser (<["manifest-hash:trip" := "aa"]> (∅ : gmap string string)) [].

(** Concrete inputs used below.  Payload bytes of the in-memory chunker
    are represented by their length ([byteLength] is the identity); files of
    the on-disk chunker are given sizes by a file-size table. *)
Definition mem_entry (i : N) (assetBytes videoBytes : option N) : Mem.ChunkEntry (Bytes:=N) :=
  Mem.mkEntry i Photo "2024-01-01T00:00:00.000Z" 1 assetBytes videoBytes.

Definition disk_entry (i : N) (a v : option string) : Disk.ChunkEntry :=
  Disk.mkEntry i Photo "2024-01-01T00:00:00.000Z" ("thumb" +:+ pretty i) a v.

(** Three originals of 10MB each. *)
Definition scenario_mem : list (Mem.ChunkEntry (Bytes:=N)) :=
  [mem_entry 0 (Some (10 * MB)) None; mem_entry 1 (Some (10 * MB)) None;
   mem_entry 2 (Some (10 * MB)) None].

Definition scenario_disk : list Disk.ChunkEntry :=
  [disk_entry 0 (Some "a0") None; disk_entry 1 (Some "a1") None;
   disk_entry 2 (Some "a2") None].

(** Ids with gaps, as left by failed conversions; the last asset is a
    Live Photo with its video. *)
Definition gap_entries : list Disk.ChunkEntry :=
  [disk_entry 0 (Some "a0") None; disk_entry 3 (Some "a3") None;
   disk_entry 4 (Some "a4") (Some "v4")].

Definition sizes_10MB (p : string) : N := 10 * MB.
Definition sizes_400MB (p : string) : N := 400 * MB.
Definition sizes_1GB (p : string) : N := 1024 * MB.
Definition no_bytes {A} (_ : A) : unit := tt.
Definition meta_bytes (_ : list (string * (string * AssetType))) : N := 0.

(** Three video-only assets. *)
Definition videos_mem : list (Mem.ChunkEntry (Bytes:=N)) :=
  [mem_entry 0 None (Some (1024 * MB)); mem_entry 1 None (Some (1024 * MB));
   mem_entry 2 None (Some (1024 * MB))].

Definition videos_disk : list Disk.ChunkEntry :=
  [disk_entry 0 None (Some "v0"); disk_entry 1 None (Some "v1");
   disk_entry 2 None (Some "v2")].

(** Entries that carry a video. *)
Definition Mem_has_video {Bytes} (e : Mem.ChunkEntry (Bytes:=Bytes)) : Prop := Mem.video e <> None.
Definition Disk_has_video (e : Disk.ChunkEntry) : Prop := Disk.truthy (Disk.videoPath e) <> None.
(** Entries that carry an original. *)
Definition Mem_has_original {Bytes} (e : Mem.ChunkEntry (Bytes:=Bytes)) : Prop :=
  Mem.asset e <> None.
Definition Disk_has_original (e : Disk.ChunkEntry) : Prop :=
  Disk.truthy (Disk.assetPath e) <> None.

(** An album of three assets in one chunk that has thumbnails and
    originals but no videos, freshly opened with an empty cache. *)
Definition chunk0 : ChunkInfo :=
  mkChunkInfo 0 "thumbs-0.enc" "originals-0.enc" None 0 2.

Definition fresh_store : Album.St (Blob:=unit) :=
  Album.mkSt (Some [chunk0]) true "https://example.org/album/" ∅ ∅ [] (fun _ _ => None).

(** [join] of node:path on a relative directory. *)
Definition path_join (dir f : string) : string := dir +:+ "/" +:+ f.

(** Three scanned assets; the conversion of the second one failed. *)
Definition step5_scanned : list Main.ScannedAsset :=
  [Main.mkScanned Photo "2024-01-01T00:00:00.000Z" (Some "a.jpg") None;
   Main.mkScanned Video "2024-01-02T00:00:00.000Z" None (Some "b.mov");
   Main.mkScanned Live "2024-01-03T00:00:00.000Z" (Some "c.heic") (Some "c.mov")].

(** The Live Photo of [step5_scanned]. *)
Definition step5_live : Main.ScannedAsset :=
  Main.mkScanned Live "2024-01-03T00:00:00.000Z" (Some "c.heic") (Some "c.mov").

(** [`${year}-${month}-01`] of an ISO date, in a UTC time zone. *)
Definition utc_monthKey (d : string) : string := String.substring 0 7 d +:+ "-01".

Definition month_dates : list string :=
  ["2024-01-05T10:00:00.000Z"; "2024-01-20T10:00:00.000Z"; "2024-02-01T10:00:00.000Z"].

Definition step5_chunks : list ChunkInfo * list (Disk.Write (Bytes:=unit)) :=
  Disk.createChunks sizes_400MB no_bytes no_bytes
    (Main.build_entries path_join "cache" step5_scanned [0; 2]).

(** A store whose manifest lists those chunks. *)
Definition step5_store : Album.St (Blob:=unit) :=
  Album.mkSt (Some (fst step5_chunks)) true "https://example.org/album/" ∅ ∅ []
    (fun _ _ => None).

(** A recent-albums item as [saveRecentAlbum] writes it, and one holding
    valid JSON that is not an array. *)
Definition recent_item : option Recent.Item :=
  Some (Recent.Json (Recent.JArray [Recent.EStr "trip"; Recent.EStr "family"])).

Definition recent_object : option Recent.Item := Some (Recent.Json Recent.JNonArray).

(** Caller numbers [c, c+1, ...], as [run_gets] hands them out. *)
Fixpoint callers (c : N) (n : nat) : list N :=
  match n with
  | O => []
  | S n' => c :: callers (c + 1) n'
  end.

(** The album "trip" opened in a browser that recorded hash "aa" for it;
    the worker then decrypts a manifest with hash "bb" and a thumbnail is
    requested. *)
Definition c6_ls : gmap string string := <["manifest-hash:trip" := "aa"]> ∅.

Definition c6_db : Album.ChunkKind -> N -> option unit := fun _ _ => None.

Definition c6_opened : Album.Sess (Blob:=unit) :=
  Album.mkSess (Album.mkSt None true "https://example.org/album/" ∅ ∅ [] c6_db) "trip"
    (Album.mkBrowser c6_ls []).

Definition c6_decrypted : Album.Sess (Blob:=unit) :=
  Album.manifest_decrypted [chunk0] "bb" c6_opened.

Definition c6_after_fetch : Album.Sess (Blob:=unit) :=
  Album.mkSess (snd (Album.getAssetBlob Album.Thumbnails 1 0 None (Album.sst c6_decrypted)))
    (Album.album c6_decrypted)
    (Album.post_new (Album.sst c6_decrypted)
       (snd (Album.getAssetBlob Album.Thumbnails 1 0 None (Album.sst c6_decrypted)))
       (Album.browser c6_decrypted)).

(** * Proofs *)

(** ** Planner *)
Section PlannerFacts.
Context {E : Type} (eid : E -> N) (weight : E -> N) (max : N).

Lemma plan_loop_cons (e : E) (rest : list E) cid start acc cur :
  plan_loop eid weight max (e :: rest) cid start acc cur =
  if (max <=? acc + weight e) || match rest with [] => true | _ :: _ => false end
  then mkSealed cid start (cur ++ [e])
         :: plan_loop eid weight max rest (cid + 1) (eid e + 1) 0 []
  else plan_loop eid weight max rest cid start (acc + weight e) (cur ++ [e]).
Proof. reflexivity. Qed.

Lemma sealed_end_snoc cid start (cur : list E) (e : E) :
  sealed_end eid (mkSealed cid start (cur ++ [e])) = eid e.
Proof. unfold sealed_end. cbn [sealed_entries]. by rewrite last_snoc. Qed.

Lemma plan_loop_nonempty (es : list E) : forall cid start acc cur,
  es <> [] -> plan_loop eid weight max es cid start acc cur <> [].
Proof.
  induction es as [|e rest IH]; intros cid start acc cur Hne; [congruence|].
  rewrite plan_loop_cons.
  destruct ((max <=? acc + weight e) || _) eqn:Hc; [done|].
  destruct rest; [cbn in Hc; rewrite orb_true_r in Hc; discriminate|].
  apply IH. done.
Qed.

Lemma consecutive_snoc (cur : list E) (e : E) : forall start,
  consecutive eid start cur -> eid e = start + N.of_nat (length cur) ->
  consecutive eid start (cur ++ [e]).
Proof.
  induction cur as [|c cur IHc]; intros start Hcur He; cbn in *.
  - split; [lia|done].
  - destruct Hcur as [Hc Hcur]. split; [done|]. apply IHc; [done|lia].
Qed.

Lemma plan_loop_covers (es : list E) : forall cid start acc cur k,
  es <> [] -> consecutive eid k es -> consecutive eid start cur ->
  start + N.of_nat (length cur) = k ->
  covers start (k + N.of_nat (length es) - 1)
    (map (fun s => (sealed_start s, sealed_end eid s))
       (plan_loop eid weight max es cid start acc cur)).
Proof.
  induction es as [|e rest IH]; intros cid start acc cur k Hne Hk Hcur Hlen;
    [congruence|].
  destruct Hk as [He Hrest]. rewrite plan_loop_cons.
  destruct (max <=? acc + weight e) eqn:Hfull; destruct rest as [|e' rest'];
    cbn [orb].
  - cbn [map plan_loop covers sealed_start]. rewrite sealed_end_snoc. cbn [length]. lia.
  - cbn [map covers sealed_start]. rewrite sealed_end_snoc.
    pose proof (IH (cid + 1) (k + 1) 0 [] (k + 1) ltac:(done) Hrest I ltac:(cbn; lia))
      as IH'.
    pose proof (plan_loop_nonempty (e' :: rest') (cid + 1) (eid e + 1) 0 [] ltac:(done))
      as Hnn.
    rewrite He in *.
    destruct (plan_loop eid weight max (e' :: rest') (cid + 1) (k + 1) 0 []) as [|s0 r0];
      [congruence|].
    cbn [map] in IH' |- *. split; [done|split; [lia|]].
    replace (k + N.of_nat (length (e :: e' :: rest')) - 1)
      with (k + 1 + N.of_nat (length (e' :: rest')) - 1) by (cbn [length]; lia).
    exact IH'.
  - cbn [map plan_loop covers sealed_start]. rewrite sealed_end_snoc. cbn [length]. lia.
  - replace (k + N.of_nat (length (e :: e' :: rest')) - 1)
      with (k + 1 + N.of_nat (length (e' :: rest')) - 1) by (cbn [length]; lia).
    apply IH; [done|exact Hrest| |].
    + apply consecutive_snoc; [done|lia].
    + rewrite length_app. cbn [length]. lia.
Qed.

Lemma plan_covers (es : list E) :
  es <> [] -> consecutive eid 0 es ->
  covers 0 (N.of_nat (length es) - 1)
    (map (fun s => (sealed_start s, sealed_end eid s)) (plan eid weight max es)).
Proof.
  intros Hne Hc. unfold plan.
  replace (N.of_nat (length es) - 1) with (0 + N.of_nat (length es) - 1) by lia.
  apply plan_loop_covers; cbn; auto.
Qed.
End PlannerFacts.

Section PlannerClose.
Context {E : Type} (eid : E -> N) (weight : E -> N) (max : N).

Lemma tally_app (l1 l2 : list E) : tally weight (l1 ++ l2) = tally weight l1 + tally weight l2.
Proof.
  unfold tally. induction l1 as [|x l1 IH]; cbn [app foldr]; lia.
Qed.

(** Invariant of the loop: [currentAssetSize] is the tally of the open
    chunk and every non-empty prefix of the open chunk stayed below the
    ceiling. *)
Lemma plan_loop_closes (es : list E) : forall cid start acc cur,
  acc = tally weight cur ->
  (forall j, (0 < j <= length cur)%nat -> tally weight (take j cur) < max) ->
  forall i s, plan_loop eid weight max es cid start acc cur !! i = Some s ->
    sealed_entries s <> [] /\
    (forall j, (0 < j < length (sealed_entries s))%nat ->
       tally weight (take j (sealed_entries s)) < max) /\
    ((S i < length (plan_loop eid weight max es cid start acc cur))%nat ->
       max <= tally weight (sealed_entries s)).
Proof.
  induction es as [|e rest IH]; intros cid start acc cur Hacc Hpre i s Hs;
    [done|].
  rewrite plan_loop_cons in Hs |- *.
  destruct (max <=? acc + weight e) eqn:Hfull.
  - cbn [orb] in Hs |- *. destruct i as [|i].
    + cbn in Hs. injection Hs as <-. cbn [sealed_entries length].
      split; [destruct cur; discriminate|]. split.
      * intros j Hj. rewrite length_app in Hj. cbn in Hj.
        rewrite take_app_le by lia. apply Hpre. lia.
      * intros _. rewrite tally_app. cbn. apply N.leb_le in Hfull. lia.
    + cbn in Hs. cbn [length].
      destruct (IH (cid + 1) (eid e + 1) 0 [] ltac:(done)
                  ltac:(cbn; lia) i s Hs) as (H1 & H2 & H3).
      split; [done|split; [done|]]. intros Hi. apply H3. lia.
  - destruct rest as [|e' rest'].
    + cbn [orb] in Hs |- *. destruct i as [|i]; [|destruct i; discriminate].
      cbn in Hs. injection Hs as <-. cbn [sealed_entries length].
      split; [destruct cur; discriminate|]. split; [|cbn; lia].
      intros j Hj. rewrite length_app in Hj. cbn in Hj.
      rewrite take_app_le by lia. apply Hpre. lia.
    + cbn [orb] in Hs |- *.
      refine (IH cid start (acc + weight e) (cur ++ [e]) _ _ i s Hs).
      * rewrite tally_app. cbn. lia.
      * intros j Hj. rewrite length_app in Hj. cbn in Hj.
        destruct (decide (j <= length cur)%nat).
        -- rewrite take_app_le by lia. apply Hpre. lia.
        -- rewrite take_ge by (rewrite length_app; cbn; lia).
           rewrite tally_app. cbn. apply N.leb_gt in Hfull. lia.
Qed.
End PlannerClose.

(** ** Claims on the planner *)


Lemma rec_set_in {V} (k : string) (v : V) (r : list (string * V)) :
  In k (map fst (rec_set k v r)).
Proof.
  induction r as [|[k' v'] r IH]; cbn; [by left|].
  destruct (String.eqb k k'); cbn; [by left|by right].
Qed.

Lemma rec_set_nonempty {V} (k : string) (v : V) (r : list (string * V)) :
  rec_set k v r <> [].
Proof. destruct r as [|[k' v'] r]; cbn; [done|]. destruct (String.eqb k k'); done. Qed.

Lemma nonempty_ltb {A} (l : list A) : (0 <? N.of_nat (length l)) = true <-> l <> [].
Proof. destruct l; cbn; split; try done; intros _; apply N.ltb_lt; lia. Qed.

Lemma mem_fold_videos {Bytes} (es : list (Mem.ChunkEntry (Bytes:=Bytes))) :
  forall (r : Mem.Records (Bytes:=Bytes)),
  snd (fst (fold_left Mem.add_entry es r)) <> [] <->
  snd (fst r) <> [] \/ Exists Mem_has_video es.
Proof.
  unfold Mem_has_video.
  induction es as [|e es IH]; intros [[[t a] v] m]; cbn [fold_left].
  - rewrite Exists_nil. cbn. tauto.
  - rewrite IH, Exists_cons. cbn.
    destruct (Mem.video e) eqn:Hv; cbn.
    + pose proof (rec_set_nonempty ("video" +:+ pretty (Mem.id e) +:+ ".mp4") b v).
      split; [intros _; right; left; done|tauto].
    + split; [intros [H|H]; tauto|intros [H|[H|H]]; tauto].
Qed.

Lemma disk_fold_videos {Bytes} (fileBytes : string -> Bytes) (es : list Disk.ChunkEntry) :
  forall (r : Disk.Records (Bytes:=Bytes)),
  snd (fst (fold_left (Disk.add_entry fileBytes) es r)) <> [] <->
  snd (fst r) <> [] \/ Exists Disk_has_video es.
Proof.
  unfold Disk_has_video.
  induction es as [|e es IH]; intros [[[t a] v] m]; cbn [fold_left].
  - rewrite Exists_nil. cbn. tauto.
  - rewrite IH, Exists_cons. cbn.
    destruct (Disk.truthy (Disk.videoPath e)) eqn:Hv; cbn.
    + pose proof (rec_set_nonempty ("video" +:+ pretty (Disk.id e) +:+ ".mp4") (fileBytes s) v).
      split; [intros _; right; left; done|tauto].
    + split; [intros [H|H]; tauto|intros [H|[H|H]]; tauto].
Qed.

Lemma mem_fold_assets {Bytes} (es : list (Mem.ChunkEntry (Bytes:=Bytes))) :
  forall (r : Mem.Records (Bytes:=Bytes)),
  snd (fst (fst (fold_left Mem.add_entry es r))) <> [] <->
  snd (fst (fst r)) <> [] \/ Exists Mem_has_original es.
Proof.
  unfold Mem_has_original.
  induction es as [|e es IH]; intros [[[t a] v] m]; cbn [fold_left].
  - rewrite Exists_nil. cbn. tauto.
  - rewrite IH, Exists_cons. cbn.
    destruct (Mem.asset e) eqn:Ha; cbn.
    + pose proof (rec_set_nonempty ("asset" +:+ pretty (Mem.id e) +:+ ".avif") b a).
      split; [intros _; right; left; done|tauto].
    + split; [intros [H|H]; tauto|intros [H|[H|H]]; tauto].
Qed.

Lemma disk_fold_assets {Bytes} (fileBytes : string -> Bytes) (es : list Disk.ChunkEntry) :
  forall (r : Disk.Records (Bytes:=Bytes)),
  snd (fst (fst (fold_left (Disk.add_entry fileBytes) es r))) <> [] <->
  snd (fst (fst r)) <> [] \/ Exists Disk_has_original es.
Proof.
  unfold Disk_has_original.
  induction es as [|e es IH]; intros [[[t a] v] m]; cbn [fold_left].
  - rewrite Exists_nil. cbn. tauto.
  - rewrite IH, Exists_cons. cbn.
    destruct (Disk.truthy (Disk.assetPath e)) eqn:Ha; cbn.
    + pose proof (rec_set_nonempty ("asset" +:+ pretty (Disk.id e) +:+ ".avif") (fileBytes s) a).
      split; [intros _; right; left; done|tauto].
    + split; [intros [H|H]; tauto|intros [H|[H|H]]; tauto].
Qed.

Lemma mem_seal_writes {Bytes} (encodeMeta : list (string * (string * AssetType)) -> Bytes)
    (s : Sealed (E:=Mem.ChunkEntry (Bytes:=Bytes))) :
  let '(ci, ws) := Mem.seal encodeMeta s in
  exists tf af vf,
    ws = [Mem.mkWrite (thumbnailsFile ci) tf; Mem.mkWrite (originalsFile ci) af]
         ++ match videosFile ci with Some f => [Mem.mkWrite f vf] | None => [] end /\
    In "meta.json" (map fst tf) /\
    (af = [] <-> ~ Exists Mem_has_original (sealed_entries s)) /\
    (videosFile ci <> None <-> Exists Mem_has_video (sealed_entries s)).
Proof.
  unfold Mem.seal.
  pose proof (mem_fold_videos (sealed_entries s) ([], [], [], [])) as Hv.
  pose proof (mem_fold_assets (sealed_entries s) ([], [], [], [])) as Ha.
  destruct (fold_left Mem.add_entry (sealed_entries s) ([], [], [], []))
    as [[[t a] v] m]; cbn in Hv, Ha.
  exists (rec_set "meta.json" (encodeMeta m) t), a, v.
  split; [|split; [apply rec_set_in|split; [split; [intros -> Hex; apply (proj2 Ha); [right; exact Hex|reflexivity]
    |intros Hno; destruct a as [|p a']; [reflexivity|]; exfalso;
     destruct (proj1 Ha ltac:(discriminate)) as [H|H]; [exact (H eq_refl)|exact (Hno H)]]|]]].
  - destruct (0 <? N.of_nat (length v)); reflexivity.
  - cbn. destruct (0 <? N.of_nat (length v)) eqn:Hl.
    + apply nonempty_ltb in Hl. split; [intros _; tauto|done].
    + split; [done|]. intros Hex. assert (v <> []) as Hne by tauto.
      apply nonempty_ltb in Hne. congruence.
Qed.

Lemma disk_seal_writes {Bytes} (fileBytes : string -> Bytes)
    (encodeMeta : list (string * (string * AssetType)) -> Bytes)
    (s : Sealed (E:=Disk.ChunkEntry)) :
  let '(ci, ws) := Disk.seal fileBytes encodeMeta s in
  exists tf af vf,
    ws = [Disk.mkWrite (thumbnailsFile ci) tf; Disk.mkWrite (originalsFile ci) af]
         ++ match videosFile ci with Some f => [Disk.mkWrite f vf] | None => [] end /\
    In "meta.json" (map fst tf) /\
    (af = [] <-> ~ Exists Disk_has_original (sealed_entries s)) /\
    (videosFile ci <> None <-> Exists Disk_has_video (sealed_entries s)).
Proof.
  unfold Disk.seal.
  pose proof (disk_fold_videos fileBytes (sealed_entries s) ([], [], [], [])) as Hv.
  pose proof (disk_fold_assets fileBytes (sealed_entries s) ([], [], [], [])) as Ha.
  destruct (fold_left (Disk.add_entry fileBytes) (sealed_entries s) ([], [], [], []))
    as [[[t a] v] m]; cbn in Hv, Ha.
  exists (rec_set "meta.json" (encodeMeta m) t), a, v.
  split; [|split; [apply rec_set_in|split; [split; [intros -> Hex; apply (proj2 Ha); [right; exact Hex|reflexivity]
    |intros Hno; destruct a as [|p a']; [reflexivity|]; exfalso;
     destruct (proj1 Ha ltac:(discriminate)) as [H|H]; [exact (H eq_refl)|exact (Hno H)]]|]]].
  - destruct (0 <? N.of_nat (length v)); reflexivity.
  - cbn. destruct (0 <? N.of_nat (length v)) eqn:Hl.
    + apply nonempty_ltb in Hl. split; [intros _; tauto|done].
    + split; [done|]. intros Hex. assert (v <> []) as Hne by tauto.
      apply nonempty_ltb in Hne. congruence.
Qed.

Lemma mem_seal_range {Bytes} (encodeMeta : list (string * (string * AssetType)) -> Bytes)
    (s : Sealed (E:=Mem.ChunkEntry (Bytes:=Bytes))) :
  (startIndex (fst (Mem.seal encodeMeta s)), endIndex (fst (Mem.seal encodeMeta s)))
  = (sealed_start s, sealed_end Mem.id s).
Proof.
  unfold Mem.seal.
  destruct (fold_left Mem.add_entry (sealed_entries s) ([], [], [], [])) as [[[t a] v] m].
  reflexivity.
Qed.

Lemma disk_seal_range {Bytes} (fileBytes : string -> Bytes)
    (encodeMeta : list (string * (string * AssetType)) -> Bytes)
    (s : Sealed (E:=Disk.ChunkEntry)) :
  (startIndex (fst (Disk.seal fileBytes encodeMeta s)),
   endIndex (fst (Disk.seal fileBytes encodeMeta s)))
  = (sealed_start s, sealed_end Disk.id s).
Proof.
  unfold Disk.seal.
  destruct (fold_left (Disk.add_entry fileBytes) (sealed_entries s) ([], [], [], []))
    as [[[t a] v] m].
  reflexivity.
Qed.

(** C1 (as stated, refuted).  With sizes [10MB, 10MB, 10MB] and a 15MB
    ceiling neither chunker closes a chunk before the second asset: the first
    chunk is [0,1], not [0,0]; the same happens with the on-disk chunker's
    real 500MB ceiling and three 400MB originals. *)
Lemma C1_first_chunk_not_0_0 :
  ranges (fst (Mem.createChunks_with id meta_bytes (15 * MB) scenario_mem)) = [(0, 1); (2, 2)] /\
  ranges (fst (Disk.createChunks_with sizes_10MB no_bytes no_bytes (15 * MB) scenario_disk))
    = [(0, 1); (2, 2)] /\
  ranges (fst (Disk.createChunks sizes_400MB no_bytes no_bytes scenario_disk)) = [(0, 1); (2, 2)] /\
  hd_error (ranges (fst (Mem.createChunks_with id meta_bytes (15 * MB) scenario_mem)))
    <> Some (0, 0).
Proof. vm_compute. repeat split; congruence. Qed.

(** C1 (amended).  The planner adds each asset to the open chunk first and
    seals the chunk right after the asset that brings the running tally to
    the ceiling or above, or after the last asset: every chunk is non-empty,
    each of its proper non-empty prefixes has a tally below the ceiling, and
    every chunk except the last has a tally at least the ceiling.  For
    [10MB, 10MB, 10MB] under 15MB the chunks are [0,1] and [2,2]. *)
Theorem plan_seals_after_reaching_ceiling :
  (forall (E : Type) (eid weight : E -> N) (max : N) (es : list E) (i : nat) (s : Sealed),
     plan eid weight max es !! i = Some s ->
     sealed_entries s <> [] /\
     (forall j, (0 < j < length (sealed_entries s))%nat ->
        tally weight (take j (sealed_entries s)) < max) /\
     ((S i < length (plan eid weight max es))%nat -> max <= tally weight (sealed_entries s))) /\
  ranges (fst (Mem.createChunks_with id meta_bytes (15 * MB) scenario_mem)) = [(0, 1); (2, 2)].
Proof.
  split; [|vm_compute; reflexivity].
  intros E eid weight max es i s Hs. unfold plan in *.
  eapply plan_loop_closes; [reflexivity| |exact Hs].
  intros j Hj. cbn in Hj. lia.
Qed.

Lemma plan_seals_after_reaching_ceiling_witness :
  plan Mem.id (Mem.weight id) (15 * MB) scenario_mem !! 0%nat
    = Some (mkSealed 0 0 (take 2 scenario_mem)) /\
  sealed_entries (mkSealed (E:=Mem.ChunkEntry) 0 0 (take 2 scenario_mem)) <> [] /\
  (forall j, (0 < j < length (sealed_entries (mkSealed 0 0 (take 2 scenario_mem))))%nat ->
     tally (Mem.weight id) (take j (sealed_entries (mkSealed 0 0 (take 2 scenario_mem))))
       < 15 * MB) /\
  ((S 0 < length (plan Mem.id (Mem.weight id) (15 * MB) scenario_mem))%nat ->
     15 * MB <= tally (Mem.weight id) (sealed_entries (mkSealed 0 0 (take 2 scenario_mem)))).
Proof.
  assert (H : plan Mem.id (Mem.weight id) (15 * MB) scenario_mem !! 0%nat
              = Some (mkSealed 0 0 (take 2 scenario_mem))) by (vm_compute; reflexivity).
  split; [exact H|].
  exact (proj1 plan_seals_after_reaching_ceiling _ Mem.id (Mem.weight id) (15 * MB)
           scenario_mem 0%nat _ H).
Defined.

(** C3 (amended).  Sealing a chunk (both chunkers) writes the thumbnails
    archive, which holds the [meta.json] entry, then always writes the
    originals archive (empty when no asset of the chunk has an original),
    then writes a videos archive exactly when some asset of the chunk has a
    video; [videosFile] is [null] otherwise.  The originals archive has no
    entry exactly when no asset of the chunk has an original. *)
Theorem seal_writes_archives :
  (forall (Bytes : Type) (encodeMeta : list (string * (string * AssetType)) -> Bytes)
          (s : Sealed (E:=Mem.ChunkEntry (Bytes:=Bytes))),
    let '(ci, ws) := Mem.seal encodeMeta s in
    exists tf af vf,
      ws = [Mem.mkWrite (thumbnailsFile ci) tf; Mem.mkWrite (originalsFile ci) af]
           ++ match videosFile ci with Some f => [Mem.mkWrite f vf] | None => [] end /\
      In "meta.json" (map fst tf) /\
      (af = [] <-> ~ Exists Mem_has_original (sealed_entries s)) /\
      (videosFile ci <> None <-> Exists Mem_has_video (sealed_entries s))) /\
  (forall (Bytes : Type) (fileBytes : string -> Bytes)
          (encodeMeta : list (string * (string * AssetType)) -> Bytes)
          (s : Sealed (E:=Disk.ChunkEntry)),
    let '(ci, ws) := Disk.seal fileBytes encodeMeta s in
    exists tf af vf,
      ws = [Disk.mkWrite (thumbnailsFile ci) tf; Disk.mkWrite (originalsFile ci) af]
           ++ match videosFile ci with Some f => [Disk.mkWrite f vf] | None => [] end /\
      In "meta.json" (map fst tf) /\
      (af = [] <-> ~ Exists Disk_has_original (sealed_entries s)) /\
      (videosFile ci <> None <-> Exists Disk_has_video (sealed_entries s))).
Proof.
  split; intros; [apply mem_seal_writes|apply disk_seal_writes].
Qed.

(** C3 (as stated, refuted): a chunk holding only a video asset still gets
    an originals archive, with no entry in it. *)
Lemma C3_originals_written_without_originals :
  snd (Mem.createChunks id meta_bytes [mem_entry 0 None (Some 5)]) !! 1%nat
    = Some (Mem.mkWrite "chunks/originals-0.enc" []) /\
  snd (Disk.createChunks sizes_1GB no_bytes no_bytes [disk_entry 0 None (Some "v0")]) !! 1%nat
    = Some (Disk.mkWrite "originals-0.enc" []).
Proof. vm_compute. split; reflexivity. Qed.

(** C4.  The in-memory chunker (tools/lib/chunker.ts) adds only the
    original's bytes to its tally: three 1GB video-only assets give a tally
    of 0 and one chunk of 3GB under the 2GB ceiling, while the on-disk
    chunker counts the video bytes and seals each asset on its own. *)
Theorem mem_tally_omits_video :
  tally (Mem.weight id) videos_mem = 0 /\
  ranges (fst (Mem.createChunks id meta_bytes videos_mem)) = [(0, 2)] /\
  tally (Disk.weight sizes_1GB) videos_disk = 3 * 1024 * MB /\
  ranges (fst (Disk.createChunks sizes_1GB no_bytes no_bytes videos_disk))
    = [(0, 0); (1, 1); (2, 2)].
Proof. vm_compute. repeat split. Qed.

(** C5.  For entries with ids [0..T-1] in order (T >= 1) and any ceiling,
    the [startIndex]/[endIndex] ranges returned by either chunker partition
    [0, T-1]: they start at 0, are non-empty, each starts right after the
    previous one ends, and the last ends at T-1. *)
Theorem createChunks_ranges_partition :
  (forall (Bytes : Type) (byteLength : Bytes -> N)
          (encodeMeta : list (string * (string * AssetType)) -> Bytes) (max : N)
          (entries : list (Mem.ChunkEntry (Bytes:=Bytes))),
     entries <> [] -> consecutive Mem.id 0 entries ->
     covers 0 (N.of_nat (length entries) - 1)
       (ranges (fst (Mem.createChunks_with byteLength encodeMeta max entries)))) /\
  (forall (Bytes : Type) (fileSize : string -> N) (fileBytes : string -> Bytes)
          (encodeMeta : list (string * (string * AssetType)) -> Bytes) (max : N)
          (entries : list Disk.ChunkEntry),
     entries <> [] -> consecutive Disk.id 0 entries ->
     covers 0 (N.of_nat (length entries) - 1)
       (ranges (fst (Disk.createChunks_with fileSize fileBytes encodeMeta max entries)))).
Proof.
  split.
  - intros Bytes byteLength encodeMeta max entries Hne Hc.
    unfold Mem.createChunks_with, ranges. cbn [fst]. rewrite !map_map.
    erewrite map_ext; [apply plan_covers; done|].
    intros s. apply mem_seal_range.
  - intros Bytes fileSize fileBytes encodeMeta max entries Hne Hc.
    unfold Disk.createChunks_with, ranges. cbn [fst]. rewrite !map_map.
    erewrite map_ext; [apply plan_covers; done|].
    intros s. apply disk_seal_range.
Qed.

Lemma createChunks_ranges_partition_witness :
  covers 0 2 (ranges (fst (Mem.createChunks_with id meta_bytes (15 * MB) scenario_mem))) /\
  covers 0 2 (ranges (fst (Disk.createChunks sizes_400MB no_bytes no_bytes scenario_disk))).
Proof.
  split.
  - exact (proj1 createChunks_ranges_partition N id meta_bytes (15 * MB) scenario_mem
             ltac:(discriminate) ltac:(vm_compute; tauto)).
  - exact (proj2 createChunks_ranges_partition unit sizes_400MB no_bytes no_bytes
             Disk.MAX_CHUNK_SIZE scenario_disk ltac:(discriminate) ltac:(vm_compute; tauto)).
Defined.

(** ** Claims on [parseTar] *)








(** ** Claims on the resume check *)

(** C7 (as stated, refuted).  With no readable progress record the cache
    directory is not removed: its files stay while every id is converted. *)
Lemma C7_missing_record_keeps_cache :
  Resume.cache (Resume.start None ["IMG_0001.jpg"] ["thumb_0.avif"]) = ["thumb_0.avif"] /\
  Resume.cacheWiped (Resume.start None ["IMG_0001.jpg"] ["thumb_0.avif"]) = false /\
  Resume.toConvert 1 (Resume.completedSet (Resume.start None ["IMG_0001.jpg"] ["thumb_0.avif"]))
    = [0].
Proof. vm_compute. repeat split. Qed.

(** C7 (amended).  When a progress record exists and its source list
    equals the fresh scan, the ids submitted are the scanned ids minus the
    recorded completed ids and the cache is kept; when a record exists with
    a different source list, the cache directory is emptied and every id is
    submitted; when no record can be read, every id is submitted and the
    cache is left in place.  No submitted id is in the completed set. *)
Theorem resume_toConvert :
  forall (progress : option Resume.ProgressFile) (currentSources cacheFiles : list string)
         (n : nat),
  let st := Resume.start progress currentSources cacheFiles in
  let ids := map N.of_nat (seq 0 n) in
  (forall p, progress = Some p -> Resume.sources p = currentSources ->
     Resume.toConvert n (Resume.completedSet st)
       = filter (fun i => i ∉ Resume.completed p) ids /\
     Resume.cache st = cacheFiles) /\
  (forall p, progress = Some p -> Resume.sources p <> currentSources ->
     Resume.toConvert n (Resume.completedSet st) = ids /\
     Resume.cache st = [] /\ Resume.cacheWiped st = true) /\
  (progress = None ->
     Resume.toConvert n (Resume.completedSet st) = ids /\
     Resume.cache st = cacheFiles /\ Resume.cacheWiped st = false) /\
  (forall i, i ∈ Resume.toConvert n (Resume.completedSet st) ->
     i ∉ Resume.completedSet st).
Proof.
  intros progress currentSources cacheFiles n st ids.
  assert (Hall : forall l : list N, filter (fun i => i ∉ ([] : list N)) l = l).
  { intros l. induction l as [|x l IH]; [done|].
    rewrite filter_cons_True by apply not_elem_of_nil. by rewrite IH. }
  split; [|split; [|split]].
  - intros p -> Hs. subst st. unfold Resume.start, Resume.sources_match.
    rewrite bool_decide_eq_true_2 by done. cbn. done.
  - intros p -> Hs. subst st. unfold Resume.start, Resume.sources_match.
    rewrite bool_decide_eq_false_2 by done. cbn. unfold Resume.toConvert. by rewrite Hall.
  - intros ->. subst st. cbn. unfold Resume.toConvert. by rewrite Hall.
  - intros i Hi. unfold Resume.toConvert in Hi. apply list_elem_of_filter in Hi. tauto.
Qed.

Lemma resume_toConvert_witness :
  Resume.toConvert 3 (Resume.completedSet
    (Resume.start (Some (Resume.mkProgress ["a"; "b"; "c"] [1])) ["a"; "b"; "c"] []))
  = filter (fun i => i ∉ [1]) (map N.of_nat (seq 0 3)) /\
  Resume.cache (Resume.start (Some (Resume.mkProgress ["a"; "b"; "c"] [1])) ["a"; "b"; "c"] [])
  = [].
Proof.
  exact (proj1 (resume_toConvert (Some (Resume.mkProgress ["a"; "b"; "c"] [1]))
                  ["a"; "b"; "c"] [] 3)
           (Resume.mkProgress ["a"; "b"; "c"] [1]) eq_refl eq_refl).
Defined.

(** ** Claims on album open *)

Section SessFacts.
Context {Blob : Type}.

Lemma getAssetBlob_manifest kind id caller existing (st : Album.St (Blob:=Blob)) :
  Album.manifest (snd (Album.getAssetBlob kind id caller existing st)) = Album.manifest st.
Proof.
  unfold Album.getAssetBlob, Album.requestChunk, Album.waitForChunk, Album.set_pending.
  repeat case_match; simplify_eq/=; congruence.
Qed.

Lemma getAssetBlob_no_manifest kind id caller existing (st : Album.St (Blob:=Blob)) :
  Album.manifest st = None -> snd (Album.getAssetBlob kind id caller existing st) = st.
Proof.
  intros Hm. unfold Album.getAssetBlob, Album.findChunkForId. rewrite Hm.
  destruct existing; reflexivity.
Qed.

(** Before the first manifest, a session has posted nothing and the
    browser is untouched. *)
Definition no_manifest_yet (ls0 : gmap string string) (s : Album.Sess (Blob:=Blob)) : Prop :=
  Album.manifest (Album.sst s) = None ->
  Album.browser s = Album.mkBrowser ls0 [] /\ Album.outbox (Album.sst s) = [].

Lemma sess_step_no_manifest ls0 s s' :
  Album.sess_step s s' -> no_manifest_yet ls0 s -> no_manifest_yet ls0 s'.
Proof.
  unfold no_manifest_yet. intros Hst I Hm'. inversion Hst; subst; cbn in *.
  - rewrite getAssetBlob_manifest in Hm'.
    rewrite (getAssetBlob_no_manifest _ _ _ _ _ Hm').
    destruct (I Hm') as [Hb Ho]. unfold Album.post_new. rewrite drop_all, Hb, Ho. split; reflexivity.
  - exfalso. destruct (I Hm') as [_ Ho]. rewrite Ho in H. exact H.
  - destruct (I Hm') as [Hb _]. split; [exact Hb|reflexivity].
  - exact (I Hm').
  - discriminate.
Qed.

Lemma sess_before_manifest ls0 (db : Album.ChunkKind -> N -> option Blob) s :
  Album.sess_star (Album.fresh_sess ls0 db) s -> no_manifest_yet ls0 s.
Proof.
  intros Hs. assert (I0 : no_manifest_yet ls0 (Album.fresh_sess ls0 db))
    by (intros _; split; reflexivity).
  revert I0. remember (Album.fresh_sess ls0 db) as s0 eqn:E. clear E.
  induction Hs as [s|s s' s'' Hst _ IH]; intros I0; [exact I0|].
  exact (IH (sess_step_no_manifest ls0 s s' Hst I0)).
Qed.

Lemma validateCache_grows a h b :
  exists rest, Album.effects (Album.validateCache a h b) = Album.effects b ++ rest.
Proof.
  unfold Album.validateCache, Album.clearCache, Album.setItem.
  destruct (Album.localStorage b !! ("manifest-hash:" +:+ a)) as [h'|];
    [destruct (String.eqb h' h)|]; cbn.
  - exists [Album.SetItem ("manifest-hash:" +:+ a) h]. reflexivity.
  - eexists. rewrite <- app_assoc. reflexivity.
  - exists [Album.SetItem ("manifest-hash:" +:+ a) h]. reflexivity.
Qed.

(** Every step of a session only appends to the effects. *)
Lemma sess_effects_grow (s s'' : Album.Sess (Blob:=Blob)) :
  Album.sess_star s s'' ->
  exists rest, Album.effects (Album.browser s'') = Album.effects (Album.browser s) ++ rest.
Proof.
  induction 1 as [s|s s' s'' Hst _ (rest & IH)].
  - exists []. rewrite app_nil_r. reflexivity.
  - rewrite IH. inversion Hst; subst; cbn.
    + eexists. rewrite <- app_assoc. reflexivity.
    + eexists. reflexivity.
    + eexists. reflexivity.
    + eexists. reflexivity.
    + unfold Album.manifest_decrypted; cbn.
      destruct (validateCache_grows (Album.album s) hash (Album.browser s)) as (r & ->).
      eexists. rewrite <- app_assoc. reflexivity.
Qed.

End SessFacts.

Lemma c6_run_open :
  Album.sess_star (Album.fresh_sess c6_ls c6_db) c6_opened.
Proof.
  exact (Album.sess_more _ _ _ (Album.sess_init "trip" "https://example.org/album/" (Album.fresh_sess c6_ls c6_db))
           (Album.sess_refl c6_opened)).
Qed.

Lemma c6_run_fetch : Album.sess_star c6_decrypted c6_after_fetch.
Proof.
  exact (Album.sess_more _ _ _ (Album.sess_get Album.Thumbnails 1 0 None c6_decrypted)
           (Album.sess_refl c6_after_fetch)).
Qed.

(** C6.  [validateCache] always records the new hash under
    [manifest-hash:<album>]; when a different hash was recorded before, it
    then closes the album's connection and requests the deletion of its
    IndexedDB database; on first observation or on an equal hash it issues
    nothing else.  From a fresh [AlbumStore], nothing is issued before the
    first [manifest-decrypted] (no fetch can be posted without a manifest),
    and everything issued afterwards, every chunk fetch included, comes
    after the effects of that [validateCache]. *)
Theorem validateCache_spec :
  (forall (albumName newHash : string) (b : Album.Browser),
   let key := "manifest-hash:" +:+ albumName in
   let b' := Album.validateCache albumName newHash b in
   Album.localStorage b' !! key = Some newHash /\
   (forall h, Album.localStorage b !! key = Some h -> h <> newHash ->
      Album.effects b' = Album.effects b ++
        [Album.SetItem key newHash; Album.CloseDb albumName;
         Album.DeleteDatabase (Album.db_name albumName)]) /\
   (Album.localStorage b !! key = None ->
      Album.effects b' = Album.effects b ++ [Album.SetItem key newHash]) /\
   (Album.localStorage b !! key = Some newHash ->
      Album.effects b' = Album.effects b ++ [Album.SetItem key newHash])) /\
  (forall (Blob : Type) ls0 (db : Album.ChunkKind -> N -> option Blob) s,
     Album.sess_star (Album.fresh_sess ls0 db) s -> Album.manifest (Album.sst s) = None ->
     Album.browser s = Album.mkBrowser ls0 []) /\
  (forall (Blob : Type) ls0 (db : Album.ChunkKind -> N -> option Blob) s chunks hash s'',
     Album.sess_star (Album.fresh_sess ls0 db) s -> Album.manifest (Album.sst s) = None ->
     Album.sess_star (Album.manifest_decrypted chunks hash s) s'' ->
     exists rest, Album.effects (Album.browser s'') =
       Album.effects (Album.validateCache (Album.album s) hash (Album.mkBrowser ls0 [])) ++ rest).
Proof.
  split; [|split].
  - intros albumName newHash b key b'.
    subst b'. unfold Album.validateCache. fold key.
    split; [|split; [|split]].
    + destruct (Album.localStorage b !! key) as [h|]; [destruct (String.eqb h newHash)|];
        cbn; apply lookup_insert_eq.
    + intros h Hh Hne. rewrite Hh. apply String.eqb_neq in Hne. rewrite Hne. cbn.
      rewrite <- app_assoc. reflexivity.
    + intros Hn. rewrite Hn. reflexivity.
    + intros Hs. rewrite Hs. rewrite String.eqb_refl. reflexivity.
  - intros Blob ls0 db s Hs Hm. exact (proj1 (sess_before_manifest ls0 db s Hs Hm)).
  - intros Blob ls0 db s chunks hash s'' Hs Hm Hrun.
    pose proof (proj1 (sess_before_manifest ls0 db s Hs Hm)) as Hb.
    destruct (sess_effects_grow _ _ Hrun) as (rest & Hrest).
    exists rest. rewrite Hrest. unfold Album.manifest_decrypted. cbn [Album.browser].
    rewrite Hb. reflexivity.
Qed.

Lemma validateCache_spec_witness :
  Album.effects (Album.validateCache "trip" "bb" cached_browser)
    = Album.effects cached_browser ++
      [Album.SetItem "manifest-hash:trip" "bb"; Album.CloseDb "trip";
       Album.DeleteDatabase (Album.db_name "trip")] /\
  (exists rest,
    Album.effects (Album.browser c6_after_fetch) =
      Album.effects (Album.validateCache "trip" "bb" (Album.mkBrowser c6_ls [])) ++ rest) /\
  Album.effects (Album.browser c6_after_fetch) =
    [Album.SetItem "manifest-hash:trip" "bb"; Album.CloseDb "trip";
     Album.DeleteDatabase "album-trip";
     Album.PostFetch (Album.mkMsg Album.Thumbnails 0 "https://example.org/album/thumbs-0.enc")].
Proof.
  split; [|split].
  - exact (proj1 (proj2 (proj1 validateCache_spec "trip" "bb" cached_browser))
             "aa" ltac:(apply lookup_insert_eq) ltac:(discriminate)).
  - exact (proj2 (proj2 validateCache_spec) unit c6_ls c6_db c6_opened
             [chunk0] "bb" c6_after_fetch c6_run_open eq_refl c6_run_fetch).
  - vm_compute. reflexivity.
Defined.

(** C9 (as stated, refuted).  A missing manifest and a timed-out handshake
    show different texts. *)
Lemma C9_messages_differ :
  Album.login_error (Album.HttpNotOk 404) = Some "HTTP 404" /\
  Album.login_error Album.TimeoutFires = Some "Connection timeout" /\
  Album.login_error (Album.HttpNotOk 404) <> Album.login_error Album.TimeoutFires.
Proof. vm_compute. split; [reflexivity|split; [reflexivity|discriminate]]. Qed.

(** C9 (amended).  A failed album open shows the error text recorded by the
    failing step, never the generic fallback: "HTTP <status>" for a non-OK
    manifest response (distinct statuses give distinct texts), the thrown
    message for key derivation, network, decryption and parse failures,
    "Connection timeout" for the handshake timeout. *)
Theorem login_error_reveals_cause :
  (forall ev, ev <> Album.ManifestOk ->
     exists e, snd (Album.init_result ev) = Some e /\ Album.login_error ev = Some e) /\
  (forall s1 s2 : N, s1 <> s2 ->
     Album.login_error (Album.HttpNotOk s1) <> Album.login_error (Album.HttpNotOk s2)) /\
  (forall m, Album.login_error (Album.DecryptThrows m) = Some m) /\
  (forall m, Album.login_error (Album.FetchThrows m) = Some m) /\
  Album.login_error Album.TimeoutFires = Some "Connection timeout".
Proof.
  split; [|split; [|split; [|split]]].
  - intros ev Hev. destruct ev; try congruence; eexists; split; reflexivity.
  - intros s1 s2 Hne H. cbn in H. injection H as H.
    change (pretty s1 = pretty s2) in H. apply (inj pretty) in H. done.
  - reflexivity.
  - reflexivity.
  - reflexivity.
Qed.

Lemma login_error_reveals_cause_witness :
  Album.login_error (Album.HttpNotOk 404) <> Album.login_error (Album.HttpNotOk 500) /\
  (exists e, snd (Album.init_result (Album.ParseThrows "Unexpected token")) = Some e /\
             Album.login_error (Album.ParseThrows "Unexpected token") = Some e).
Proof.
  split.
  - exact (proj1 (proj2 login_error_reveals_cause) 404 500 ltac:(discriminate)).
  - exact (proj1 login_error_reveals_cause (Album.ParseThrows "Unexpected token")
             ltac:(discriminate)).
Defined.

(** ** Claims on the chunk state machine *)
Module StoreProofs.
Import Album.

Section Facts.
Context {Blob : Type}.
Implicit Types st : St (Blob:=Blob).

Local Ltac split_inv := split; [|split; [intros k; split|split]].

Lemma chunk_key_inj k1 c1 k2 c2 :
  chunk_key k1 c1 = chunk_key k2 c2 -> k1 = k2 /\ c1 = c2.
Proof.
  intros H. destruct k1, k2; cbn in H; try discriminate; injection H as H;
    change (pretty c1 = pretty c2) in H; apply (inj pretty) in H; done.
Qed.

Lemma remove_msg_sub m l x : In x (remove_msg m l) -> In x l.
Proof.
  induction l as [|m' l IH]; cbn; [done|].
  case_bool_decide; [tauto|]. intros [->|Hx]; [left; done|right; auto].
Qed.

Lemma remove_msg_in m l x :
  NoDup (map msg_key l) ->
  In x (remove_msg m l) <-> In x l /\ msg_key x <> msg_key m.
Proof.
  induction l as [|m' l IH]; cbn; intros Hnd; [tauto|].
  inversion Hnd as [|? ? Hnotin Hnd']; subst.
  rewrite list_elem_of_In in Hnotin. case_bool_decide as Heq.
  - split.
    + intros Hx. split; [right; done|]. intros Hk. apply Hnotin.
      rewrite Heq, <- Hk. apply in_map. done.
    + intros [[->|Hx] Hk]; [done|exact Hx].
  - cbn. rewrite (IH Hnd'). split.
    + intros [->|[Hx Hk]]; [split; [left; done|done]|split; [right; done|done]].
    + intros [[->|Hx] Hk]; [left; done|right; done].
Qed.

Lemma remove_msg_nodup m l :
  NoDup (map msg_key l) -> NoDup (map msg_key (remove_msg m l)).
Proof.
  induction l as [|m' l IH]; cbn; intros Hnd; [done|].
  inversion Hnd as [|? ? Hnotin Hnd']; subst.
  rewrite list_elem_of_In in Hnotin.
  case_bool_decide; [done|]. cbn. constructor; [|auto].
  rewrite list_elem_of_In. intros Hin. apply Hnotin. apply in_map_iff in Hin as (x & Hk & Hx).
  rewrite <- Hk. apply in_map. eapply remove_msg_sub. exact Hx.
Qed.

Lemma nodup_snoc {A} (l : list A) x :
  NoDup l -> ~ In x l -> NoDup (l ++ [x]).
Proof.
  induction l as [|y l IH]; cbn; intros Hnd Hx.
  - constructor; [rewrite list_elem_of_In; done|constructor].
  - inversion Hnd as [|? ? Hy Hnd']; subst. rewrite list_elem_of_In in Hy.
    constructor.
    + rewrite list_elem_of_In, in_app_iff. cbn. intuition congruence.
    + apply IH; tauto.
Qed.

Lemma requestChunk_inv kind cid st :
  store_inv st -> store_inv (requestChunk kind cid st).
Proof.
  intros Hinv. pose proof Hinv as (Hnd & Hpend & Hmsg & Hload). unfold requestChunk.
  destruct (manifest st) as [chunks|] eqn:Hman; [|done].
  destruct (worker st); cbn; [|done].
  destruct (chunks !! N.to_nat cid) as [chunk|] eqn:Hc; [|done].
  destruct (bool_decide _ || bool_decide _) eqn:Hb; [done|].
  apply orb_false_iff in Hb as [Hl Hp].
  apply bool_decide_eq_false_1 in Hl, Hp.
  destruct (Disk.truthy (file_of kind chunk)) as [file|] eqn:Hf; [|done].
  set (key := chunk_key kind cid). set (msg := mkMsg kind cid (baseUrl st +:+ file)).
  assert (Hkey : msg_key msg = key) by reflexivity.
  split_inv; cbn.
  - rewrite map_app. apply nodup_snoc; [done|].
    rewrite Hkey. intros Hin. apply in_map_iff in Hin as (m & Hk & Hm).
    apply Hp, Hpend. exists m. done.
  - intros Hs. destruct (decide (key = k)) as [<-|Hne].
    + exists msg. rewrite in_app_iff. cbn. tauto.
    + rewrite lookup_insert_ne in Hs by done.
      apply Hpend in Hs as (m & Hm & Hk). exists m. rewrite in_app_iff. tauto.
  - intros (m & Hm & Hk). destruct (decide (key = k)) as [<-|Hne].
    + rewrite lookup_insert_eq. eexists; done.
    + rewrite lookup_insert_ne by done. apply Hpend. exists m.
      split; [|done]. apply in_app_iff in Hm as [Hm|[<-|[]]]; [done|].
      exfalso. apply Hne. rewrite <- Hk. done.
  - intros m Hm. apply in_app_iff in Hm as [Hm|[<-|[]]].
    + apply Hmsg. done.
    + exists chunks, chunk, file. cbn. done.
  - intros k Hs. destruct (decide (key = k)) as [<-|Hne]; [done|].
    rewrite lookup_insert_ne in Hs by done. apply Hload. done.
Qed.

Lemma is_Some_insert_same {A} (p : gmap string A) key k v :
  is_Some (p !! key) -> is_Some (<[key := v]> p !! k) <-> is_Some (p !! k).
Proof.
  intros Hs. destruct (decide (key = k)) as [<-|Hne].
  - rewrite lookup_insert_eq. split; [done|eexists; done].
  - rewrite lookup_insert_ne by done. done.
Qed.

Lemma waitForChunk_inv key caller st :
  store_inv st -> store_inv (snd (waitForChunk key caller st)).
Proof.
  intros Hinv. pose proof Hinv as (Hnd & Hpend & Hmsg & Hload). unfold waitForChunk.
  case_bool_decide; [done|].
  destruct (pendingChunks st !! key) as [ws|] eqn:Hws; [|done].
  assert (Hs : is_Some (pendingChunks st !! key)) by (eexists; done).
  split_inv; cbn; try done.
  - intros H'. apply Hpend.
    rewrite <- (is_Some_insert_same (pendingChunks st) key k (ws ++ [caller]) Hs). exact H'.
  - intros H'. rewrite (is_Some_insert_same (pendingChunks st) key k (ws ++ [caller]) Hs).
    apply Hpend. done.
  - intros k H'. apply Hload.
    rewrite <- (is_Some_insert_same (pendingChunks st) key k (ws ++ [caller]) Hs). exact H'.
Qed.

Lemma getAssetBlob_inv kind id caller existing st :
  store_inv st -> store_inv (snd (getAssetBlob kind id caller existing st)).
Proof.
  intros Hinv. unfold getAssetBlob.
  destruct existing; [done|]. destruct (findChunkForId id st) as [chunk|]; [|done].
  pose proof (waitForChunk_inv (chunk_key kind (chunkId chunk)) caller _
                (requestChunk_inv kind (chunkId chunk) st Hinv)) as H.
  destruct (waitForChunk _ _ _) as [w st2]. done.
Qed.

Lemma handle_reply_inv m ok writes st :
  In m (outbox st) -> store_inv st -> store_inv (snd (handle_reply m ok writes st)).
Proof.
  intros Hin (Hnd & Hpend & Hmsg & Hload).
  split_inv; cbn.
  - apply remove_msg_nodup. done.
  - intros Hs. destruct (decide (msg_key m = k)) as [<-|Hne].
    + rewrite lookup_delete_eq in Hs. destruct Hs as [? Hs]. discriminate.
    + rewrite lookup_delete_ne in Hs by done.
      apply Hpend in Hs as (m' & Hm' & Hk). exists m'.
      rewrite remove_msg_in by done. split; [|done]. split; [done|]. congruence.
  - intros (m' & Hm' & Hk). rewrite remove_msg_in in Hm' by done.
    destruct Hm' as [Hm' Hne]. rewrite lookup_delete_ne by congruence.
    apply Hpend. exists m'. done.
  - intros m' Hm'. apply Hmsg. eapply remove_msg_sub. exact Hm'.
  - intros k Hs. destruct (decide (msg_key m = k)) as [<-|Hne].
    + rewrite lookup_delete_eq in Hs. destruct Hs as [? Hs]. discriminate.
    + rewrite lookup_delete_ne in Hs by done. apply Hload in Hs.
      destruct ok; [|done]. set_solver.
Qed.

Lemma store_inv_init chunks url db :
  store_inv (mkSt (Blob:=Blob) (Some chunks) true url ∅ ∅ [] db).
Proof.
  split; [constructor|]. split; [|split].
  - intros k. split; [|intros (m & [] & _)].
    intros [? H]. vm_compute in H. discriminate.
  - intros m [].
  - intros k [? H]. vm_compute in H. discriminate.
Qed.

Lemma reachable_inv st : reachable st -> store_inv st.
Proof.
  induction 1 as [chunks url db|st st' Hr IH Hstep].
  - apply store_inv_init.
  - destruct Hstep as [kind id caller existing|m ok writes ? Hin|chunks url|].
    + apply getAssetBlob_inv. done.
    + apply handle_reply_inv; done.
    + apply store_inv_init.
    + exact IH.
Qed.

(** A key already loaded or pending: [requestChunk] posts nothing. *)
Lemma requestChunk_busy kind cid st :
  chunk_key kind cid ∈ loadedChunks st \/ is_Some (pendingChunks st !! chunk_key kind cid) ->
  requestChunk kind cid st = st.
Proof.
  intros H. unfold requestChunk.
  destruct (manifest st); [|done]. destruct (worker st); [|done]. cbn.
  destruct (_ !! N.to_nat cid); [|done].
  destruct H as [H|H].
  - rewrite bool_decide_eq_true_2 by done. done.
  - rewrite (bool_decide_eq_true_2 (is_Some _)) by done. rewrite orb_true_r. done.
Qed.

Lemma run_gets_waiting kind ids c ch st ws :
  chunk_key kind (chunkId ch) ∉ loadedChunks st ->
  Forall (fun id => findChunkForId id st = Some ch) ids ->
  run_gets kind ids c
    (set_pending st (<[chunk_key kind (chunkId ch) := ws]> (pendingChunks st))) =
  (repeat GWait (length ids),
   set_pending st (<[chunk_key kind (chunkId ch) := ws ++ callers c (length ids)]>
                     (pendingChunks st))).
Proof.
  set (key := chunk_key kind (chunkId ch)). intros Hl Hids.
  revert c ws. induction Hids as [|id ids Hid Hids IH]; intros c ws; cbn.
  - rewrite app_nil_r. done.
  - unfold getAssetBlob.
    replace (findChunkForId id _) with (Some ch) by (rewrite <- Hid; done).
    rewrite requestChunk_busy
      by (right; cbn; rewrite lookup_insert_eq; eexists; done).
    unfold waitForChunk. cbn.
    rewrite bool_decide_eq_false_2 by done. fold key. rewrite lookup_insert_eq.
    unfold set_pending at 1. cbn. rewrite insert_insert_eq.
    fold (set_pending st (<[key:=ws ++ [c]]> (pendingChunks st))).
    rewrite IH. rewrite <- app_assoc. done.
Qed.

Lemma put_all_other kind (writes : list (N * Blob)) db k j :
  (k <> kind \/ ~ In j (map fst writes)) -> put_all kind writes db k j = db k j.
Proof.
  unfold put_all. revert db.
  induction writes as [|[i b] writes IH]; intros db H; cbn; [done|].
  rewrite IH by (cbn in H; tauto). cbn.
  destruct (bool_decide (k = kind)) eqn:Hk; cbn; [|done].
  apply bool_decide_eq_true_1 in Hk.
  destruct (j =? i) eqn:Hj; [|done]. apply N.eqb_eq in Hj. subst.
  cbn in H. tauto.
Qed.

Lemma put_all_written kind (writes : list (N * Blob)) : forall db j,
  In j (map fst writes) -> is_Some (put_all kind writes db kind j).
Proof.
  unfold put_all.
  induction writes as [|[i b] writes IH]; intros db j H; cbn in H |- *; [done|].
  destruct (in_dec N.eq_dec j (map fst writes)) as [Hin|Hout]; [apply IH, Hin|].
  destruct H as [<-|H]; [|done].
  pose proof (put_all_other kind writes (fun k j0 => if bool_decide (k = kind) && (j0 =? i)
                                        then Some b else db k j0) kind i (or_intror Hout)) as E.
  unfold put_all in E. rewrite E.
  rewrite bool_decide_true by done. rewrite N.eqb_refl. eexists. reflexivity.
Qed.
End Facts.

(** C8.  The chunk state machine keeps at most one outstanding fetch per
    (kind, chunkId) key: in every reachable state the posted, unanswered
    messages have pairwise distinct keys, and a key is pending exactly when
    one of them carries it.  Any number of cache-missing [getAsset] calls
    for ids of one chunk, starting with the key neither loaded nor pending,
    post exactly one fetch message and leave every caller waiting on the
    key.  After a successful reply the key is loaded and [requestChunk]
    posts nothing for it; after a failure the key is neither pending nor
    loaded, so the next request starts one new fetch. *)
Theorem requests_coalesce {Blob : Type} :
  (forall st : St (Blob:=Blob), reachable st ->
     NoDup (map msg_key (outbox st)) /\
     (forall key, is_Some (pendingChunks st !! key) <->
                  exists m, In m (outbox st) /\ msg_key m = key)) /\
  (forall (st : St (Blob:=Blob)) kind ch chunks f ids caller,
     manifest st = Some chunks -> worker st = true ->
     chunks !! N.to_nat (chunkId ch) = Some ch ->
     Disk.truthy (file_of kind ch) = Some f ->
     chunk_key kind (chunkId ch) ∉ loadedChunks st ->
     pendingChunks st !! chunk_key kind (chunkId ch) = None ->
     Forall (fun id => findChunkForId id st = Some ch) ids -> ids <> [] ->
     run_gets kind ids caller st =
       (repeat GWait (length ids),
        mkSt (manifest st) (worker st) (baseUrl st)
          (<[chunk_key kind (chunkId ch) := callers caller (length ids)]> (pendingChunks st))
          (loadedChunks st)
          (outbox st ++ [mkMsg kind (chunkId ch) (baseUrl st +:+ f)]) (idb st))) /\
  (forall (st : St (Blob:=Blob)) m ok writes, reachable st -> In m (outbox st) ->
     (ok = true ->
        requestChunk (fm_kind m) (fm_chunkId m) (snd (handle_reply m ok writes st))
        = snd (handle_reply m ok writes st)) /\
     (ok = false ->
        pendingChunks (snd (handle_reply m ok writes st)) !! msg_key m = None /\
        msg_key m ∉ loadedChunks (snd (handle_reply m ok writes st)))).
Proof.
  split; [|split].
  - intros st Hr. destruct (reachable_inv st Hr) as (Hnd & Hpend & _). done.
  - intros [man w url p l out db] kind ch chunks f ids caller Hman Hw Hc Hf Hl Hp Hids Hne.
    cbn in Hman, Hw, Hl, Hp. subst man w.
    destruct Hids as [|id rest Hid Hrest]; [done|].
    set (key := chunk_key kind (chunkId ch)) in *.
    assert (Hreq : requestChunk kind (chunkId ch) (mkSt (Some chunks) true url p l out db)
                   = mkSt (Some chunks) true url (<[key := []]> p) l
                       (out ++ [mkMsg kind (chunkId ch) (url +:+ f)]) db).
    { unfold requestChunk. cbn [manifest worker negb loadedChunks pendingChunks baseUrl].
      rewrite Hc. fold key.
      rewrite (bool_decide_eq_false_2 (key ∈ l)) by done.
      rewrite (bool_decide_eq_false_2 (is_Some (p !! key)))
        by (rewrite Hp; intros [? H]; discriminate).
      cbn [orb]. rewrite Hf. reflexivity. }
    set (st1 := mkSt (Some chunks) true url (<[key := []]> p) l
                  (out ++ [mkMsg kind (chunkId ch) (url +:+ f)]) db).
    assert (Hwait : waitForChunk key caller st1
                    = (true, set_pending st1 (<[key := [caller]]> (pendingChunks st1)))).
    { unfold waitForChunk. cbn [loadedChunks pendingChunks st1].
      rewrite bool_decide_eq_false_2 by done. rewrite lookup_insert_eq. reflexivity. }
    assert (Hrest' : Forall (fun id => findChunkForId id st1 = Some ch) rest).
    { eapply Forall_impl; [exact Hrest|]. intros x Hx. rewrite <- Hx. reflexivity. }
    cbn [run_gets]. unfold getAssetBlob. rewrite Hid. cbv zeta.
    rewrite Hreq. fold st1. fold key. rewrite Hwait. cbv beta iota.
    pose proof (run_gets_waiting kind rest (caller + 1) ch st1 [caller] Hl Hrest') as Hrg.
    fold key in Hrg. rewrite Hrg.
    cbv beta iota. unfold set_pending.
    cbn [manifest worker baseUrl pendingChunks loadedChunks outbox idb st1].
    rewrite insert_insert_eq. reflexivity.
  - intros st m ok writes Hr Hin. split; intros ->.
    + apply requestChunk_busy. left. cbn. unfold msg_key. set_solver.
    + destruct (reachable_inv st Hr) as (_ & Hpend & _ & Hload). split; cbn.
      * apply lookup_delete_eq.
      * apply Hload, Hpend. exists m. done.
Qed.

Lemma requests_coalesce_witness :
  run_gets Thumbnails [0; 1; 2] 0 fresh_store =
    (repeat GWait 3,
     mkSt (manifest fresh_store) (worker fresh_store) (baseUrl fresh_store)
       (<[chunk_key Thumbnails (chunkId chunk0) := callers 0 3]> (pendingChunks fresh_store))
       (loadedChunks fresh_store)
       (outbox fresh_store ++
          [mkMsg Thumbnails (chunkId chunk0) (baseUrl fresh_store +:+ "thumbs-0.enc")])
       (idb fresh_store)).
Proof.
  exact (proj1 (proj2 requests_coalesce) fresh_store Thumbnails chunk0 [chunk0]
           "thumbs-0.enc" [0; 1; 2] 0 eq_refl eq_refl eq_refl eq_refl
           ltac:(apply not_elem_of_empty) eq_refl ltac:(repeat constructor)
           ltac:(discriminate)).
Defined.

(** C10 (amended).  On a cache miss [getAssetBlob] settles with [null] or
    waits on an answerable fetch: an id in no chunk's range settles with
    [null] at once; an id whose chunk has no file of the kind posts nothing,
    resumes at once and rereads the (missing) entry, [null]; a caller left
    waiting is registered on a key with a posted message.  A failure reply
    for that message wakes every waiter and clears the key; the reread then
    gives what the cache held for an id the worker did not store, and a
    blob, not [null], for an id it stored before failing. *)
Theorem getAssetBlob_settles {Blob : Type} :
  (forall (st : St (Blob:=Blob)) kind id caller,
     findChunkForId id st = None ->
     getAssetBlob kind id caller None st = (GReturn None, st)) /\
  (forall (st : St (Blob:=Blob)) kind id caller ch chunks,
     reachable st -> manifest st = Some chunks ->
     findChunkForId id st = Some ch ->
     chunks !! N.to_nat (chunkId ch) = Some ch ->
     Disk.truthy (file_of kind ch) = None ->
     idb st kind id = None ->
     getAssetBlob kind id caller None st = (GReread, st) /\ reread kind id st = None) /\
  (forall (st st' : St (Blob:=Blob)) kind id caller,
     reachable st -> getAssetBlob kind id caller None st = (GWait, st') ->
     exists ch m ws, findChunkForId id st = Some ch /\
       msg_key m = chunk_key kind (chunkId ch) /\ In m (outbox st') /\
       pendingChunks st' !! msg_key m = Some ws /\ In caller ws) /\
  (forall (st : St (Blob:=Blob)) m writes ws kind id,
     reachable st -> In m (outbox st) -> pendingChunks st !! msg_key m = Some ws ->
     fst (handle_reply m false writes st) = ws /\
     pendingChunks (snd (handle_reply m false writes st)) !! msg_key m = None /\
     (msg_key m ∉ loadedChunks (snd (handle_reply m false writes st))) /\
     ((kind <> fm_kind m \/ ~ In id (map fst writes)) ->
      reread kind id (snd (handle_reply m false writes st)) = reread kind id st) /\
     (kind = fm_kind m -> In id (map fst writes) ->
      is_Some (reread kind id (snd (handle_reply m false writes st))))).
Proof.
  split; [|split; [|split]].
  - intros st kind id caller H. unfold getAssetBlob. rewrite H. done.
  - intros st kind id caller ch chunks Hr Hman Hfind Hc Hf Hdb.
    destruct (reachable_inv st Hr) as (_ & Hpend & Hmsg & _).
    assert (Hreq : requestChunk kind (chunkId ch) st = st).
    { unfold requestChunk. rewrite Hman. destruct (worker st); [|done]. cbn.
      rewrite Hc. destruct (_ || _); [done|]. rewrite Hf. done. }
    assert (Hnp : pendingChunks st !! chunk_key kind (chunkId ch) = None).
    { destruct (pendingChunks st !! _) as [ws|] eqn:Hws; [|done]. exfalso.
      destruct (proj1 (Hpend _) (ex_intro _ ws Hws)) as (m & Hm & Hk).
      destruct (Hmsg m Hm) as (chunks' & c & f & Hman' & Hc' & Hf').
      apply chunk_key_inj in Hk as [Hk1 Hk2].
      rewrite Hman in Hman'. injection Hman' as <-.
      rewrite Hk2, Hc in Hc'. injection Hc' as <-.
      rewrite Hk1, Hf in Hf'. discriminate. }
    split; [|exact Hdb].
    unfold getAssetBlob. rewrite Hfind. cbv zeta. rewrite Hreq.
    unfold waitForChunk. case_bool_decide; [done|]. rewrite Hnp. done.
  - intros st st' kind id caller Hr H.
    assert (Hr' : reachable st').
    { apply (reach_step st); [done|].
      replace st' with (snd (getAssetBlob kind id caller None st)) by (rewrite H; done).
      constructor. }
    unfold getAssetBlob in H.
    destruct (findChunkForId id st) as [ch|] eqn:Hfind; [|discriminate].
    cbv zeta in H.
    destruct (waitForChunk (chunk_key kind (chunkId ch)) caller
                (requestChunk kind (chunkId ch) st)) as [w st2] eqn:Hw.
    destruct w; [|discriminate]. injection H as <-.
    unfold waitForChunk in Hw. case_bool_decide; [discriminate|].
    destruct (pendingChunks (requestChunk kind (chunkId ch) st) !! _) as [ws|] eqn:Hws;
      [|discriminate].
    injection Hw as <-.
    destruct (reachable_inv _ Hr') as (_ & Hpend & _).
    assert (Hs : pendingChunks (set_pending (requestChunk kind (chunkId ch) st)
              (<[chunk_key kind (chunkId ch) := ws ++ [caller]]>
                 (pendingChunks (requestChunk kind (chunkId ch) st))))
              !! chunk_key kind (chunkId ch) = Some (ws ++ [caller]))
      by (cbn; apply lookup_insert_eq).
    destruct (proj1 (Hpend _) (ex_intro _ _ Hs)) as (m & Hm & Hk).
    exists ch, m, (ws ++ [caller]). rewrite Hk.
    split; [done|]. split; [done|]. split; [done|]. split; [exact Hs|].
    apply in_app_iff. right. left. done.
  - intros st m writes ws kind id Hr Hin Hws.
    destruct (reachable_inv st Hr) as (_ & Hpend & _ & Hload).
    split; [cbn; rewrite Hws; done|].
    split; [cbn; apply lookup_delete_eq|].
    split; [cbn; apply Hload; eexists; exact Hws|].
    split.
    + intros Hid. unfold reread. cbn. apply put_all_other. done.
    + intros -> Hid. unfold reread. cbn. apply put_all_written. exact Hid.
Qed.

Lemma getAssetBlob_settles_witness :
  getAssetBlob Videos 5 0 None fresh_store = (GReturn None, fresh_store) /\
  getAssetBlob Videos 1 0 None fresh_store = (GReread, fresh_store) /\
  reread Videos 1 fresh_store = None.
Proof.
  split.
  - exact (proj1 getAssetBlob_settles fresh_store Videos 5 0 eq_refl).
  - exact (proj1 (proj2 getAssetBlob_settles) fresh_store Videos 1 0 chunk0 [chunk0]
             (reach_init [chunk0] "https://example.org/album/" (fun _ _ => None))
             eq_refl eq_refl eq_refl eq_refl eq_refl).
Defined.

(** C10 (as stated, refuted).  [handleFetchChunk] commits the chunk's
    blobs ([await tx.done]) before it writes [meta.json] in a second
    transaction; when that one fails (for instance a [meta.json] key that
    [parseInt] reads as [NaN], not a valid IndexedDB key) the catch replies
    [chunk-error].  The waiting [getThumbnailBlob(1)] is woken by the error
    reply and its reread finds the stored blob: it resolves to a blob, not
    to [null]. *)
Lemma C10_failed_fetch_returns_blob :
  fst (getAssetBlob Thumbnails 1 0 None fresh_store) = GWait /\
  In (mkMsg Thumbnails 0 ("https://example.org/album/" +:+ "thumbs-0.enc"))
     (outbox (snd (getAssetBlob Thumbnails 1 0 None fresh_store))) /\
  fst (handle_reply (mkMsg Thumbnails 0 ("https://example.org/album/" +:+ "thumbs-0.enc"))
         false [(0, tt); (1, tt); (2, tt)] (snd (getAssetBlob Thumbnails 1 0 None fresh_store)))
    = [0] /\
  reread Thumbnails 1
    (snd (handle_reply (mkMsg Thumbnails 0 ("https://example.org/album/" +:+ "thumbs-0.enc"))
            false [(0, tt); (1, tt); (2, tt)]
            (snd (getAssetBlob Thumbnails 1 0 None fresh_store))))
    = Some tt.
Proof.
  split; [vm_compute; reflexivity|].
  split; [vm_compute; left; reflexivity|].
  split; vm_compute; reflexivity.
Qed.

End StoreProofs.

(** * Further properties of the code *)

(** ** Planner: every entry lands in one chunk, in order *)
Section PlannerMore.
Context {E : Type} (eid : E -> N) (weight : E -> N) (max : N).

Lemma plan_loop_concat (es : list E) : forall cid start acc cur,
  es <> [] ->
  concat (map sealed_entries (plan_loop eid weight max es cid start acc cur)) = cur ++ es.
Proof.
  induction es as [|e rest IH]; intros cid start acc cur Hne; [congruence|].
  rewrite plan_loop_cons.
  destruct ((max <=? acc + weight e) || _) eqn:Hc.
  - cbn [map concat sealed_entries]. destruct rest as [|e' rest'].
    + cbn. rewrite app_nil_r. done.
    + rewrite IH by done. rewrite <- app_assoc. done.
  - destruct rest as [|e' rest']; [cbn in Hc; rewrite orb_true_r in Hc; discriminate|].
    rewrite IH by done. rewrite <- app_assoc. done.
Qed.

Lemma plan_loop_chunkId (es : list E) : forall cid start acc cur i s,
  plan_loop eid weight max es cid start acc cur !! i = Some s ->
  sealed_chunkId s = cid + N.of_nat i.
Proof.
  induction es as [|e rest IH]; intros cid start acc cur i s Hs; [done|].
  rewrite plan_loop_cons in Hs.
  destruct (_ || _).
  - destruct i as [|i]; cbn in Hs.
    + injection Hs as <-. cbn. lia.
    + apply IH in Hs. lia.
  - apply IH in Hs. done.
Qed.

Lemma last_id_cons (e e' : E) rest :
  last_id eid (e :: e' :: rest) = last_id eid (e' :: rest).
Proof. unfold last_id. rewrite last_cons_cons. done. Qed.

(** With strictly increasing ids the sealed ranges partition
    [start .. last id] and each chunk's range holds the ids of its
    entries. *)
Lemma plan_loop_incr (es : list E) : forall cid start acc cur k,
  es <> [] -> start <= k -> incr_from eid k es ->
  Forall (fun x => start <= eid x < k) cur ->
  covers start (last_id eid es)
    (map (fun s => (sealed_start s, sealed_end eid s))
       (plan_loop eid weight max es cid start acc cur)) /\
  Forall (fun s => Forall (fun x => sealed_start s <= eid x <= sealed_end eid s)
                     (sealed_entries s))
    (plan_loop eid weight max es cid start acc cur).
Proof.
  induction es as [|e rest IH]; intros cid start acc cur k Hne Hk Hinc Hcur;
    [congruence|].
  destruct Hinc as [He Hrest]. rewrite plan_loop_cons.
  assert (Hsealed : Forall (fun x => start <= eid x <= eid e) (cur ++ [e])).
  { apply Forall_app. split.
    - eapply Forall_impl; [exact Hcur|]. cbn. intros x Hx. lia.
    - constructor; [lia|constructor]. }
  destruct ((max <=? acc + weight e) || _) eqn:Hc.
  - destruct rest as [|e' rest'].
    + cbn [plan_loop map covers sealed_start]. rewrite sealed_end_snoc.
      unfold last_id. cbn [last]. split; [lia|].
      constructor; [|constructor]. cbn [sealed_entries sealed_start].
      rewrite sealed_end_snoc. exact Hsealed.
    + destruct (IH (cid + 1) (eid e + 1) 0 [] (eid e + 1) ltac:(done) ltac:(lia)
                  Hrest ltac:(constructor)) as [Hcov Hin].
      pose proof (plan_loop_nonempty eid weight max (e' :: rest') (cid + 1) (eid e + 1) 0 []
                    ltac:(done)) as Hnn.
      split.
      * cbn [map covers sealed_start]. rewrite sealed_end_snoc, last_id_cons.
        destruct (plan_loop eid weight max (e' :: rest') (cid + 1) (eid e + 1) 0 [])
          as [|s0 r0]; [congruence|].
        split; [done|split; [lia|exact Hcov]].
      * constructor; [|exact Hin]. cbn [sealed_entries sealed_start].
        rewrite sealed_end_snoc. exact Hsealed.
  - destruct rest as [|e' rest']; [cbn in Hc; rewrite orb_true_r in Hc; discriminate|].
    rewrite last_id_cons.
    apply (IH cid start (acc + weight e) (cur ++ [e]) (eid e + 1)); [done|lia|done|].
    eapply Forall_impl; [exact Hsealed|]. cbn. intros x Hx. lia.
Qed.

Lemma plan_incr (es : list E) :
  es <> [] -> incr_from eid 0 es ->
  covers 0 (last_id eid es)
    (map (fun s => (sealed_start s, sealed_end eid s)) (plan eid weight max es)) /\
  Forall (fun s => Forall (fun x => sealed_start s <= eid x <= sealed_end eid s)
                     (sealed_entries s)) (plan eid weight max es) /\
  concat (map sealed_entries (plan eid weight max es)) = es /\
  (forall i s, plan eid weight max es !! i = Some s -> sealed_chunkId s = N.of_nat i).
Proof.
  intros Hne Hinc. unfold plan.
  destruct (plan_loop_incr es 0 0 0 [] 0 Hne ltac:(lia) Hinc ltac:(constructor))
    as [H1 H2].
  split; [done|split; [done|split]].
  - rewrite plan_loop_concat by done. done.
  - intros i s Hs. apply plan_loop_chunkId in Hs. lia.
Qed.
End PlannerMore.

Lemma lookup_map_option {A B} (f : A -> B) (l : list A) k :
  map f l !! k = option_map f (l !! k).
Proof. revert k. induction l as [|x l IH]; intros [|k]; cbn; auto. Qed.

Lemma In_lookup {A} (x : A) (l : list A) : In x l -> exists k, l !! k = Some x.
Proof.
  induction l as [|y l IH]; cbn; [done|]. intros [->|Hx].
  - exists 0%nat. done.
  - destruct (IH Hx) as [k Hk]. exists (S k). done.
Qed.

Lemma covers_starts lo hi rs :
  covers lo hi rs -> Forall (fun r => lo <= fst r) rs.
Proof.
  revert lo. induction rs as [|[s e] rest IH]; intros lo H; cbn in H; [done|].
  destruct H as (-> & Hse & Hrest). constructor; [cbn; lia|].
  destruct rest as [|r rest']; [constructor|].
  eapply Forall_impl; [apply IH; exact Hrest|]. intros r' Hr'. cbn in *. lia.
Qed.

(** [findChunkForId]'s search on chunks whose ranges partition an
    interval returns the chunk whose range holds the id. *)
Lemma find_covers lo hi (cs : list ChunkInfo) k c id :
  covers lo hi (ranges cs) -> cs !! k = Some c -> startIndex c <= id <= endIndex c ->
  find (fun c => (startIndex c <=? id) && (id <=? endIndex c)) cs = Some c.
Proof.
  revert lo k. induction cs as [|c0 cs IH]; intros lo k Hcov Hk Hid; [done|].
  destruct k as [|k].
  - cbn in Hk. injection Hk as <-. cbn.
    rewrite (proj2 (N.leb_le _ _)) by lia. rewrite (proj2 (N.leb_le _ _)) by lia. done.
  - cbn in Hk. cbn in Hcov. destruct Hcov as (Hs0 & Hse0 & Hrest).
    destruct cs as [|c1 cs']; [done|]. change (covers (endIndex c0 + 1) hi (ranges (c1 :: cs'))) in Hrest.
    pose proof (covers_starts _ _ _ Hrest) as Hst.
    rewrite Forall_forall in Hst.
    specialize (Hst (startIndex c, endIndex c)).
    assert (Hmem : (startIndex c, endIndex c) ∈ ranges (c1 :: cs')).
    { apply list_elem_of_In. unfold ranges. apply (in_map (fun c => (startIndex c, endIndex c))).
      apply list_elem_of_In. eapply list_elem_of_lookup_2. exact Hk. }
    specialize (Hst Hmem).
    cbn in Hst. cbn [find].
    rewrite (proj2 (N.leb_gt id (endIndex c0))) by lia. rewrite andb_false_r.
    eapply IH; [exact Hrest|exact Hk|exact Hid].
Qed.

Lemma rec_set_keep {V} (k : string) (v : V) (r : list (string * V)) k' :
  In k' (map fst r) -> In k' (map fst (rec_set k v r)).
Proof.
  induction r as [|[k0 v0] r IH]; cbn; [done|].
  destruct (String.eqb k k') eqn:Hkk; [apply String.eqb_eq in Hkk; subst|].
  - destruct (String.eqb k' k0) eqn:Hk0; cbn; [by left|].
    intros [->|H]; [right; apply rec_set_in|right; auto].
  - destruct (String.eqb k k0) eqn:Hk0; cbn.
    + apply String.eqb_eq in Hk0. subst. intros [->|H]; [left; done|right; done].
    + intros [->|H]; [left; done|right; auto].
Qed.

Lemma disk_fold_thumbs_keep {Bytes} (fileBytes : string -> Bytes) es : forall r k,
  In k (map fst r.1.1.1) ->
  In k (map fst (fold_left (Disk.add_entry fileBytes) es r).1.1.1).
Proof.
  induction es as [|e es IH]; intros [[[t a] v] m] k Hk; cbn [fold_left]; [done|].
  apply IH. cbn. apply rec_set_keep. exact Hk.
Qed.

Lemma disk_fold_thumbs_in {Bytes} (fileBytes : string -> Bytes) es : forall r e,
  In e es -> In (thumb_key e) (map fst (fold_left (Disk.add_entry fileBytes) es r).1.1.1).
Proof.
  induction es as [|e0 es IH]; intros [[[t a] v] m] e He; [done|].
  destruct He as [<-|He]; cbn [fold_left].
  - apply disk_fold_thumbs_keep. cbn. apply rec_set_in.
  - apply IH. exact He.
Qed.

Lemma disk_seal_chunkId {Bytes} (fileBytes : string -> Bytes)
    (encodeMeta : list (string * (string * AssetType)) -> Bytes)
    (s : Sealed (E:=Disk.ChunkEntry)) :
  chunkId (fst (Disk.seal fileBytes encodeMeta s)) = sealed_chunkId s.
Proof.
  unfold Disk.seal.
  destruct (fold_left (Disk.add_entry fileBytes) (sealed_entries s) ([], [], [], []))
    as [[[t a] v] m].
  reflexivity.
Qed.

Lemma disk_seal_thumbs {Bytes} (fileBytes : string -> Bytes)
    (encodeMeta : list (string * (string * AssetType)) -> Bytes)
    (s : Sealed (E:=Disk.ChunkEntry)) e :
  In e (sealed_entries s) ->
  exists tf, In (Disk.mkWrite (thumbnailsFile (fst (Disk.seal fileBytes encodeMeta s))) tf)
               (snd (Disk.seal fileBytes encodeMeta s)) /\
             In (thumb_key e) (map fst tf).
Proof.
  intros He. pose proof (disk_fold_thumbs_in fileBytes _ ([], [], [], []) e He) as Hk.
  unfold Disk.seal.
  destruct (fold_left (Disk.add_entry fileBytes) (sealed_entries s) ([], [], [], []))
    as [[[t a] v] m].
  cbn in Hk |- *. eexists. split; [left; reflexivity|].
  apply rec_set_keep. exact Hk.
Qed.

Lemma disk_createChunks_locate {Bytes : Type} (fileSize : string -> N)
    (fileBytes : string -> Bytes)
    (encodeMeta : list (string * (string * AssetType)) -> Bytes) (max : N)
    (entries : list Disk.ChunkEntry) :
  entries <> [] -> incr_from Disk.id 0 entries ->
  let '(cs, ws) := Disk.createChunks_with fileSize fileBytes encodeMeta max entries in
  covers 0 (last_id Disk.id entries) (ranges cs) /\
  (forall k c, cs !! k = Some c -> chunkId c = N.of_nat k) /\
  (forall e, In e entries -> exists c tf,
     find (fun c => (startIndex c <=? Disk.id e) && (Disk.id e <=? endIndex c)) cs = Some c /\
     In (Disk.mkWrite (thumbnailsFile c) tf) ws /\
     In (thumb_key e) (map fst tf)).
Proof.
  intros Hne Hinc. unfold Disk.createChunks_with. cbn [fst snd].
  destruct (plan_incr Disk.id (Disk.weight fileSize) max entries Hne Hinc)
    as (Hcov & Hin & Hcat & Hid).
  set (ss := plan Disk.id (Disk.weight fileSize) max entries) in *.
  assert (Hr : ranges (map fst (map (Disk.seal fileBytes encodeMeta) ss))
               = map (fun s => (sealed_start s, sealed_end Disk.id s)) ss).
  { unfold ranges. rewrite !map_map. apply map_ext. intros s. apply disk_seal_range. }
  split; [rewrite Hr; exact Hcov|split].
  - intros k c Hk. rewrite map_map, lookup_map_option in Hk.
    destruct (ss !! k) as [s|] eqn:Hs; [|discriminate]. injection Hk as <-.
    rewrite disk_seal_chunkId. apply Hid. exact Hs.
  - intros e He. rewrite <- Hcat in He. apply in_concat in He as (l & Hl & He).
    apply in_map_iff in Hl as (s & <- & Hs).
    destruct (In_lookup s ss Hs) as [k Hk].
    destruct (disk_seal_thumbs fileBytes encodeMeta s e He) as (tf & Hw & Hkey).
    exists (fst (Disk.seal fileBytes encodeMeta s)), tf. split; [|split].
    + eapply find_covers; [rewrite Hr; exact Hcov| |].
      * rewrite map_map, lookup_map_option, Hk. reflexivity.
      * pose proof (disk_seal_range fileBytes encodeMeta s) as Hsr.
        injection Hsr as -> ->.
        rewrite Forall_forall in Hin. specialize (Hin s (proj2 (list_elem_of_In _ _) Hs)).
        rewrite Forall_forall in Hin. apply Hin. apply list_elem_of_In. exact He.
    + apply in_concat. exists (snd (Disk.seal fileBytes encodeMeta s)). split; [|exact Hw].
      rewrite map_map. apply in_map_iff. exists s. done.
    + exact Hkey.
Qed.

(** X1.  For entries whose ids are strictly increasing (gaps allowed, as
    when conversions failed), [createChunks] with any ceiling returns chunks
    whose ranges partition [0 .. last id], whose [chunkId] is their position
    in the list, and for every entry the range search of [findChunkForId]
    picks a chunk whose thumbnails archive holds that entry's thumbnail. *)
Theorem createChunks_locates_entries {Bytes : Type} (fileSize : string -> N)
    (fileBytes : string -> Bytes)
    (encodeMeta : list (string * (string * AssetType)) -> Bytes) (max : N)
    (entries : list Disk.ChunkEntry) :
  entries <> [] -> incr_from Disk.id 0 entries ->
  let '(cs, ws) := Disk.createChunks_with fileSize fileBytes encodeMeta max entries in
  covers 0 (last_id Disk.id entries) (ranges cs) /\
  (forall k c, cs !! k = Some c -> chunkId c = N.of_nat k) /\
  (forall e, In e entries -> exists c tf,
     find (fun c => (startIndex c <=? Disk.id e) && (Disk.id e <=? endIndex c)) cs = Some c /\
     In (Disk.mkWrite (thumbnailsFile c) tf) ws /\
     In (thumb_key e) (map fst tf)).
Proof.
  intros Hne Hinc.
  exact (disk_createChunks_locate fileSize fileBytes encodeMeta max entries Hne Hinc).
Qed.

Lemma createChunks_locates_entries_witness :
  incr_from Disk.id 0 gap_entries /\
  covers 0 (last_id Disk.id gap_entries)
    (ranges (fst (Disk.createChunks sizes_400MB no_bytes no_bytes gap_entries))).
Proof.
  assert (Hinc : incr_from Disk.id 0 gap_entries) by (cbn; lia).
  split; [exact Hinc|].
  pose proof (createChunks_locates_entries sizes_400MB no_bytes no_bytes
                Disk.MAX_CHUNK_SIZE gap_entries ltac:(discriminate) Hinc) as H.
  unfold Disk.createChunks.
  destruct (Disk.createChunks_with sizes_400MB no_bytes no_bytes Disk.MAX_CHUNK_SIZE
              gap_entries) as [cs ws].
  exact (proj1 H).
Defined.

(** ** tools/main.ts, step 5 *)
Section Step5Facts.
Context (join : string -> string -> string) (cacheDir : string).

Lemma build_entries_from_incr scanned completed : forall i k,
  k <= i -> incr_from Disk.id k (Main.build_entries_from join cacheDir i scanned completed).
Proof.
  induction scanned as [|a rest IH]; intros i k Hk; cbn; [done|].
  case_bool_decide.
  - cbn. split; [exact Hk|]. apply IH. lia.
  - apply IH. lia.
Qed.

Lemma build_entries_from_in scanned completed : forall i e,
  In e (Main.build_entries_from join cacheDir i scanned completed) <->
  exists j a, scanned !! j = Some a /\ i + N.of_nat j ∈ completed /\
              e = Main.entry_of join cacheDir (i + N.of_nat j) a.
Proof.
  induction scanned as [|a rest IH]; intros i e; cbn.
  - split; [done|]. intros (j & a & Hj & _). done.
  - assert (Hrest : In e (Main.build_entries_from join cacheDir (i + 1) rest completed) <->
            exists j a', (a :: rest) !! S j = Some a' /\ i + N.of_nat (S j) ∈ completed /\
                         e = Main.entry_of join cacheDir (i + N.of_nat (S j)) a').
    { rewrite IH. split.
      - intros (j & a' & Hj & Hc & He). exists j, a'.
        replace (i + N.of_nat (S j)) with (i + 1 + N.of_nat j) by lia. done.
      - intros (j & a' & Hj & Hc & He). exists j, a'.
        replace (i + 1 + N.of_nat j) with (i + N.of_nat (S j)) by lia. done. }
    case_bool_decide as Hi.
    + cbn [In]. rewrite Hrest. split.
      * intros [<-|(j & a' & H)]; [exists 0%nat, a; rewrite N.add_0_r; done|].
        eexists _, _. exact H.
      * intros ([|j] & a' & Hj & Hc & He).
        -- left. cbn in Hj. injection Hj as <-. rewrite N.add_0_r in He. done.
        -- right. exists j, a'. done.
    + rewrite Hrest. split.
      * intros (j & a' & H). eexists _, _. exact H.
      * intros ([|j] & a' & Hj & Hc & He).
        -- rewrite N.add_0_r in Hc. done.
        -- exists j, a'. done.
Qed.
End Step5Facts.

Lemma build_entries_facts (join : string -> string -> string) (cacheDir : string)
    (scanned : list Main.ScannedAsset) (completed : list N) :
  incr_from Disk.id 0 (Main.build_entries join cacheDir scanned completed) /\
  (forall e, In e (Main.build_entries join cacheDir scanned completed) <->
   exists i a, scanned !! i = Some a /\ N.of_nat i ∈ completed /\
               e = Main.entry_of join cacheDir (N.of_nat i) a).
Proof.
  split; [apply build_entries_from_incr; lia|].
  intros e. unfold Main.build_entries. rewrite build_entries_from_in. done.
Qed.

(** X2.  Step 5 of tools/main.ts builds its entries in strictly increasing
    id order, and they are exactly [entry_of i scanned[i]] for the indices
    [i] in [completedSet]: failed conversions are left out, nothing else. *)
Theorem build_entries_completed (join : string -> string -> string) (cacheDir : string)
    (scanned : list Main.ScannedAsset) (completed : list N) :
  incr_from Disk.id 0 (Main.build_entries join cacheDir scanned completed) /\
  (forall e, In e (Main.build_entries join cacheDir scanned completed) <->
   exists i a, scanned !! i = Some a /\ N.of_nat i ∈ completed /\
               e = Main.entry_of join cacheDir (N.of_nat i) a).
Proof. exact (build_entries_facts join cacheDir scanned completed). Qed.

(** X3.  Steps 5 and 6 of tools/main.ts composed with the viewer: for an
    asset index [i] whose conversion completed, once the manifest holds the
    chunks [createChunks] returned, [findChunkForId i] finds a chunk, and the
    thumbnails archive written for that chunk contains [thumb<i>.avif]. *)
Theorem completed_asset_found {Bytes Blob : Type} (join : string -> string -> string)
    (cacheDir : string) (fileSize : string -> N) (fileBytes : string -> Bytes)
    (encodeMeta : list (string * (string * AssetType)) -> Bytes)
    (scanned : list Main.ScannedAsset) (completed : list N)
    (i : nat) (a : Main.ScannedAsset) (st : Album.St (Blob:=Blob)) :
  scanned !! i = Some a -> N.of_nat i ∈ completed ->
  let '(cs, ws) := Disk.createChunks fileSize fileBytes encodeMeta
                     (Main.build_entries join cacheDir scanned completed) in
  Album.manifest st = Some cs ->
  exists c tf, Album.findChunkForId (N.of_nat i) st = Some c /\
    In (Disk.mkWrite (thumbnailsFile c) tf) ws /\
    In ("thumb" +:+ pretty (N.of_nat i) +:+ ".avif") (map fst tf).
Proof.
  intros Hi Hc.
  destruct (build_entries_facts join cacheDir scanned completed) as [Hinc Hin].
  assert (He : In (Main.entry_of join cacheDir (N.of_nat i) a)
                  (Main.build_entries join cacheDir scanned completed)).
  { apply Hin. exists i, a. done. }
  assert (Hne : Main.build_entries join cacheDir scanned completed <> []).
  { intros Hnil. rewrite Hnil in He. done. }
  pose proof (disk_createChunks_locate fileSize fileBytes encodeMeta Disk.MAX_CHUNK_SIZE
                _ Hne Hinc) as H.
  unfold Disk.createChunks.
  destruct (Disk.createChunks_with fileSize fileBytes encodeMeta Disk.MAX_CHUNK_SIZE
              (Main.build_entries join cacheDir scanned completed)) as [cs ws].
  intros Hm. destruct H as (_ & _ & Hloc).
  destruct (Hloc _ He) as (c & tf & Hf & Hw & Hk).
  exists c, tf. unfold Album.findChunkForId. rewrite Hm. done.
Qed.

Lemma completed_asset_found_witness :
  exists c tf, Album.findChunkForId 2 step5_store = Some c /\
    In (Disk.mkWrite (thumbnailsFile c) tf) (snd step5_chunks) /\
    In ("thumb" +:+ pretty 2 +:+ ".avif") (map fst tf).
Proof.
  pose proof (completed_asset_found (Blob:=unit) path_join "cache" sizes_400MB no_bytes
                no_bytes step5_scanned [0; 2] 2
                (Main.mkScanned Live "2024-01-03T00:00:00.000Z" (Some "c.heic") (Some "c.mov"))
                step5_store ltac:(reflexivity)
                ltac:(apply (bool_decide_eq_true_1 (N.of_nat 2 ∈ [0; 2])); vm_compute; reflexivity)) as H.
  unfold step5_store, step5_chunks in *.
  destruct (Disk.createChunks sizes_400MB no_bytes no_bytes
              (Main.build_entries path_join "cache" step5_scanned [0; 2])) as [cs ws].
  exact (H eq_refl).
Defined.

(** ** src/lib/worker/album-worker.ts: file names to ids *)
Module WorkerProofs.
Import Worker.

Lemma str_app_cons c (s t : string) : String c s +:+ t = String c (s +:+ t).
Proof. reflexivity. Qed.

Lemma str_app_nil_l (t : string) : EmptyString +:+ t = t.
Proof. reflexivity. Qed.

Lemma str_app_nil_r (s : string) : s +:+ EmptyString = s.
Proof. induction s as [|c s IH]; [done|]. rewrite str_app_cons, IH. done. Qed.

Lemma str_app_assoc (s1 s2 s3 : string) : s1 +:+ (s2 +:+ s3) = (s1 +:+ s2) +:+ s3.
Proof. induction s1 as [|c s IH]; [done|]. rewrite !str_app_cons, IH. done. Qed.

(** The first character of [r] is not in the class (or [r] is empty). *)
Definition stops (cls : Ascii.ascii -> bool) (r : string) : Prop :=
  match r with String c _ => cls c = false | EmptyString => True end.

Lemma star_greedy_max {A} cls (k : string -> string -> option A) r x (D : string) :
  forall taken,
  str_forallb cls D = true -> stops cls r -> k (taken +:+ D) r = Some x ->
  star_greedy cls taken (D +:+ r) k = Some x.
Proof.
  induction D as [|d D IH]; intros taken HD Hr Hk.
  - rewrite str_app_nil_r in Hk. rewrite str_app_nil_l.
    destruct r as [|c r']; cbn in Hr |- *; [done|]. rewrite Hr. done.
  - rewrite str_app_cons. cbn in HD |- *. apply andb_prop in HD as [Hd HD]. rewrite Hd.
    rewrite (IH (taken +:+ String d EmptyString) HD Hr); [done|].
    rewrite <- str_app_assoc. exact Hk.
Qed.

Lemma plus_greedy_max {A} cls (k : string -> string -> option A) r x (D : string) :
  D <> EmptyString -> str_forallb cls D = true -> stops cls r -> k D r = Some x ->
  plus_greedy cls (D +:+ r) k = Some x.
Proof.
  destruct D as [|d D]; intros Hne HD Hr Hk; [done|].
  rewrite str_app_cons. cbn in HD |- *. apply andb_prop in HD as [Hd HD]. rewrite Hd.
  apply star_greedy_max; done.
Qed.

Lemma exec_match (s d : string) : match_at s = Some d -> exec s = Some d.
Proof. intros H. destruct s; cbn [exec]; rewrite H; done. Qed.

Lemma exec_skip (p rest : string) :
  str_forallb (fun c => negb (is_digit c)) p = true -> exec (p +:+ rest) = exec rest.
Proof.
  induction p as [|c p IH]; intros Hp; [done|].
  cbn in Hp. apply andb_prop in Hp as [Hc Hp]. apply negb_true_iff in Hc.
  rewrite str_app_cons. cbn [exec].
  unfold match_at at 1, plus_greedy at 1. rewrite Hc. apply IH, Hp.
Qed.

Lemma pretty_N_char_digit x : is_digit (pretty_N_char x) = true.
Proof. unfold pretty_N_char. repeat case_match; reflexivity. Qed.

Lemma pretty_N_char_val x : x < 10 ->
  N.of_nat (Ascii.nat_of_ascii (pretty_N_char x) - 48) = x.
Proof.
  intros Hx.
  assert (x = 0 \/ x = 1 \/ x = 2 \/ x = 3 \/ x = 4 \/ x = 5 \/ x = 6 \/ x = 7
          \/ x = 8 \/ x = 9) as Hc by lia.
  repeat destruct Hc as [->|Hc]; try reflexivity. subst. reflexivity.
Qed.

Lemma pretty_N_go_digits x : forall s,
  str_forallb is_digit s = true -> str_forallb is_digit (pretty_N_go x s) = true.
Proof.
  induction (N.lt_wf_0 x) as [x _ IH]; intros s Hs.
  destruct (decide (x = 0)) as [->|Hx]; [by rewrite pretty_N_go_0|].
  rewrite pretty_N_go_step by lia. apply IH; [apply N.div_lt; lia|].
  cbn. rewrite pretty_N_char_digit. exact Hs.
Qed.

Lemma pretty_N_go_nonempty x : forall s, s <> EmptyString -> pretty_N_go x s <> EmptyString.
Proof.
  induction (N.lt_wf_0 x) as [x _ IH]; intros s Hs.
  destruct (decide (x = 0)) as [->|Hx]; [by rewrite pretty_N_go_0|].
  rewrite pretty_N_go_step by lia. apply IH; [apply N.div_lt; lia|done].
Qed.

Lemma parse_pretty_N_go x : forall s, parse_dec 0 (pretty_N_go x s) = parse_dec x s.
Proof.
  induction (N.lt_wf_0 x) as [x _ IH]; intros s.
  destruct (decide (x = 0)) as [->|Hx]; [by rewrite pretty_N_go_0|].
  rewrite pretty_N_go_step by lia. rewrite IH by (apply N.div_lt; lia).
  cbn [parse_dec]. rewrite pretty_N_char_val by (apply N.mod_lt; lia).
  f_equal. pose proof (N.div_mod x 10 ltac:(lia)). lia.
Qed.

Lemma pretty_digits (n : N) :
  pretty n <> EmptyString /\ str_forallb is_digit (pretty n) = true /\
  parse_dec 0 (pretty n) = n.
Proof.
  unfold pretty, pretty_N. case_decide as Hn; [subst; done|].
  split; [rewrite pretty_N_go_step by lia; apply pretty_N_go_nonempty; done|split].
  - apply pretty_N_go_digits. done.
  - rewrite parse_pretty_N_go. done.
Qed.

(** [extractId] inverts the naming [prefix ++ String(id) ++ "." ++ ext]
    whenever the prefix has no digit and the extension is a non-empty run
    of word characters. *)
Lemma extractId_name (prefix ext : string) (n : N) :
  str_forallb (fun c => negb (is_digit c)) prefix = true ->
  ext <> EmptyString -> str_forallb is_word ext = true ->
  extractId (prefix +:+ pretty n +:+ String "."%char ext) = Z.of_N n.
Proof.
  intros Hp Hne Hext. destruct (pretty_digits n) as (Hd1 & Hd2 & Hd3).
  unfold extractId. rewrite exec_skip by exact Hp.
  assert (Hm : match_at (pretty n +:+ String "."%char ext) = Some (pretty n)).
  { unfold match_at. apply plus_greedy_max; [done|done|reflexivity|].
    rewrite <- (str_app_nil_r ext).
    apply plus_greedy_max; [done|done|done|reflexivity]. }
  rewrite (exec_match _ _ Hm), Hd3. reflexivity.
Qed.

Lemma substring_0_length (s : string) : String.substring 0 (String.length s) s = s.
Proof. induction s as [|c s IH]; cbn; [done|by rewrite IH]. Qed.

Lemma substring_app_r (p s : string) :
  String.substring (String.length p) (String.length s) (p +:+ s) = s.
Proof.
  induction p as [|c p IH]; [apply substring_0_length|].
  rewrite str_app_cons. cbn. exact IH.
Qed.

Lemma length_str_app (p s : string) :
  String.length (p +:+ s) = (String.length p + String.length s)%nat.
Proof. induction p as [|c p IH]; [done|]. rewrite str_app_cons. cbn. by rewrite IH. Qed.

Lemma endsWith_app (p s : string) : endsWith (p +:+ s) s = true.
Proof.
  unfold endsWith. rewrite length_str_app.
  replace (String.length p + String.length s - String.length s)%nat
    with (String.length p) by lia.
  rewrite substring_app_r, String.eqb_refl. apply andb_true_intro; split; [|done].
  apply Nat.leb_le. lia.
Qed.

(** The last [length s + 1] characters of [p ++ s] for a non-empty [p]. *)
Lemma substring_app_last (p s : string) : p <> EmptyString ->
  exists c, String.substring (String.length p - 1) (S (String.length s)) (p +:+ s)
            = String c s.
Proof.
  induction p as [|c p IH]; intros Hne; [done|].
  destruct p as [|c' p'].
  - exists c. rewrite str_app_cons, str_app_nil_l. cbn. rewrite substring_0_length. done.
  - destruct (IH ltac:(done)) as [c0 Hc0]. exists c0.
    cbn [String.length] in *. replace (S (S (String.length p')) - 1)%nat
      with (S (S (String.length p') - 1)) by lia.
    rewrite (str_app_cons c). cbn [String.substring]. exact Hc0.
Qed.

Lemma mp4_not_avif (p : string) : p <> EmptyString ->
  endsWith (p +:+ ".mp4") ".avif" = false.
Proof.
  intros Hne. unfold endsWith. rewrite length_str_app.
  destruct (substring_app_last p ".mp4" Hne) as [c Hc].
  cbn [String.length] in Hc |- *.
  replace (String.length p + 4 - 5)%nat with (String.length p - 1)%nat by lia.
  rewrite Hc. apply andb_false_intro2.
  apply (proj2 (String.eqb_neq _ _)). intros H. injection H as _ H. discriminate H.
Qed.

(** X4.  For an asset id [n] (a JS number below 2^53), [extractId] maps the
    three archive member names the chunkers write, [thumb<n>.avif],
    [asset<n>.avif] and [video<n>.mp4], back to [n], and [mimeType] gives
    them [image/avif], [image/avif] and [video/mp4]. *)
Theorem member_names_roundtrip (n : N) :
  n < 2 ^ 53 ->
  (extractId ("thumb" +:+ pretty n +:+ ".avif") = Z.of_N n) /\
  (mimeType ("thumb" +:+ pretty n +:+ ".avif") = "image/avif") /\
  (extractId ("asset" +:+ pretty n +:+ ".avif") = Z.of_N n) /\
  (mimeType ("asset" +:+ pretty n +:+ ".avif") = "image/avif") /\
  (extractId ("video" +:+ pretty n +:+ ".mp4") = Z.of_N n) /\
  (mimeType ("video" +:+ pretty n +:+ ".mp4") = "video/mp4").
Proof.
  intros _.
  assert (Hav : forall p, mimeType (p +:+ pretty n +:+ ".avif") = "image/avif").
  { intros p. unfold mimeType. rewrite str_app_assoc, endsWith_app. done. }
  split; [apply extractId_name; done|split; [apply Hav|split]].
  { apply extractId_name; done. }
  split; [apply Hav|split].
  { apply extractId_name; done. }
  unfold mimeType. rewrite str_app_assoc, mp4_not_avif, endsWith_app; [done|].
  rewrite str_app_cons. done.
Qed.

Lemma member_names_roundtrip_witness :
  12 < 2 ^ 53 /\ (extractId ("video" +:+ pretty 12 +:+ ".mp4") = 12%Z).
Proof.
  split; [lia|].
  exact (proj1 (proj2 (proj2 (proj2 (proj2 (member_names_roundtrip 12 ltac:(lia))))))).
Defined.
End WorkerProofs.

(** ** src/lib/crypto.ts: recent albums *)
Module RecentProofs.
Import Recent.

Lemma save_shape (a : string) (prev : list Elem) :
  let l := take 9 (filter (fun n => n <> EStr a) prev) in
  take 10 (EStr a :: filter (fun n => n <> EStr a) prev) = EStr a :: l /\
  (length l <= 9)%nat /\ (EStr a ∉ l) /\ l `sublist_of` prev /\
  (NoDup prev -> NoDup (EStr a :: l)).
Proof.
  cbn zeta. split; [reflexivity|]. split; [rewrite length_take; lia|].
  assert (Hsub : take 9 (filter (fun n => n <> EStr a) prev) `sublist_of`
                 filter (fun n => n <> EStr a) prev) by apply sublist_take.
  assert (Hnot : EStr a ∉ take 9 (filter (fun n => n <> EStr a) prev)).
  { intros Hin. eapply elem_of_sublist in Hin; [|exact Hsub].
    apply list_elem_of_filter in Hin as [Hne _]. done. }
  split; [exact Hnot|split].
  - etrans; [exact Hsub|]. apply sublist_filter.
  - intros Hnd. constructor; [exact Hnot|].
    eapply sublist_NoDup; [|exact Hsub]. apply NoDup_filter. exact Hnd.
Qed.

Lemma filter_not_in (a : Elem) (l : list Elem) :
  a ∉ l -> filter (fun n => n <> a) l = l.
Proof.
  induction l as [|x l IH]; intros Hn; [done|].
  rewrite filter_cons_True.
  - f_equal. apply IH. intros Hin. apply Hn. right. exact Hin.
  - intros ->. apply Hn. left.
Qed.

(** X5.  Whenever [getRecentAlbums] yields an array [prev],
    [saveRecentAlbum a] stores the array [a :: l] where [l] is
    [take 9 (filter (n <> a) prev)], [prev] without [a] in its order cut
    to 9 entries: [a] comes first and only
    once, at most 10 names are kept, and a list without duplicates stays
    without.  When the stored JSON is valid but not an array,
    [saveRecentAlbum] throws although [getRecentAlbums] returns it. *)
Theorem saveRecentAlbum_front (a : string) (item : option Item) :
  (forall prev, getRecentAlbums item = JArray prev ->
   let l := take 9 (filter (fun n => n <> EStr a) prev) in
   saveRecentAlbum a item = Some (Some (Json (JArray (EStr a :: l)))) /\
     (length l <= 9)%nat /\ (EStr a ∉ l) /\ l `sublist_of` prev /\
     (NoDup prev -> NoDup (EStr a :: l))) /\
  (getRecentAlbums item = JNonArray -> saveRecentAlbum a item = None).
Proof.
  unfold saveRecentAlbum, getRecentAlbums. split.
  - intros prev Hp. cbn zeta. rewrite Hp.
    destruct (save_shape a prev) as (Heq & H). rewrite Heq.
    split; [reflexivity|exact H].
  - intros Hp. rewrite Hp. reflexivity.
Qed.

(** X6.  Saving the same album twice stores what saving it once stores,
    and saving [a] then another album [b] leaves [b] first and [a]
    second. *)
Theorem saveRecentAlbum_idem_order (a b : string) (item item' : option Item) :
  saveRecentAlbum a item = Some item' ->
  saveRecentAlbum a item' = Some item' /\
  (b <> a -> exists l, saveRecentAlbum b item' = Some (Some (Json (JArray (EStr b :: EStr a :: l))))).
Proof.
  intros Hs. unfold saveRecentAlbum in Hs.
  destruct (match parse_item item with Some v => v | None => JArray [] end) as [prev|];
    [|discriminate].
  destruct (save_shape a prev) as (Heq & Hlen & Hnot & _). cbn zeta in *.
  rewrite Heq in Hs. injection Hs as <-.
  set (l := take 9 (filter (fun n => n <> EStr a) prev)) in *.
  split.
  - unfold saveRecentAlbum. cbn [parse_item].
    rewrite (filter_cons_False _ (EStr a)) by (intros Hn; apply Hn; reflexivity).
    rewrite filter_not_in by exact Hnot.
    rewrite take_ge by (cbn; lia). reflexivity.
  - intros Hba. unfold saveRecentAlbum. cbn [parse_item].
    rewrite filter_cons_True by congruence. cbn. eexists. reflexivity.
Qed.

Lemma saveRecentAlbum_front_witness :
  saveRecentAlbum "family" recent_item
    = Some (Some (Json (JArray (EStr "family" :: take 9 (filter (fun n => n <> EStr "family")
                                                        [EStr "trip"; EStr "family"]))))) /\
  saveRecentAlbum "family" recent_object = None.
Proof.
  split.
  - exact (proj1 (proj1 (saveRecentAlbum_front "family" recent_item)
                   [EStr "trip"; EStr "family"] ltac:(reflexivity))).
  - exact (proj2 (saveRecentAlbum_front "family" recent_object) ltac:(reflexivity)).
Defined.

Lemma saveRecentAlbum_idem_order_witness :
  saveRecentAlbum "family" recent_item
    = Some (Some (Json (JArray [EStr "family"; EStr "trip"]))) /\
  exists l, saveRecentAlbum "trip" (Some (Json (JArray [EStr "family"; EStr "trip"])))
            = Some (Some (Json (JArray (EStr "trip" :: EStr "family" :: l)))).
Proof.
  assert (Hs : saveRecentAlbum "family" recent_item
               = Some (Some (Json (JArray [EStr "family"; EStr "trip"])))) by reflexivity.
  split; [exact Hs|].
  exact (proj2 (saveRecentAlbum_idem_order "family" "trip" recent_item _ Hs)
           ltac:(discriminate)).
Defined.
End RecentProofs.

(** ** Month groups: tools/lib/converter.ts [generateManifest] and
    src/lib/crypto.ts [buildGroups] *)
Module ManifestProofs.
Import Manifest.

Section Loop.
Context (monthKey : string -> string).

Lemma repeat_succ_N {A} (x : A) (c : N) :
  repeat x (N.to_nat (c + 1)) = repeat x (N.to_nat c) ++ [x].
Proof.
  rewrite N2Nat.inj_add. cbn [N.to_nat Pos.to_nat Pos.iter_op].
  rewrite repeat_app. reflexivity.
Qed.

Lemma months_loop_some (dates : list string) : forall id M g,
  0 < count g -> startId g + count g = id ->
  exists ms, months_loop monthKey id dates (mg_date g) (Some g) M = Some (M ++ ms) /\
    keys_of ms = repeat (mg_date g) (N.to_nat (count g)) ++ map monthKey dates /\
    starts_from (startId g) ms /\ adj_distinct ms /\
    option_map mg_date (head ms) = Some (mg_date g).
Proof.
  induction dates as [|d rest IH]; intros id M g Hc Hid.
  - exists [g]. cbn. split; [done|]. unfold keys_of. cbn. rewrite !app_nil_r.
    split; [done|]. split; [split; [done|split; [done|done]]|done].
  - cbn [months_loop]. destruct (String.eqb (monthKey d) (mg_date g)) eqn:Hk; cbn [negb].
    + apply String.eqb_eq in Hk.
      destruct (IH (id + 1) M (mkMonth (mg_date g) (startId g) (count g + 1)))
        as (ms & Hrun & Hkeys & Hst & Had & Hhd); cbn [count startId]; [lia|lia|].
      exists ms. cbn [mg_date count startId] in *. split; [exact Hrun|]. split; [|done].
      rewrite Hkeys, repeat_succ_N, <- app_assoc. cbn. rewrite Hk. reflexivity.
    + destruct (IH (id + 1) (push_current M (Some g)) (mkMonth (monthKey d) id 1))
        as (ms & Hrun & Hkeys & Hst & Had & Hhd); cbn [count startId]; [lia|lia|].
      exists (g :: ms). cbn [push_current mg_date] in *. rewrite Hrun, <- app_assoc.
      split; [reflexivity|]. split.
      * unfold keys_of in *. cbn [map concat]. rewrite Hkeys. reflexivity.
      * split; [|split].
        -- cbn. split; [done|split; [done|]]. rewrite Hid. exact Hst.
        -- destruct ms as [|g2 ms']; [done|]. cbn in Hhd |- *. injection Hhd as Hhd.
           split; [|exact Had]. rewrite Hhd. intros He. rewrite He, String.eqb_refl in Hk.
           discriminate.
        -- done.
Qed.

Lemma generateManifest_groups (dates : list string) (cs : list ChunkInfo) :
  (forall d, monthKey d <> "") ->
  exists ms, generateManifest monthKey dates cs
             = Some (mkManifest (N.of_nat (length dates)) cs ms) /\
    keys_of ms = map monthKey dates /\ starts_from 0 ms /\ adj_distinct ms.
Proof.
  intros Hne. unfold generateManifest.
  destruct dates as [|d rest].
  - exists []. done.
  - cbn [months_loop]. destruct (String.eqb (monthKey d) "") eqn:Hk.
    { apply String.eqb_eq in Hk. destruct (Hne d Hk). }
    cbn [negb push_current]. change (0 + 1) with 1.
    destruct (months_loop_some rest 1 (push_current [] None) (mkMonth (monthKey d) 0 1))
      as (ms & Hrun & Hkeys & Hst & Had & _); cbn [count startId]; [lia|lia|].
    cbn [mg_date push_current] in *. rewrite Hrun. exists ms. split; [reflexivity|].
    split; [rewrite Hkeys; reflexivity|]. done.
Qed.
End Loop.

Lemma keys_of_length (ms : list MonthGroup) :
  length (keys_of ms) = foldr (fun g acc => N.to_nat (count g) + acc)%nat 0%nat ms.
Proof.
  unfold keys_of. induction ms as [|g ms IH]; cbn; [done|].
  rewrite length_app, repeat_length. cbn in IH. rewrite IH. done.
Qed.

Lemma seq_N_shift (k : N) (c : nat) : forall s,
  map (fun i => k + N.of_nat i) (seq s c) = map N.of_nat (seq (N.to_nat k + s) c).
Proof.
  induction c as [|c IH]; intros s; [done|]. cbn [seq map].
  rewrite IH, Nat.add_succ_r. f_equal. lia.
Qed.

Lemma group_ids (k : N) (ms : list MonthGroup) :
  starts_from k ms ->
  concat (map (fun month => map ga_id
             (map (fun i => mkGAsset (startId month + N.of_nat i) (mg_date month) Photo)
                (seq 0 (N.to_nat (count month))))) ms)
  = map N.of_nat (seq (N.to_nat k) (length (keys_of ms))).
Proof.
  revert k. induction ms as [|g ms IH]; intros k Hs; [done|].
  destruct Hs as (Hst & Hc & Hs). cbn [map concat].
  rewrite (IH _ Hs).
  assert (Hl : length (keys_of (g :: ms)) = (N.to_nat (count g) + length (keys_of ms))%nat).
  { unfold keys_of. cbn [map concat]. rewrite length_app, repeat_length. done. }
  rewrite Hl, seq_app, map_app. f_equal.
  - rewrite map_map. cbn [ga_id]. rewrite Hst, seq_N_shift, Nat.add_0_r. done.
  - rewrite N2Nat.inj_add. done.
Qed.

Lemma concat_rev_perm {A} (L : list (list A)) : concat (rev L) ≡ₚ concat L.
Proof.
  induction L as [|x L IH]; [done|]. cbn [rev concat].
  rewrite concat_app. cbn [concat]. rewrite app_nil_r.
  rewrite (Permutation_app_comm (concat (rev L)) x). apply Permutation_app_head, IH.
Qed.

Lemma buildGroups_ids (m : Manifest) :
  starts_from 0 (months m) ->
  listed_ids (buildGroups m) ≡ₚ map N.of_nat (seq 0 (length (keys_of (months m)))).
Proof.
  intros Hs. unfold listed_ids, buildGroups. rewrite map_map, map_rev.
  rewrite concat_rev_perm. rewrite (group_ids 0 _ Hs). reflexivity.
Qed.

Lemma elem_of_seq_N (x : N) (n : nat) :
  x ∈ map N.of_nat (seq 0 n) <-> x < N.of_nat n.
Proof.
  rewrite list_elem_of_In, in_map_iff. split.
  - intros (j & <- & Hj). apply in_seq in Hj. lia.
  - intros Hx. exists (N.to_nat x). split; [lia|]. apply in_seq. lia.
Qed.

(** X7.  [generateManifest] groups the dates into months: reading each
    group's month [count] times, in order, gives the month key of every
    date; the groups are non-empty, start at id 0 and each starts where the
    previous one ends (so the counts add up to [totalAssets], the number of
    dates), and adjacent groups have different months. *)
Theorem generateManifest_months (monthKey : string -> string) (dates : list string)
    (cs : list ChunkInfo) :
  (forall d, monthKey d <> "") ->
  exists ms, generateManifest monthKey dates cs
             = Some (mkManifest (N.of_nat (length dates)) cs ms) /\
    keys_of ms = map monthKey dates /\ starts_from 0 ms /\ adj_distinct ms.
Proof. intros Hne. exact (generateManifest_groups monthKey dates cs Hne). Qed.

Lemma manifest_listed (monthKey : string -> string) (dates : list string)
    (cs : list ChunkInfo) :
  (forall d, monthKey d <> "") ->
  exists m, generateManifest monthKey dates cs = Some m /\
    totalAssets m = N.of_nat (length dates) /\
    listed_ids (buildGroups m) ≡ₚ map N.of_nat (seq 0 (length dates)).
Proof.
  intros Hne. destruct (generateManifest_groups monthKey dates cs Hne)
    as (ms & Hg & Hkeys & Hst & _).
  eexists. split; [exact Hg|]. split; [reflexivity|].
  rewrite buildGroups_ids by exact Hst. cbn [months]. rewrite Hkeys, length_map. done.
Qed.

(** X8.  The gallery that [buildGroups] makes from a generated manifest
    lists every id [0 .. totalAssets - 1] exactly once (newest month
    first), and no other id. *)
Theorem buildGroups_lists_ids (monthKey : string -> string) (dates : list string)
    (cs : list ChunkInfo) :
  (forall d, monthKey d <> "") ->
  exists m, generateManifest monthKey dates cs = Some m /\
    totalAssets m = N.of_nat (length dates) /\
    listed_ids (buildGroups m) ≡ₚ map N.of_nat (seq 0 (length dates)).
Proof. intros Hne. exact (manifest_listed monthKey dates cs Hne). Qed.

Lemma build_dates_length (join : string -> string -> string) (cacheDir : string)
    (scanned : list Main.ScannedAsset) (completed : list N) : forall i,
  length (Main.build_dates_from i scanned completed)
  = length (Main.build_entries_from join cacheDir i scanned completed).
Proof.
  induction scanned as [|a rest IH]; intros i; cbn; [done|].
  case_bool_decide; cbn; rewrite IH; done.
Qed.

Lemma incr_from_ge {E} (eid : E -> N) (k : N) (es : list E) :
  incr_from eid k es -> Forall (fun e => k <= eid e) es.
Proof.
  revert k. induction es as [|e es IH]; intros k H; cbn in H; constructor; [lia|].
  destruct H as [Hk H]. eapply Forall_impl; [exact (IH _ H)|]. cbn. lia.
Qed.

Lemma incr_from_nodup {E} (eid : E -> N) (k : N) (es : list E) :
  incr_from eid k es -> NoDup (map eid es).
Proof.
  revert k. induction es as [|e es IH]; intros k H; cbn in H |- *; [constructor|].
  destruct H as [Hk H]. constructor; [|exact (IH _ H)].
  intros Hin. apply list_elem_of_In, in_map_iff in Hin as (x & Hx & Hxin).
  pose proof (proj1 (List.Forall_forall _ _) (incr_from_ge eid _ es H) x Hxin). cbn in *. lia.
Qed.

Lemma seq_N_nodup (k : nat) : NoDup (map N.of_nat (seq 0 k)).
Proof.
  apply NoDup_ListNoDup. apply Finite.Injective_map_NoDup; [|apply seq_NoDup].
  intros x y. apply Nat2N.inj.
Qed.

(** X9.  tools/main.ts builds the manifest from the dates of the completed
    assets only, while the chunk entries keep the scan indices as ids.  So
    the gallery lists the ids [0 .. k - 1], [k] the number of entries, and
    an entry is listed exactly when its id is below [k].  When a conversion
    failed and a later asset completed, the gallery lists an id that no
    entry has. *)
Theorem gallery_ids_vs_entries (monthKey : string -> string)
    (join : string -> string -> string) (cacheDir : string)
    (scanned : list Main.ScannedAsset) (completed : list N) (cs : list ChunkInfo) :
  (forall d, monthKey d <> "") ->
  let entries := Main.build_entries join cacheDir scanned completed in
  exists m, generateManifest monthKey (Main.build_dates scanned completed) cs = Some m /\
    listed_ids (buildGroups m) ≡ₚ map N.of_nat (seq 0 (length entries)) /\
    (forall i a, scanned !! i = Some a -> N.of_nat i ∈ completed ->
       In (Main.entry_of join cacheDir (N.of_nat i) a) entries /\
       (N.of_nat i ∈ listed_ids (buildGroups m) <-> N.of_nat i < N.of_nat (length entries))) /\
    (forall f i, (f < i < length scanned)%nat -> N.of_nat f ∉ completed ->
       N.of_nat i ∈ completed ->
       exists j, j ∈ listed_ids (buildGroups m) /\ j ∉ map Disk.id entries).
Proof.
  intros Hne entries.
  destruct (manifest_listed monthKey (Main.build_dates scanned completed) cs Hne)
    as (m & Hg & _ & Hperm).
  unfold Main.build_dates in Hperm. rewrite (build_dates_length join cacheDir) in Hperm.
  destruct (build_entries_facts join cacheDir scanned completed) as [Hinc Hin].
  exists m. split; [exact Hg|]. split; [exact Hperm|]. split.
  { intros i a Hi Hc. split.
    - apply Hin. exists i, a. done.
    - rewrite Hperm. apply elem_of_seq_N. }
  intros f i [Hfi Hil] Hf Hi.
  set (ids := map Disk.id entries).
  set (L := map N.of_nat (seq 0 (length entries))).
  assert (Hids : forall n, n ∈ ids -> n ∈ completed).
  { intros n Hn. apply list_elem_of_In, in_map_iff in Hn as (e & <- & He).
    apply Hin in He as (i' & a' & _ & Hc & ->). exact Hc. }
  assert (Hiids : N.of_nat i ∈ ids).
  { destruct (lookup_lt_is_Some_2 scanned i Hil) as [a Ha].
    apply list_elem_of_In, in_map_iff. exists (Main.entry_of join cacheDir (N.of_nat i) a).
    split; [reflexivity|]. apply Hin. exists i, a. done. }
  destruct (decide (Forall (fun j => j ∈ ids) L)) as [Hall|Hnot].
  - exfalso.
    assert (HLids : L ≡ₚ ids).
    { apply submseteq_length_Permutation.
      - apply NoDup_submseteq; [apply seq_N_nodup|]. intros x Hx.
        exact (proj1 (Forall_forall _ _) Hall x Hx).
      - unfold L, ids. rewrite !length_map, length_seq. lia. }
    rewrite <- HLids in Hiids. unfold L in Hiids.
    apply list_elem_of_In, in_map_iff in Hiids as (i' & Hi' & Hseq).
    apply Nat2N.inj in Hi'. subst i'. apply in_seq in Hseq.
    apply Hf, Hids. rewrite <- HLids. unfold L.
    apply list_elem_of_In, in_map_iff. exists f. split; [reflexivity|].
    apply in_seq. lia.
  - apply not_Forall_Exists in Hnot; [|apply _].
    apply Exists_exists in Hnot as (j & Hj & Hnj).
    exists j. split; [rewrite Hperm; exact Hj | exact Hnj].
Qed.

Lemma utc_monthKey_nonempty (d : string) : utc_monthKey d <> "".
Proof.
  unfold utc_monthKey. intros H. apply (f_equal String.length) in H.
  rewrite WorkerProofs.length_str_app in H. cbn in H. lia.
Qed.

Lemma generateManifest_months_witness :
  exists ms, generateManifest utc_monthKey month_dates []
             = Some (mkManifest (N.of_nat (length month_dates)) [] ms) /\
    ms = [mkMonth "2024-01-01" 0 2; mkMonth "2024-02-01" 2 1].
Proof.
  destruct (generateManifest_months utc_monthKey month_dates [] utc_monthKey_nonempty)
    as (ms & Hg & _).
  exists ms. split; [exact Hg|].
  assert (Hc : generateManifest utc_monthKey month_dates []
               = Some (mkManifest 3 [] [mkMonth "2024-01-01" 0 2; mkMonth "2024-02-01" 2 1]))
    by (vm_compute; reflexivity).
  rewrite Hg in Hc. injection Hc as Hc. exact Hc.
Defined.

Lemma buildGroups_lists_ids_witness :
  exists m, generateManifest utc_monthKey month_dates [] = Some m /\
    listed_ids (buildGroups m) = [2; 0; 1].
Proof.
  destruct (buildGroups_lists_ids utc_monthKey month_dates [] utc_monthKey_nonempty)
    as (m & Hg & _).
  exists m. split; [exact Hg|].
  assert (Hm : Some m = generateManifest utc_monthKey month_dates []) by (symmetry; exact Hg).
  vm_compute in Hm. injection Hm as ->. vm_compute. reflexivity.
Defined.

Lemma gallery_ids_vs_entries_witness :
  exists m, generateManifest utc_monthKey (Main.build_dates step5_scanned [0; 2]) [] = Some m /\
    In (Main.entry_of path_join "cache" 2 step5_live)
       (Main.build_entries path_join "cache" step5_scanned [0; 2]) /\
    (2 ∉ listed_ids (buildGroups m)) /\
    (exists j, j ∈ listed_ids (buildGroups m) /\
      j ∉ map Disk.id (Main.build_entries path_join "cache" step5_scanned [0; 2])).
Proof.
  destruct (gallery_ids_vs_entries utc_monthKey path_join "cache" step5_scanned [0; 2] []
              utc_monthKey_nonempty) as (m & Hg & _ & Hall & Hmiss).
  destruct (Hall 2%nat step5_live ltac:(reflexivity)
              ltac:(apply (bool_decide_eq_true_1 (N.of_nat 2 ∈ [0; 2])); vm_compute; reflexivity))
    as [Hin Hiff].
  exists m. split; [exact Hg|]. split; [exact Hin|]. split.
  - rewrite Hiff. vm_compute. discriminate.
  - apply (Hmiss 1%nat 2%nat).
    + cbn. lia.
    + apply (bool_decide_eq_true_1 (N.of_nat 1 ∉ [0; 2])). vm_compute. reflexivity.
    + apply (bool_decide_eq_true_1 (N.of_nat 2 ∈ [0; 2])). vm_compute. reflexivity.
Defined.
End ManifestProofs.

Module ParProofs.
Import Par.
Local Open Scope nat_scope.

Section Inv.
Context {Out : Type} (len count : nat).

Definition pinv (st : PState Out) : Prop :=
  length (results st) = len /\ length (workers st) = count /\ next st <= len /\
  calls st = seq 0 (next st) /\
  (forall i, next st <= i < len -> results st !! i = Some None) /\
  (forall i, i < next st ->
     (exists o, results st !! i = Some (Some o)) \/
     (exists w, workers st !! w = Some (WAwait i))) /\
  (forall w i, workers st !! w = Some (WAwait i) -> i < next st) /\
  (forall w, workers st !! w = Some WDone -> next st = len).

Lemma pinv_init : pinv (init len count).
Proof.
  unfold pinv, init; cbn.
  rewrite !length_replicate. repeat split; try lia.
  - intros i Hi. apply lookup_replicate_2. lia.
  - intros w i Hw. apply lookup_replicate_1 in Hw as [Hw _]. discriminate.
  - intros w Hw. apply lookup_replicate_1 in Hw as [Hw _]. discriminate.
Qed.

Lemma pinv_step st st' : pinv st -> pstep len st st' -> pinv st'.
Proof.
  intros (Hr & Hw & Hn & Hc & Hun & Hset & Haw & Hdn) Hs.
  inversion Hs as [w st0 Hl Hlt | w st0 Hl Hge | w i o st0 Hl]; subst; unfold pinv; cbn.
  - rewrite !length_insert. repeat split; try lia.
    + rewrite Hc. symmetry. exact (seq_S (next st) 0).
    + intros i Hi. apply Hun. lia.
    + intros i Hi. destruct (decide (i = next st)) as [->|Hne].
      * right. exists w. apply list_lookup_insert_eq. eapply lookup_lt_Some; eauto.
      * destruct (Hset i ltac:(lia)) as [? | [w' Hw']]; [left; assumption | right].
        exists w'. rewrite list_lookup_insert_ne; [assumption |].
        intros ->. congruence.
    + intros w' i Hw'. destruct (decide (w' = w)) as [->|Hne].
      * rewrite list_lookup_insert_eq in Hw' by (eapply lookup_lt_Some; eauto).
        injection Hw' as <-. lia.
      * rewrite list_lookup_insert_ne in Hw' by congruence. apply Haw in Hw'. lia.
    + intros w' Hw'. destruct (decide (w' = w)) as [->|Hne].
      * rewrite list_lookup_insert_eq in Hw' by (eapply lookup_lt_Some; eauto). discriminate.
      * rewrite list_lookup_insert_ne in Hw' by congruence. apply Hdn in Hw'. lia.
  - rewrite !length_insert. repeat split; try lia; try assumption.
    + intros i Hi. destruct (Hset i Hi) as [? | [w' Hw']]; [left; assumption | right].
      exists w'. rewrite list_lookup_insert_ne; [assumption |]. intros ->. congruence.
    + intros w' i Hw'. destruct (decide (w' = w)) as [->|Hne].
      * rewrite list_lookup_insert_eq in Hw' by (eapply lookup_lt_Some; eauto). discriminate.
      * rewrite list_lookup_insert_ne in Hw' by congruence. eauto.
  - assert (Hi : i < next st) by eauto.
    rewrite !length_insert. repeat split; try lia; try assumption.
    + intros i' Hi'. rewrite list_lookup_insert_ne by lia. auto.
    + intros i' Hi'. destruct (decide (i' = i)) as [->|Hne].
      * left. exists o. apply list_lookup_insert_eq. lia.
      * rewrite list_lookup_insert_ne by congruence.
        destruct (Hset i' Hi') as [? | [w' Hw']]; [left; assumption | right].
        exists w'. destruct (decide (w' = w)) as [->|Hne'].
        -- congruence.
        -- rewrite list_lookup_insert_ne by congruence. assumption.
    + intros w' i' Hw'. destruct (decide (w' = w)) as [->|Hne].
      * rewrite list_lookup_insert_eq in Hw' by (eapply lookup_lt_Some; eauto). discriminate.
      * rewrite list_lookup_insert_ne in Hw' by congruence. eauto.
    + intros w' Hw'. destruct (decide (w' = w)) as [->|Hne].
      * rewrite list_lookup_insert_eq in Hw' by (eapply lookup_lt_Some; eauto). discriminate.
      * rewrite list_lookup_insert_ne in Hw' by congruence. eauto.
Qed.

Lemma preach_pinv st : preach len count st -> pinv st.
Proof.
  induction 1; [apply pinv_init | eapply pinv_step; eauto].
Qed.

End Inv.

(** Termination measure: two per unclaimed index, and per worker two for
    [WLoop], three for [WAwait], nothing for [WDone]. *)
Definition wweight (w : WState) : nat :=
  match w with WLoop => 2 | WAwait _ => 3 | WDone => 0 end.

Definition measure {Out} (len : nat) (st : PState Out) : nat :=
  2 * (len - next st) + sum_list_with wweight (workers st).

Lemma sum_insert (l : list WState) w x y :
  l !! w = Some y ->
  sum_list_with wweight (<[w:=x]> l) + wweight y = sum_list_with wweight l + wweight x.
Proof.
  revert w; induction l as [|a l IH]; intros [|w] H; try discriminate.
  - cbn in H. injection H as ->.
    assert (E : <[0:=x]> (y :: l) = x :: l) by reflexivity.
    rewrite E. cbn [sum_list_with]. lia.
  - cbn in H. specialize (IH w H).
    assert (E : <[S w:=x]> (a :: l) = a :: <[w:=x]> l) by reflexivity.
    rewrite E. cbn [sum_list_with]. lia.
Qed.

Lemma measure_step {Out} len (st st' : PState Out) :
  pstep len st st' -> measure len st' < measure len st.
Proof.
  intros Hs; inversion Hs as [w st0 Hl Hlt | w st0 Hl Hge | w i o st0 Hl]; subst;
    unfold measure; cbn.
  - pose proof (sum_insert _ _ (WAwait (next st)) _ Hl). cbn in *. lia.
  - pose proof (sum_insert _ _ WDone _ Hl). cbn in *. lia.
  - pose proof (sum_insert _ _ WLoop _ Hl). cbn in *. lia.
Qed.

Lemma measure_acc {Out} len n (st : PState Out) :
  measure len st < n -> Acc (fun b a => pstep len a b) st.
Proof.
  revert st; induction n as [|n IH]; intros st Hm; [lia |].
  constructor. intros st' Hs. apply IH. pose proof (measure_step len st st' Hs). lia.
Qed.

Lemma workers_all_or_one (ws : list WState) :
  Forall (fun w => w = WDone) ws \/ exists k x, ws !! k = Some x /\ x <> WDone.
Proof.
  induction ws as [|a ws [IH | (k & x & Hk & Hx)]].
  - left. constructor.
  - destruct a.
    + right. exists 0, WLoop. split; [reflexivity | discriminate].
    + right. exists 0, (WAwait i). split; [reflexivity | discriminate].
    + left. constructor; [reflexivity | exact IH].
  - right. exists (S k), x. split; assumption.
Qed.

Lemma preach_no_workers {Out} len (st : PState Out) :
  preach len 0 st -> st = init len 0.
Proof.
  induction 1 as [|st st' _ IH Hs]; [reflexivity |].
  subst st. inversion Hs as [w ? Hl | w ? Hl | w ? ? ? Hl]; subst;
    unfold init in Hl; cbn in Hl; discriminate.
Qed.

(** mapParallel (tools/main.ts, lines 22-43): once [Promise.all] has
    resolved with at least one worker, [fn] has been called exactly once
    for each index [0 .. items.length - 1], in increasing order, and every
    slot of [results] holds a value or a caught error (no hole is left). *)
Theorem mapParallel_each_once {Out} len count (st : PState Out) :
  (0 < count)%nat -> preach len count st -> all_done st ->
  calls st = seq 0 len /\ length (results st) = len /\
  (forall i, (i < len)%nat -> exists o, results st !! i = Some (Some o)).
Proof.
  intros Hc Hr Hd.
  destruct (preach_pinv len count st Hr) as (Hlr & Hlw & Hn & Hcl & Hun & Hset & Haw & Hdn).
  unfold all_done in Hd.
  destruct (lookup_lt_is_Some_2 (workers st) 0 ltac:(lia)) as [w0 Hw0].
  pose proof (Forall_lookup_1 _ _ _ _ Hd Hw0) as Hw0d. cbn in Hw0d. subst w0.
  specialize (Hdn 0%nat Hw0).
  rewrite Hcl, Hdn. split; [reflexivity | split; [assumption |]].
  intros i Hi. destruct (Hset i ltac:(lia)) as [Ho | [w Hw]]; [exact Ho |].
  pose proof (Forall_lookup_1 _ _ _ _ Hd Hw). discriminate.
Qed.

(** mapParallel: the workers never get stuck and never run forever.  In
    any reachable state either every worker has returned or some worker
    can move, and there is no infinite sequence of moves; so
    [Promise.all] resolves once each [fn] promise settles. *)
Theorem mapParallel_resolves {Out} len count (o : Out) (st : PState Out) :
  preach len count st ->
  (all_done st \/ exists st', pstep len st st') /\ Acc (fun b a => pstep len a b) st.
Proof.
  intros Hr. split; [| exact (measure_acc len (S (measure len st)) st (Nat.lt_succ_diag_r _))].
  destruct (workers_all_or_one (workers st)) as [Hd | (k & x & Hk & Hx)]; [left; exact Hd | right].
  destruct x as [| i |]; [| | congruence].
  - destruct (decide (next st < len)%nat).
    + eexists. eapply PClaim; eassumption.
    + eexists. eapply PExit; [eassumption | lia].
  - eexists. eapply (PSettle len k i o). eassumption.
Qed.

(** mapParallel with [concurrency] 0: [Array.from] makes no worker, so
    [Promise.all([])] resolves at once; [fn] is never called and every
    slot of [results] is still a hole. *)
Theorem mapParallel_no_workers {Out} len (st : PState Out) :
  preach len 0 st -> all_done st /\ calls st = [] /\ results st = replicate len None.
Proof.
  intros Hr. rewrite (preach_no_workers len st Hr).
  split; [constructor | split; reflexivity].
Qed.

End ParProofs.

Module CliProofs.
Import Cli Par ParProofs.

Lemma parse_args_step a v rest' c :
  parse_args (a :: v :: rest') c =
  if bool_decide (v <> "") then
    if bool_decide (a = "--password") then
      parse_args rest' (mkCli (sourceDir c) (outputPath c) (Some v) (albumName c) (jobs c))
    else if bool_decide (a = "--album") then
      parse_args rest' (mkCli (sourceDir c) (outputPath c) (password c) (Some v) (jobs c))
    else if bool_decide (a = "--jobs" \/ a = "-j") then
      parse_args rest' (mkCli (sourceDir c) (outputPath c) (password c) (albumName c)
                          (Some (parseInt10 v)))
    else parse_args (v :: rest') (positional a c)
  else parse_args (v :: rest') (positional a c).
Proof. reflexivity. Qed.

Lemma parse_args_jobs n rest c :
  (length rest <= n)%nat -> "-j" ∉ rest -> "--jobs" ∉ rest ->
  jobs (parse_args rest c) = jobs c.
Proof.
  revert rest c; induction n as [|n IH]; intros rest c Hl Hj Hjobs.
  - destruct rest; [reflexivity | cbn in Hl; lia].
  - destruct rest as [|a rest]; [reflexivity |].
    apply not_elem_of_cons in Hj as [Hja Hj], Hjobs as [Hjoa Hjobs].
    assert (Hpos : forall c', jobs (parse_args rest (positional a c')) = jobs c').
    { intros c'. rewrite IH; [| cbn in Hl; lia | assumption | assumption].
      unfold positional. destruct (truthy (sourceDir c')); reflexivity. }
    destruct rest as [|v rest'].
    + apply Hpos.
    + apply not_elem_of_cons in Hj as [Hjv Hj], Hjobs as [Hjov Hjobs]. rewrite parse_args_step.
      assert (Hrest : forall c', jobs (parse_args rest' c') = jobs c')
        by (intros c'; apply IH; [cbn in Hl; lia | tauto | tauto]).
      repeat case_bool_decide; try (rewrite Hrest; reflexivity); try apply Hpos.
      exfalso. match goal with H : _ \/ _ |- _ => destruct H; subst; congruence end.
Qed.

(** Command line and [mapParallel] (tools/main.ts, lines 96-108, 173 and
    42): [-j v] or [--jobs v] with a non-empty [v] sets [jobs] to
    [parseInt(v, 10)] (no later jobs flag); when that is [NaN] or [<= 0]
    (["abc"], ["0"], ["-2"], ["0x10"]) [Array.from] creates no worker, so
    [fn] is called for no asset and nothing is converted. *)
Theorem jobs_flag_no_workers {Out} flag v rest c avail :
  flag ∈ ["-j"; "--jobs"] -> v <> "" -> "-j" ∉ rest -> "--jobs" ∉ rest ->
  match parseInt10 v with None => True | Some z => (z <= 0)%Z end ->
  jobs (parse_args (flag :: v :: rest) c) = Some (parseInt10 v) /\
  worker_count (concurrency (parse_args (flag :: v :: rest) c) avail) = Some 0%nat /\
  (forall len (st : PState Out), preach len 0 st -> calls st = []).
Proof.
  intros Hf Hv Hj Hjobs Hz.
  assert (Hjv : jobs (parse_args (flag :: v :: rest) c) = Some (parseInt10 v)).
  { rewrite parse_args_step.
    rewrite elem_of_cons, elem_of_cons in Hf.
    destruct Hf as [-> | [-> | Hf]]; [| | apply not_elem_of_nil in Hf; contradiction];
      repeat case_bool_decide; try congruence; try tauto;
      rewrite (parse_args_jobs (length rest)) by (lia || assumption); reflexivity. }
  split; [exact Hjv | split].
  - unfold concurrency. rewrite Hjv. unfold worker_count.
    destruct (parseInt10 v) as [z|]; [| reflexivity].
    replace (z <=? 4294967295)%Z with true by (symmetry; apply Z.leb_le; lia).
    f_equal. destruct z; [reflexivity | lia | reflexivity].
  - intros len st Hr. rewrite (preach_no_workers len st Hr). reflexivity.
Qed.

End CliProofs.

Module ParWitnesses.
Import Par ParProofs Cli CliProofs.
Local Open Scope nat_scope.

(** One item, one worker: claim index 0, settle it with 7, exit. *)
Lemma par_run_one : preach (Out:=nat) 1 1 (mkP 1 [Some 7] [WDone] [0%nat]).
Proof.
  apply (PStep 1 1 (mkP 1 [Some 7] [WLoop] [0%nat])).
  - apply (PStep 1 1 (mkP 1 [None] [WAwait 0] [0%nat])).
    + apply (PStep 1 1 (init 1 1)); [apply PInit |].
      exact (PClaim 1 0 (init 1 1) eq_refl ltac:(cbn; lia)).
    + exact (PSettle 1 0 0 7 (mkP 1 [None] [WAwait 0] [0%nat]) eq_refl).
  - exact (PExit 1 0 (mkP 1 [Some 7] [WLoop] [0%nat]) eq_refl ltac:(cbn; lia)).
Qed.

Lemma mapParallel_each_once_witness :
  calls (mkP 1 [Some 7] [WDone] [0%nat]) = seq 0 1 /\
  length (results (mkP 1 [Some 7] [WDone] [0%nat])) = 1%nat /\
  (forall i, (i < 1)%nat -> exists o : nat, results (mkP 1 [Some 7] [WDone] [0%nat]) !! i = Some (Some o)).
Proof.
  apply (mapParallel_each_once 1 1); [lia | exact par_run_one |].
  unfold all_done; cbn. repeat constructor.
Defined.

Lemma mapParallel_resolves_witness :
  (all_done (init (Out:=nat) 2 2) \/ exists st', pstep 2 (init (Out:=nat) 2 2) st') /\
  Acc (fun b a => pstep 2 a b) (init (Out:=nat) 2 2).
Proof.
  exact (mapParallel_resolves 2 2 0 (init 2 2) (PInit 2 2)).
Defined.

Lemma mapParallel_no_workers_witness :
  all_done (init (Out:=nat) 3 0) /\ calls (init (Out:=nat) 3 0) = [] /\
  results (init (Out:=nat) 3 0) = replicate 3 None.
Proof.
  exact (mapParallel_no_workers 3 (init 3 0) (PInit 3 0)).
Defined.

(** [bun run tools/main.ts photos -j 0x10 --album a --password p]:
    [parseInt("0x10", 10)] is [0]. *)
Lemma jobs_flag_no_workers_witness :
  parseInt10 "0x10" = Some 0%Z /\
  jobs (parse_args ["-j"; "0x10"; "photos"; "--album"; "a"; "--password"; "p"] cli0) = Some (Some 0%Z) /\
  worker_count (concurrency (parse_args ["-j"; "0x10"; "photos"; "--album"; "a"; "--password"; "p"] cli0) 8)
    = Some 0%nat /\
  (forall len (st : PState nat), preach len 0 st -> calls st = []).
Proof.
  assert (Hp : parseInt10 "0x10" = Some 0%Z) by (vm_compute; reflexivity).
  split; [exact Hp |].
  rewrite <- Hp.
  apply (jobs_flag_no_workers "-j" "0x10" ["photos"; "--album"; "a"; "--password"; "p"] cli0 8).
  - apply (bool_decide_eq_true_1 ("-j" ∈ ["-j"; "--jobs"])). vm_compute. reflexivity.
  - discriminate.
  - apply (bool_decide_eq_true_1 ("-j" ∉ ["photos"; "--album"; "a"; "--password"; "p"])).
    vm_compute. reflexivity.
  - apply (bool_decide_eq_true_1 ("--jobs" ∉ ["photos"; "--album"; "a"; "--password"; "p"])).
    vm_compute. reflexivity.
  - rewrite Hp. lia.
Defined.

End ParWitnesses.

Module FlushProofs.
Import Flush.

Definition prefix_inv (st : FState) : Prop :=
  (forall f, file st = Some f -> f `prefix_of` completed st) /\
  (forall s, inflight st = Some s -> s `prefix_of` completed st).

Lemma prefix_inv_step b st st' : prefix_inv st -> fstep b st st' -> prefix_inv st'.
Proof.
  intros [Hf Hi] Hs. destruct Hs as [id st | st st' Hd | st st' _ Hd].
  - unfold complete, flush, prefix_inv; cbn.
    destruct (inflight st) as [s|] eqn:E; cbn; split.
    + intros f Hf'. apply prefix_app_r. auto.
    + intros s' [= <-]. apply prefix_app_r. auto.
    + intros f Hf'. apply prefix_app_r. auto.
    + intros s' [= <-]. reflexivity.
  - unfold write_done in Hd. destruct (inflight st) as [s|] eqn:E; [| discriminate].
    destruct (dirty st); injection Hd as <-; unfold prefix_inv; cbn; split.
    + intros f [= <-]. auto.
    + intros s' [= <-]. reflexivity.
    + intros f [= <-]. auto.
    + discriminate.
  - unfold write_failed in Hd. destruct (inflight st); [| discriminate].
    injection Hd as <-. unfold prefix_inv; cbn. split; discriminate.
Qed.

Lemma completed_grows b st st' : fstep b st st' -> completed st `prefix_of` completed st'.
Proof.
  intros Hs. destruct Hs as [id st | st st' Hd | st st' _ Hd].
  - unfold complete, flush. destruct (inflight st); cbn; apply prefix_app_r; reflexivity.
  - unfold write_done in Hd. destruct (inflight st); [| discriminate].
    destruct (dirty st); injection Hd as <-; reflexivity.
  - unfold write_failed in Hd. destruct (inflight st); [| discriminate].
    injection Hd as <-. reflexivity.
Qed.

Definition quiet_inv (st : FState) : Prop :=
  (inflight st = None -> file st = Some (completed st)) /\
  (forall s, inflight st = Some s -> s = completed st \/ dirty st = true).

Lemma quiet_inv_step st st' : quiet_inv st -> fstep false st st' -> quiet_inv st'.
Proof.
  intros [Hq Hd] Hs. destruct Hs as [id st | st st' Hw | st st' Hb _]; [| | discriminate].
  - unfold complete, flush, quiet_inv; cbn.
    destruct (inflight st) as [s|] eqn:E; cbn; split; try discriminate.
    + intros s' _. right. reflexivity.
    + intros s' [= <-]. left. reflexivity.
  - unfold write_done in Hw. destruct (inflight st) as [s|] eqn:E; [| discriminate].
    destruct (dirty st) eqn:D; injection Hw as <-; unfold quiet_inv; cbn; split.
    + discriminate.
    + intros s' [= <-]. left. reflexivity.
    + intros _. destruct (Hd s eq_refl) as [-> | ?]; [reflexivity | congruence].
    + discriminate.
Qed.

(** The progress file (tools/main.ts, lines 185-205 and 223-225), with
    writes that may fail: [progress.completed] only grows from the list
    the run started with, and whatever the file holds, and any write in
    flight, is a prefix of it.  So the file never lists an asset whose
    conversion has not finished, and a resumed run never skips one. *)
Theorem progress_file_prefix b c0 st :
  freach b c0 st ->
  c0 `prefix_of` completed st /\
  (forall f, file st = Some f -> f `prefix_of` completed st) /\
  (forall s, inflight st = Some s -> s `prefix_of` completed st).
Proof.
  induction 1 as [|st st' _ [Hc IH] Hs].
  - split; [reflexivity | split].
    + intros f [= <-]. reflexivity.
    + discriminate.
  - split; [etrans; [exact Hc | eapply completed_grows; eauto] |].
    apply (prefix_inv_step b st st'); assumption.
Qed.

Lemma quiet_inv_reach c0 st : freach false c0 st -> quiet_inv st.
Proof.
  induction 1 as [|st st' _ IH Hs].
  - split; [reflexivity | discriminate].
  - eapply quiet_inv_step; eauto.
Qed.

(** The batching of [flushProgress] when every write succeeds: whenever
    no write is in flight, the progress file holds every completed id;
    and once conversions stop, at most two more writes finish before the
    file holds the whole list and no write is left in flight. *)
Theorem flushProgress_catches_up c0 st :
  freach false c0 st ->
  (inflight st = None -> file st = Some (completed st)) /\
  file (drain 2 st) = Some (completed st) /\ inflight (drain 2 st) = None /\
  completed (drain 2 st) = completed st.
Proof.
  intros Hr. destruct (quiet_inv_reach c0 st Hr) as [Hq Hd].
  split; [exact Hq |].
  destruct (inflight st) as [s|] eqn:E.
  - cbn [drain]. unfold write_done. rewrite E.
    destruct (dirty st) eqn:D; cbn; [auto |].
    destruct (Hd s eq_refl) as [-> | ?]; [auto | discriminate].
  - cbn [drain]. unfold write_done. rewrite E. auto.
Qed.

End FlushProofs.

Module FlushWitnesses.
Import Flush FlushProofs.

(** Two conversions finish while the first write is in flight. *)
Lemma flush_run_two b : freach b [] (complete 1 (complete 0 (fstart []))).
Proof.
  apply (FStep b [] (complete 0 (fstart []))); [| apply FComplete].
  apply (FStep b [] (fstart [])); [apply FInit | apply FComplete].
Qed.

Lemma progress_file_prefix_witness :
  [] `prefix_of` completed (complete 1 (complete 0 (fstart []))) /\
  (forall f, file (complete 1 (complete 0 (fstart []))) = Some f ->
     f `prefix_of` completed (complete 1 (complete 0 (fstart [])))) /\
  (forall s, inflight (complete 1 (complete 0 (fstart []))) = Some s ->
     s `prefix_of` completed (complete 1 (complete 0 (fstart [])))).
Proof.
  exact (progress_file_prefix true [] _ (flush_run_two true)).
Defined.

(** The file still holds [[]] and the write of [[0]] is in flight; two
    writes later it holds [[0; 1]]. *)
Lemma flushProgress_catches_up_witness :
  (inflight (complete 1 (complete 0 (fstart []))) = None ->
     file (complete 1 (complete 0 (fstart []))) =
     Some (completed (complete 1 (complete 0 (fstart []))))) /\
  file (drain 2 (complete 1 (complete 0 (fstart [])))) = Some [0; 1] /\
  inflight (drain 2 (complete 1 (complete 0 (fstart [])))) = None /\
  completed (drain 2 (complete 1 (complete 0 (fstart [])))) = [0; 1].
Proof.
  exact (flushProgress_catches_up [] _ (flush_run_two false)).
Defined.

End FlushWitnesses.

Module HexProofs.
Import Hex.
Import Worker.

Definition byte_hex_expected (b : N) : string :=
  String (hex_digit (b / 16)) (String (hex_digit (b mod 16)) "").

Lemma byte_hex_table :
  forallb (fun k => String.eqb (byte_hex (N.of_nat k)) (byte_hex_expected (N.of_nat k)))
    (seq 0 256) = true.
Proof. vm_compute. reflexivity. Qed.

Lemma byte_hex_spec b : b < 256 -> byte_hex b = byte_hex_expected b.
Proof.
  intros Hb. pose proof byte_hex_table as T. rewrite forallb_forall in T.
  specialize (T (N.to_nat b)). rewrite N2Nat.id in T.
  apply String.eqb_eq, T, in_seq. lia.
Qed.

Lemma hex_digit_table :
  forallb (fun i => forallb (fun j =>
     implb (Ascii.eqb (hex_digit (N.of_nat i)) (hex_digit (N.of_nat j))) (i =? j)%nat)
     (seq 0 16)) (seq 0 16) = true.
Proof. vm_compute. reflexivity. Qed.

Lemma hex_digit_inj d1 d2 : d1 < 16 -> d2 < 16 -> hex_digit d1 = hex_digit d2 -> d1 = d2.
Proof.
  intros H1 H2 E. pose proof hex_digit_table as T. rewrite forallb_forall in T.
  specialize (T (N.to_nat d1) ltac:(apply in_seq; lia)). rewrite forallb_forall in T.
  specialize (T (N.to_nat d2) ltac:(apply in_seq; lia)).
  rewrite !N2Nat.id, E, Ascii.eqb_refl in T. cbn in T.
  apply Nat.eqb_eq in T. lia.
Qed.

Lemma hex_digit_lower d : is_lower_hex (hex_digit d) = true.
Proof.
  assert (Hd : d < 16 \/ 16 <= d) by lia. destruct Hd as [Hd | Hd].
  - assert (T : forallb (fun k => is_lower_hex (hex_digit (N.of_nat k))) (seq 0 16) = true)
      by (vm_compute; reflexivity).
    rewrite forallb_forall in T. specialize (T (N.to_nat d) ltac:(apply in_seq; lia)).
    rewrite N2Nat.id in T. exact T.
  - unfold hex_digit. destruct d as [|p]; [lia |].
    do 4 (destruct p as [p|p|]; try lia); reflexivity.
Qed.

Lemma str_forallb_app f (s t : string) :
  str_forallb f (s +:+ t) = str_forallb f s && str_forallb f t.
Proof.
  induction s as [|c s IH]; [reflexivity |].
  rewrite WorkerProofs.str_app_cons. cbn. rewrite IH. apply andb_assoc.
Qed.

(** [sha256Hex] (src/lib/crypto.ts, lines 61-66): for digest bytes
    (each below 256) the hex string has two characters per byte, all of
    them [0-9a-f], and distinct digests give distinct strings (so the
    32-byte SHA-256 digest gives 64 characters, and comparing the hashes
    compares the digests). *)
Theorem sha256Hex_hex_encoding (bytes : list N) :
  Forall (fun b => b < 256) bytes ->
  String.length (hex_join bytes) = (2 * length bytes)%nat /\
  str_forallb is_lower_hex (hex_join bytes) = true /\
  (forall bytes', Forall (fun b => b < 256) bytes' ->
     hex_join bytes' = hex_join bytes -> bytes' = bytes).
Proof.
  induction bytes as [|b bs IH]; intros Hall.
  - split; [reflexivity | split; [reflexivity |]].
    intros [|b' bs'] Hall' E; [reflexivity |].
    apply Forall_cons in Hall' as [Hb' _].
    cbn [hex_join] in E. rewrite (byte_hex_spec b' Hb') in E. unfold byte_hex_expected in E.
    rewrite WorkerProofs.str_app_cons in E. discriminate.
  - apply Forall_cons in Hall as [Hb Hbs].
    destruct (IH Hbs) as (Hlen & Hlow & Hinj).
    cbn [hex_join]. rewrite (byte_hex_spec b Hb). unfold byte_hex_expected.
    rewrite !WorkerProofs.str_app_cons, WorkerProofs.str_app_nil_l.
    split; [cbn; lia | split].
    + cbn. rewrite !hex_digit_lower. exact Hlow.
    + intros [|b' bs'] Hall' E.
      * cbn in E. discriminate.
      * apply Forall_cons in Hall' as [Hb' Hbs'].
        cbn [hex_join] in E. rewrite (byte_hex_spec b' Hb') in E. unfold byte_hex_expected in E.
        rewrite !WorkerProofs.str_app_cons, WorkerProofs.str_app_nil_l in E.
        injection E as E1 E2 E3.
        apply hex_digit_inj in E1; [| apply N.Div0.div_lt_upper_bound; lia ..].
        apply hex_digit_inj in E2; [| apply N.mod_lt; lia ..].
        rewrite (Hinj bs' Hbs' E3). f_equal.
        rewrite (N.div_mod b' 16), (N.div_mod b 16) by lia. lia.
Qed.

End HexProofs.

Module HexWitnesses.
Import Hex HexProofs Worker.

Lemma sha256Hex_hex_encoding_witness :
  hex_join [0; 15; 255; 171] = "000fffab" /\
  String.length (hex_join [0; 15; 255; 171]) = 8%nat /\
  str_forallb is_lower_hex (hex_join [0; 15; 255; 171]) = true /\
  (forall bytes', Forall (fun b => b < 256) bytes' ->
     hex_join bytes' = hex_join [0; 15; 255; 171] -> bytes' = [0; 15; 255; 171]).
Proof.
  split; [vm_compute; reflexivity |].
  apply (sha256Hex_hex_encoding [0; 15; 255; 171]).
  repeat (apply Forall_cons; split; [lia |]). apply Forall_nil. exact I.
Defined.

End HexWitnesses.

Module FetchProofs.
Import Fetch Worker WorkerProofs.

Definition member_names (e : Disk.ChunkEntry) : list string :=
  ["thumb" +:+ pretty (Disk.id e) +:+ ".avif";
   "asset" +:+ pretty (Disk.id e) +:+ ".avif";
   "video" +:+ pretty (Disk.id e) +:+ ".mp4"].

Lemma rec_set_names {V} (k : string) (v : V) r k' :
  In k' (map fst (rec_set k v r)) -> k' = k \/ In k' (map fst r).
Proof.
  induction r as [|[k0 v0] r IH]; cbn.
  - intros [<- | []]. left. reflexivity.
  - destruct (String.eqb k k0) eqn:E; cbn.
    + apply String.eqb_eq in E as <-. intros [<- | H]; [left | right; right]; auto.
    + intros [<- | H]; [right; left; reflexivity |].
      destruct (IH H) as [-> | H']; [left | right; right]; auto.
Qed.

Definition names3 {B M} (r : list (string * B) * list (string * B) * list (string * B) * M)
  : list string :=
  map fst r.1.1.1 ++ map fst r.1.1.2 ++ map fst r.1.2.

Lemma add_entry_names {Bytes} (fileBytes : string -> Bytes) r e k :
  In k (names3 (Disk.add_entry fileBytes r e)) ->
  In k (names3 r) \/ In k (member_names e).
Proof.
  destruct r as [[[t a] v] m]. unfold Disk.add_entry, names3. cbn.
  rewrite !in_app_iff.
  intros [H | [H | H]].
  - destruct (rec_set_names _ _ _ _ H) as [-> | H']; [right; left; reflexivity | tauto].
  - destruct (Disk.truthy (Disk.assetPath e)); [| tauto].
    destruct (rec_set_names _ _ _ _ H) as [-> | H']; [right; right; left; reflexivity | tauto].
  - destruct (Disk.truthy (Disk.videoPath e)); [| tauto].
    destruct (rec_set_names _ _ _ _ H) as [-> | H'];
      [right; right; right; left; reflexivity | tauto].
Qed.

Lemma fold_names {Bytes} (fileBytes : string -> Bytes) es : forall r k,
  In k (names3 (fold_left (Disk.add_entry fileBytes) es r)) ->
  In k (names3 r) \/ exists e, In e es /\ In k (member_names e).
Proof.
  induction es as [|e es IH]; intros r k H; [left; exact H |].
  cbn [fold_left] in H. destruct (IH _ _ H) as [H1 | (e' & He' & Hk)].
  - destruct (add_entry_names fileBytes r e k H1) as [H2 | H2]; [left; exact H2 |].
    right. exists e. split; [left; reflexivity | exact H2].
  - right. exists e'. split; [right; exact He' | exact Hk].
Qed.

Lemma seal_names {Bytes} (fileBytes : string -> Bytes)
    (encodeMeta : list (string * (string * AssetType)) -> Bytes)
    (s : Sealed (E:=Disk.ChunkEntry)) w k :
  In w (snd (Disk.seal fileBytes encodeMeta s)) -> In k (map fst (Disk.w_files w)) ->
  k = "meta.json" \/ exists e, In e (sealed_entries s) /\ In k (member_names e).
Proof.
  unfold Disk.seal.
  destruct (fold_left (Disk.add_entry fileBytes) (sealed_entries s) ([], [], [], []))
    as [[[t a] v] m] eqn:F.
  assert (Hf : forall k', In k' (names3 (t, a, v, m)) ->
                 exists e, In e (sealed_entries s) /\ In k' (member_names e)).
  { intros k' Hk'. rewrite <- F in Hk'.
    destruct (fold_names fileBytes _ _ _ Hk') as [[] | H]; exact H. }
  unfold names3 in Hf; cbn in Hf.
  cbn [snd]. rewrite in_app_iff. intros [[<- | [<- | []]] | Hv]; cbn [Disk.w_files]; intros Hk.
  - destruct (rec_set_names _ _ _ _ Hk) as [-> | H]; [left; reflexivity | right].
    apply Hf. rewrite !in_app_iff. tauto.
  - right. apply Hf. rewrite !in_app_iff. tauto.
  - destruct (0 <? N.of_nat (length v)); cbn in Hv; [| contradiction].
    destruct Hv as [<- | []]. cbn in Hk. right. apply Hf. rewrite !in_app_iff. tauto.
Qed.

Lemma createChunks_names {Bytes} (fileSize : string -> N) (fileBytes : string -> Bytes)
    (encodeMeta : list (string * (string * AssetType)) -> Bytes) max entries w k :
  In w (snd (Disk.createChunks_with fileSize fileBytes encodeMeta max entries)) ->
  In k (map fst (Disk.w_files w)) ->
  k = "meta.json" \/ exists e, In e entries /\ In k (member_names e).
Proof.
  unfold Disk.createChunks_with; cbn [snd]. intros Hw Hk.
  apply in_concat in Hw as (l & Hl & Hw). rewrite map_map in Hl.
  apply in_map_iff in Hl as (s & <- & Hs).
  destruct (seal_names fileBytes encodeMeta s w k Hw Hk) as [-> | (e & He & Hke)];
    [left; reflexivity | right].
  exists e. split; [| exact Hke].
  destruct entries as [|e0 rest]; [cbn in Hs; contradiction |].
  pose proof (plan_loop_concat Disk.id (Disk.weight fileSize) max (e0 :: rest) 0 0 0 []
               ltac:(discriminate)) as Hc.
  rewrite app_nil_l in Hc. rewrite <- Hc.
  apply in_concat. exists (sealed_entries s). split; [| exact He].
  apply in_map. exact Hs.
Qed.

Lemma member_name_id e k :
  In k (member_names e) ->
  extractId k = Z.of_N (Disk.id e) /\
  ((k = "thumb" +:+ pretty (Disk.id e) +:+ ".avif" \/ k = "asset" +:+ pretty (Disk.id e) +:+ ".avif")
     /\ mimeType k = "image/avif" \/
   k = "video" +:+ pretty (Disk.id e) +:+ ".mp4" /\ mimeType k = "video/mp4").
Proof.
  assert (Hav : forall p, mimeType (p +:+ pretty (Disk.id e) +:+ ".avif") = "image/avif").
  { intros p. unfold mimeType. rewrite str_app_assoc, endsWith_app. reflexivity. }
  intros [<- | [<- | [<- | []]]].
  - split; [apply extractId_name; done |]. left. split; [left; reflexivity | apply Hav].
  - split; [apply extractId_name; done |]. left. split; [right; reflexivity | apply Hav].
  - split; [apply extractId_name; done |]. right. split; [reflexivity |].
    unfold mimeType. rewrite str_app_assoc, mp4_not_avif, endsWith_app; [reflexivity |].
    rewrite str_app_cons. discriminate.
Qed.

Lemma drop_meta_names {B} (files : list (string * B)) k :
  In k (map fst (drop_meta files)) -> In k (map fst files) /\ k <> "meta.json".
Proof.
  unfold drop_meta. destruct (existsb _ files) eqn:E.
  - intros Hk. apply in_map_iff in Hk as ([k' v] & <- & Hin).
    apply list_elem_of_In, list_elem_of_filter in Hin as [Hne Hin].
    split; [apply in_map_iff; exists (k', v); split; [reflexivity | apply list_elem_of_In; exact Hin] | exact Hne].
  - intros Hk. split; [exact Hk |]. intros ->.
    apply in_map_iff in Hk as ([k' v] & Hk' & Hin). cbn in Hk'. subst k'.
    assert (existsb (fun kv => String.eqb (fst kv) "meta.json") files = true)
      by (apply existsb_exists; exists ("meta.json", v); split; [exact Hin | apply String.eqb_refl]).
    congruence.
Qed.

Lemma store_puts_all {B} (files : list (string * B)) :
  (forall kv, In kv files -> (0 <= extractId (fst kv))%Z) ->
  store_puts files = map (fun kv => (extractId (fst kv), mimeType (fst kv))) files.
Proof.
  induction files as [|kv files IH]; intros H; [reflexivity |].
  cbn [store_puts flat_map map]. unfold store_puts in IH.
  replace (0 <=? extractId (fst kv))%Z with true
    by (symmetry; apply Z.leb_le, H; left; reflexivity).
  cbn. f_equal. apply IH. intros kv' Hkv'. apply H. right. exact Hkv'.
Qed.

(** The album worker on the archives [createChunks] writes
    (src/lib/worker/album-worker.ts, lines 103-128, on the members of
    tools/crypto-file.ts's archives): after [meta.json] is set aside,
    every member passes the [id >= 0] test and is stored, and its name
    is [thumb<id>.avif] or [asset<id>.avif] (type [image/avif]) or
    [video<id>.mp4] (type [video/mp4]) for an entry with that id; so the
    reported ids are the entry ids the archive holds. *)
Theorem fetched_members_stored {Bytes} (fileSize : string -> N) (fileBytes : string -> Bytes)
    (encodeMeta : list (string * (string * AssetType)) -> Bytes) max entries w :
  In w (snd (Disk.createChunks_with fileSize fileBytes encodeMeta max entries)) ->
  store_puts (drop_meta (Disk.w_files w)) =
    map (fun kv => (extractId (fst kv), mimeType (fst kv))) (drop_meta (Disk.w_files w)) /\
  (forall k, In k (map fst (drop_meta (Disk.w_files w))) ->
     exists e, In e entries /\ extractId k = Z.of_N (Disk.id e) /\
       ((k = "thumb" +:+ pretty (Disk.id e) +:+ ".avif" \/ k = "asset" +:+ pretty (Disk.id e) +:+ ".avif")
          /\ mimeType k = "image/avif" \/
        k = "video" +:+ pretty (Disk.id e) +:+ ".mp4" /\ mimeType k = "video/mp4")).
Proof.
  intros Hw.
  assert (Hn : forall k, In k (map fst (drop_meta (Disk.w_files w))) ->
     exists e, In e entries /\ In k (member_names e)).
  { intros k Hk. apply drop_meta_names in Hk as [Hk Hne].
    destruct (createChunks_names fileSize fileBytes encodeMeta max entries w k Hw Hk)
      as [-> | H]; [contradiction | exact H]. }
  split.
  - apply store_puts_all. intros [k v] Hkv.
    destruct (Hn k) as (e & _ & Hke);
      [apply in_map_iff; exists (k, v); split; [reflexivity | exact Hkv] |].
    cbn [fst]. rewrite (proj1 (member_name_id e k Hke)). lia.
  - intros k Hk. destruct (Hn k Hk) as (e & He & Hke).
    exists e. split; [exact He | apply member_name_id; exact Hke].
Qed.

End FetchProofs.

Module FetchWitnesses.
Import Fetch Worker FetchProofs.

(** The thumbnails archive of the step 5 example: [thumb0.avif],
    [thumb2.avif] and [meta.json]; the worker reports ids 0 and 2. *)
Lemma fetched_members_stored_witness :
  reported_ids (Disk.w_files (nth 0 (snd step5_chunks) (Disk.mkWrite "" []))) = [0%Z; 2%Z] /\
  store_puts (drop_meta (Disk.w_files (nth 0 (snd step5_chunks) (Disk.mkWrite "" [])))) =
    map (fun kv => (extractId (fst kv), mimeType (fst kv)))
      (drop_meta (Disk.w_files (nth 0 (snd step5_chunks) (Disk.mkWrite "" [])))).
Proof.
  split; [vm_compute; reflexivity |].
  apply (fetched_members_stored sizes_400MB no_bytes no_bytes Disk.MAX_CHUNK_SIZE
           (Main.build_entries path_join "cache" step5_scanned [0; 2])).
  apply nth_In. vm_compute. lia.
Defined.

End FetchWitnesses.

(** ** Group keys and labels: tools/lib/converter.ts [generateManifest]
    month keys read back by src/lib/crypto.ts [buildGroups] *)
Module GroupsProofs.
Import Groups Worker WorkerProofs Manifest ManifestProofs.

Lemma digit_cases c : is_digit c = true ->
  c = "0"%char \/ c = "1"%char \/ c = "2"%char \/ c = "3"%char \/ c = "4"%char \/
  c = "5"%char \/ c = "6"%char \/ c = "7"%char \/ c = "8"%char \/ c = "9"%char.
Proof.
  destruct c as [[][][][][][][][]]; vm_compute; intros H;
    first [discriminate H | repeat (first [left; reflexivity | right]); reflexivity].
Qed.

Lemma digit_not_dash c : is_digit c = true -> Ascii.eqb c "-"%char = false.
Proof. intros H. destruct (digit_cases c H) as [->|[->|[->|[->|[->|[->|[->|[->|[->| ->]]]]]]]]]; reflexivity. Qed.

Lemma digit_prefix_all (s : string) : str_forallb is_digit s = true -> Cli.digit_prefix s = s.
Proof.
  induction s as [|c s IH]; intros Hs; [done|]. cbn in Hs |- *.
  apply andb_prop in Hs as [Hc Hs]. rewrite Hc, IH by exact Hs. done.
Qed.

Lemma trim_start_digit c r : is_digit c = true -> Cli.trim_start (String c r) = String c r.
Proof.
  intros H. destruct (digit_cases c H) as [->|[->|[->|[->|[->|[->|[->|[->|[->| ->]]]]]]]]];
    reflexivity.
Qed.

(** A no-break space (C2 A0) and a byte order mark (EF BB BF) before the
    sign are skipped, as [parseInt] does. *)
Lemma parseInt10_unicode_space :
  Cli.parseInt10 (String "194" (String "160" (String "239" (String "187" (String "191" "-3")))))
    = Some (-3)%Z.
Proof. vm_compute. reflexivity. Qed.

Lemma parseInt10_digits (s : string) : s <> EmptyString -> str_forallb is_digit s = true ->
  Cli.parseInt10 s = Some (Z.of_N (parse_dec 0 s)).
Proof.
  intros Hne Hd. pose proof (digit_prefix_all s Hd) as Hp.
  destruct s as [|c r]; [done|]. cbn in Hd. apply andb_prop in Hd as [Hc _].
  unfold Cli.parseInt10. rewrite (trim_start_digit c r Hc).
  destruct (digit_cases c Hc) as [->|[->|[->|[->|[->|[->|[->|[->|[->| ->]]]]]]]]];
    cbv beta iota zeta; rewrite Hp; rewrite Z.mul_1_l; reflexivity.
Qed.

Lemma pretty_Z_of_N (n : N) : pretty (Z.of_N n) = pretty n.
Proof. destruct n; reflexivity. Qed.

Lemma pretty_Z_digits (y : Z) : (0 <= y)%Z ->
  pretty y <> EmptyString /\ str_forallb is_digit (pretty y) = true /\
  Cli.parseInt10 (pretty y) = Some y.
Proof.
  intros Hy. rewrite <- (Z2N.id y Hy), pretty_Z_of_N.
  destruct (pretty_digits (Z.to_N y)) as (H1 & H2 & H3).
  split; [done|split; [done|]]. rewrite parseInt10_digits, H3 by done. reflexivity.
Qed.

Lemma split_on_digits (s : string) : str_forallb is_digit s = true ->
  forall b, split_on "-"%char (s +:+ String "-"%char b) = s :: split_on "-"%char b.
Proof.
  induction s as [|c s IH]; intros Hs b; [reflexivity|].
  cbn in Hs. apply andb_prop in Hs as [Hc Hs].
  rewrite str_app_cons. cbn [split_on]. rewrite digit_not_dash by exact Hc.
  rewrite IH by exact Hs. reflexivity.
Qed.

Lemma split_on_digits_end (s : string) : str_forallb is_digit s = true ->
  split_on "-"%char s = [s].
Proof.
  induction s as [|c s IH]; intros Hs; [reflexivity|].
  cbn in Hs. apply andb_prop in Hs as [Hc Hs].
  cbn [split_on]. rewrite digit_not_dash by exact Hc. rewrite IH by exact Hs. reflexivity.
Qed.

(** What follows the year in a month key: [MM-01]. *)
Definition month_tail (m0 : Z) : string :=
  Hex.padStart (pretty (m0 + 1)%Z) 2 "0"%char +:+ "-01".

Lemma monthKey_of_split (y m0 : Z) :
  monthKey_of y m0 = pretty y +:+ String "-"%char (month_tail m0).
Proof. reflexivity. Qed.

Lemma month_range (m0 : Z) : (0 <= m0 <= 11)%Z ->
  m0 = 0%Z \/ m0 = 1%Z \/ m0 = 2%Z \/ m0 = 3%Z \/ m0 = 4%Z \/ m0 = 5%Z \/
  m0 = 6%Z \/ m0 = 7%Z \/ m0 = 8%Z \/ m0 = 9%Z \/ m0 = 10%Z \/ m0 = 11%Z.
Proof. lia. Qed.

Ltac month_cases H :=
  destruct (month_range _ H) as
    [->|[->|[->|[->|[->|[->|[->|[->|[->|[->|[->| ->]]]]]]]]]]].

Lemma month_tail_index (m0 : Z) : (0 <= m0 <= 11)%Z ->
  option_map (fun z => (z - 1)%Z) (parseInt_opt (nth_error (split_on "-"%char (month_tail m0)) 0))
  = Some m0.
Proof. intros H. month_cases H; vm_compute; reflexivity. Qed.

Lemma month_pad (m0 : Z) : (0 <= m0 <= 11)%Z ->
  Hex.padStart (pretty m0) 2 "0"%char <> EmptyString /\
  str_forallb is_digit (Hex.padStart (pretty m0) 2 "0"%char) = true /\
  Cli.parseInt10 (Hex.padStart (pretty m0) 2 "0"%char) = Some m0.
Proof. intros H. month_cases H; vm_compute; (split; [discriminate|split; reflexivity]). Qed.

Lemma month_key_label (y m0 : Z) : (0 <= y)%Z -> (0 <= m0 <= 11)%Z ->
  group_key_label (monthKey_of y m0)
  = (pretty y +:+ "-" +:+ Hex.padStart (pretty m0) 2 "0"%char,
     nth (Z.to_nat m0) MONTH_NAMES "undefined" +:+ " " +:+ pretty y).
Proof.
  intros Hy Hm. destruct (pretty_Z_digits y Hy) as (_ & Hd & Hp).
  unfold group_key_label. rewrite monthKey_of_split, split_on_digits by exact Hd.
  change (nth_error (pretty y :: ?l) 1) with (nth_error l 0).
  change (nth_error (pretty y :: ?l) 0) with (Some (pretty y)).
  rewrite month_tail_index by exact Hm.
  unfold parseInt_opt. rewrite Hp. cbn [num_str]. unfold month_name.
  replace ((0 <=? m0)%Z && (m0 <? 12)%Z) with true; [reflexivity|].
  symmetry. apply andb_true_intro. split; [apply Z.leb_le|apply Z.ltb_lt]; lia.
Qed.

Lemma key_inj (y m0 y' m0' : Z) :
  (0 <= y)%Z -> (0 <= m0 <= 11)%Z -> (0 <= y')%Z -> (0 <= m0' <= 11)%Z ->
  pretty y' +:+ "-" +:+ Hex.padStart (pretty m0') 2 "0"%char
  = pretty y +:+ "-" +:+ Hex.padStart (pretty m0) 2 "0"%char ->
  y' = y /\ m0' = m0.
Proof.
  intros Hy Hm Hy' Hm' Heq.
  destruct (pretty_Z_digits y Hy) as (_ & Hd & Hp).
  destruct (pretty_Z_digits y' Hy') as (_ & Hd' & Hp').
  destruct (month_pad m0 Hm) as (_ & Hq & Hr).
  destruct (month_pad m0' Hm') as (_ & Hq' & Hr').
  apply (f_equal (split_on "-"%char)) in Heq.
  change ("-" +:+ ?t) with (String "-"%char t) in Heq.
  rewrite !split_on_digits, !split_on_digits_end in Heq by assumption.
  injection Heq as E1 E2. split.
  - apply (f_equal Cli.parseInt10) in E1. rewrite Hp, Hp' in E1. injection E1 as E1. exact E1.
  - apply (f_equal Cli.parseInt10) in E2. rewrite Hr, Hr' in E2. injection E2 as E2. exact E2.
Qed.

Lemma monthKey_of_inj (y m0 y' m0' : Z) :
  (0 <= y)%Z -> (0 <= m0 <= 11)%Z -> (0 <= y')%Z -> (0 <= m0' <= 11)%Z ->
  fst (group_key_label (monthKey_of y' m0')) = fst (group_key_label (monthKey_of y m0)) ->
  y' = y /\ m0' = m0.
Proof.
  intros Hy Hm Hy' Hm' Heq. rewrite !month_key_label in Heq by assumption.
  exact (key_inj y m0 y' m0' Hy Hm Hy' Hm' Heq).
Qed.

Lemma monthKey_of_nonempty (y m0 : Z) : monthKey_of y m0 <> EmptyString.
Proof. rewrite monthKey_of_split. intros H. apply (f_equal String.length) in H.
  rewrite length_str_app in H. cbn in H. lia. Qed.

Lemma ssorted_app (V1 V2 : list Z) : StronglySorted Z.le (V1 ++ V2) ->
  StronglySorted Z.le V2 /\ forall a b, In a V1 -> In b V2 -> (a <= b)%Z.
Proof.
  induction V1 as [|x V1 IH]; intros Hs; [split; [exact Hs|intros a b []]|].
  apply StronglySorted_inv in Hs as [Hs Hf]. destruct (IH Hs) as [H2 Hab].
  split; [exact H2|]. intros a b [<-|Ha] Hb; [|exact (Hab a b Ha Hb)].
  exact (proj1 (List.Forall_forall _ _) Hf b (in_or_app _ _ _ (or_intror Hb))).
Qed.

Lemma adj_distinct_tail (g : MonthGroup) (rest : list MonthGroup) :
  adj_distinct (g :: rest) -> adj_distinct rest.
Proof. destruct rest; cbn; tauto. Qed.

Lemma keys_of_head (g : MonthGroup) (rest : list MonthGroup) k :
  starts_from k (g :: rest) ->
  exists tl, keys_of (g :: rest) = mg_date g :: tl.
Proof.
  intros (_ & Hc & _). unfold keys_of. cbn [map concat].
  destruct (N.to_nat (count g)) as [|c] eqn:E; [lia|]. cbn. eexists. reflexivity.
Qed.

(** Groups read off keys of a sorted list of values, with [mk] injective
    on the values, have pairwise different months. *)
Lemma blocks_nodup (mk : Z -> string) : forall ms V k,
  StronglySorted Z.le V -> (forall a b, In a V -> In b V -> mk a = mk b -> a = b) ->
  keys_of ms = map mk V -> starts_from k ms -> adj_distinct ms ->
  NoDup (map mg_date ms) /\ (forall g, In g ms -> exists v, In v V /\ mg_date g = mk v).
Proof.
  induction ms as [|g rest IH]; intros V k Hs Hi Hk Hst Had.
  - split; [constructor|intros g []].
  - pose proof Hst as Hst0. destruct Hst as (_ & Hc & Hst).
    assert (Hk2 : map mk V = repeat (mg_date g) (N.to_nat (count g)) ++ keys_of rest)
      by (rewrite <- Hk; reflexivity).
    apply map_eq_app in Hk2 as (V1 & V2 & -> & H1 & H2).
    destruct (ssorted_app V1 V2 Hs) as [Hs2 Hle].
    assert (Hi2 : forall a b, In a V2 -> In b V2 -> mk a = mk b -> a = b)
      by (intros a b Ha Hb; apply Hi; apply in_or_app; right; assumption).
    destruct (IH V2 (k + count g) Hs2 Hi2 (eq_sym H2) Hst (adj_distinct_tail g rest Had))
      as [Hnd Hin2].
    destruct (N.to_nat (count g)) as [|c] eqn:E; [lia|]. cbn [repeat] in H1.
    apply map_eq_cons in H1 as (v1 & V1' & -> & Hv1 & _).
    split.
    + cbn [map]. apply NoDup_cons_2; [|exact Hnd].
      intros Hin. apply list_elem_of_In, in_map_iff in Hin as (g' & Hg' & Hg'in).
      destruct (Hin2 g' Hg'in) as (v' & Hv'in & Hv').
      destruct rest as [|g2 rest']; [destruct Hg'in|].
      destruct (keys_of_head g2 rest' _ Hst) as (tl & Htl).
      rewrite Htl in H2. apply map_eq_cons in H2 as (v2 & V2' & -> & Hv2 & _).
      assert (Hvv : v' = v1).
      { apply Hi; [apply in_or_app; right; exact Hv'in|left; reflexivity|].
        rewrite <- Hv', Hv1. exact Hg'. }
      assert (H12 : (v1 <= v2)%Z) by (apply Hle; left; reflexivity).
      assert (H2v : (v2 <= v')%Z).
      { destruct Hv'in as [<-|Hv'in]; [lia|].
        apply StronglySorted_inv in Hs2 as [_ Hf].
        exact (proj1 (List.Forall_forall _ _) Hf v' Hv'in). }
      assert (v1 = v2) as Heq by lia.
      destruct Had as [Hne _]. apply Hne. rewrite <- Hv1, <- Hv2, Heq. reflexivity.
    + intros g0 [<-|Hg0].
      * exists v1. split; [left; reflexivity|symmetry; exact Hv1].
      * destruct (Hin2 g0 Hg0) as (v & Hv & Hgv). exists v. split; [|exact Hgv].
        apply in_or_app. right. exact Hv.
Qed.

Lemma ym_split (y m0 : Z) : (0 <= m0 <= 11)%Z ->
  ((12 * y + m0) `div` 12)%Z = y /\ ((12 * y + m0) `mod` 12)%Z = m0.
Proof.
  intros Hm. split.
  - symmetry. apply (Z.div_unique_pos _ _ _ m0); lia.
  - symmetry. apply (Z.mod_unique_pos _ _ y); lia.
Qed.

(** X18.  A month key [`${year}-${MM}-01`] written by [generateManifest]
    for a year [>= 0] and a month index in [0..11] reads back in
    [buildGroups] as the key [`${year}-${mm}`] with the zero-padded month
    index, and the label of the month's name and the year; two different
    (year, month) pairs never get the same key. *)
Theorem month_key_roundtrip (y m0 : Z) :
  (0 <= y)%Z -> (0 <= m0 <= 11)%Z ->
  group_key_label (monthKey_of y m0)
  = (pretty y +:+ "-" +:+ Hex.padStart (pretty m0) 2 "0"%char,
     nth (Z.to_nat m0) MONTH_NAMES "undefined" +:+ " " +:+ pretty y) /\
  forall y' m0', (0 <= y')%Z -> (0 <= m0' <= 11)%Z ->
    fst (group_key_label (monthKey_of y' m0')) = fst (group_key_label (monthKey_of y m0)) ->
    y' = y /\ m0' = m0.
Proof.
  intros Hy Hm. split; [exact (month_key_label y m0 Hy Hm)|].
  intros y' m0' Hy' Hm' Heq. exact (monthKey_of_inj y m0 y' m0' Hy Hm Hy' Hm' Heq).
Qed.

(** X19.  When the dates come in ascending order of their local (year,
    month), with years [>= 0] and month indices in [0..11], the groups
    [buildGroups] makes from the manifest have pairwise different keys
    (the keys of the [{#each groups as group (group.key)}] block). *)
Theorem buildGroups_keys_distinct (getFullYear getMonth : string -> Z)
    (dates : list string) (cs : list ChunkInfo) :
  (forall d, In d dates -> (0 <= getFullYear d)%Z /\ (0 <= getMonth d <= 11)%Z) ->
  StronglySorted Z.le (map (fun d => 12 * getFullYear d + getMonth d)%Z dates) ->
  exists m, generateManifest (fun d => monthKey_of (getFullYear d) (getMonth d)) dates cs
            = Some m /\
    NoDup (map (fun g => fst (group_key_label (mg_date g))) (rev (months m))).
Proof.
  intros Hr Hs.
  set (mk := fun v : Z => monthKey_of (v `div` 12) (v `mod` 12)).
  set (ym := fun d => (12 * getFullYear d + getMonth d)%Z).
  destruct (generateManifest_groups (fun d => monthKey_of (getFullYear d) (getMonth d))
              dates cs (fun d => monthKey_of_nonempty _ _)) as (ms & Hg & Hk & Hst & Had).
  exists (mkManifest (N.of_nat (length dates)) cs ms). split; [exact Hg|]. cbn [months].
  assert (Hval : forall v, In v (map ym dates) ->
            exists d, In d dates /\ v = ym d /\ mk v = monthKey_of (getFullYear d) (getMonth d)).
  { intros v Hv. apply in_map_iff in Hv as (d & <- & Hd). exists d.
    split; [exact Hd|split; [reflexivity|]]. destruct (Hr d Hd) as [_ Hm].
    destruct (ym_split (getFullYear d) (getMonth d) Hm) as [E1 E2].
    unfold mk, ym. cbv beta. rewrite E1, E2. reflexivity. }
  assert (Hk' : keys_of ms = map mk (map ym dates)).
  { rewrite Hk, map_map. apply map_ext_in. intros d Hd. destruct (Hr d Hd) as [_ Hm].
    destruct (ym_split (getFullYear d) (getMonth d) Hm) as [E1 E2].
    unfold mk, ym. cbv beta. rewrite E1, E2. reflexivity. }
  assert (Hi : forall a b, In a (map ym dates) -> In b (map ym dates) -> mk a = mk b -> a = b).
  { intros a b Ha Hb Hab.
    destruct (Hval a Ha) as (da & Hda & -> & Ea). destruct (Hval b Hb) as (db & Hdb & -> & Eb).
    rewrite Ea, Eb in Hab. destruct (Hr da Hda) as [Hya Hma]. destruct (Hr db Hdb) as [Hyb Hmb].
    destruct (monthKey_of_inj _ _ _ _ Hyb Hmb Hya Hma (f_equal (fun s => fst (group_key_label s)) Hab))
      as [E1 E2].
    unfold ym. rewrite E1, E2. reflexivity. }
  destruct (blocks_nodup mk ms (map ym dates) 0 Hs Hi Hk' Hst Had) as [Hnd Hin].
  rewrite map_rev. apply NoDup_ListNoDup, NoDup_rev, NoDup_ListNoDup.
  rewrite <- (map_map mg_date (fun s => fst (group_key_label s))).
  apply NoDup_fmap_2_strong; [|exact Hnd].
  intros x z Hx Hz Hxz.
  apply list_elem_of_In, in_map_iff in Hx as (gx & <- & Hgx).
  apply list_elem_of_In, in_map_iff in Hz as (gz & <- & Hgz).
  destruct (Hin gx Hgx) as (vx & Hvx & Ex). destruct (Hin gz Hgz) as (vz & Hvz & Ez).
  destruct (Hval vx Hvx) as (dx & Hdx & _ & Fx). destruct (Hval vz Hvz) as (dz & Hdz & _ & Fz).
  rewrite Ex, Ez, Fx, Fz in Hxz |- *.
  destruct (Hr dx Hdx) as [Hyx Hmx]. destruct (Hr dz Hdz) as [Hyz Hmz].
  destruct (monthKey_of_inj _ _ _ _ Hyz Hmz Hyx Hmx Hxz) as [-> ->]. reflexivity.
Qed.

End GroupsProofs.

Module GroupsWitnesses.
Import Groups Manifest GroupsProofs.

Lemma month_key_roundtrip_witness :
  (0 <= 2024)%Z /\ (0 <= 2 <= 11)%Z /\
  group_key_label (monthKey_of 2024 2) = ("2024-02", "Березень 2024") /\
  (forall y' m0', (0 <= y')%Z -> (0 <= m0' <= 11)%Z ->
     fst (group_key_label (monthKey_of y' m0')) = fst (group_key_label (monthKey_of 2024 2)) ->
     y' = 2024%Z /\ m0' = 2%Z).
Proof.
  split; [lia|split; [lia|]].
  destruct (month_key_roundtrip 2024 2 ltac:(lia) ltac:(lia)) as [E H].
  split; [rewrite E; vm_compute; reflexivity|exact H].
Defined.

Definition w_dates : list string := ["2024-01-05T10:00:00.000Z"; "2024-01-20T08:30:00.000Z";
                                     "2024-03-02T12:00:00.000Z"].
Definition w_year (d : string) : Z := 2024.
Definition w_month (d : string) : Z :=
  if String.eqb d "2024-03-02T12:00:00.000Z" then 2 else 0.

Lemma buildGroups_keys_distinct_witness :
  (forall d, In d w_dates -> (0 <= w_year d)%Z /\ (0 <= w_month d <= 11)%Z) /\
  StronglySorted Z.le (map (fun d => 12 * w_year d + w_month d)%Z w_dates) /\
  exists m, generateManifest (fun d => monthKey_of (w_year d) (w_month d)) w_dates []
            = Some m /\
    NoDup (map (fun g => fst (group_key_label (mg_date g))) (rev (months m))).
Proof.
  assert (H1 : forall d, In d w_dates -> (0 <= w_year d)%Z /\ (0 <= w_month d <= 11)%Z).
  { intros d Hd. cbn in Hd. repeat destruct Hd as [<-|Hd]; try destruct Hd;
      vm_compute; split; try discriminate; split; discriminate. }
  assert (H2 : StronglySorted Z.le (map (fun d => 12 * w_year d + w_month d)%Z w_dates)).
  { vm_compute. repeat constructor; vm_compute; discriminate. }
  split; [exact H1|split; [exact H2|]].
  exact (buildGroups_keys_distinct w_year w_month w_dates [] H1 H2).
Defined.

End GroupsWitnesses.
